(** * Dump-truck discrete-event simulation: a shallow embedding of
      [simulation.js] and the properties of its engine.

    Numbers.  JavaScript numbers are IEEE doubles.  The counters of the
    engine ([L], [LQ], [W], [WQ]) and the truck identifiers only ever hold
    integers and are modelled in [Z].  Times, durations, probabilities and
    the busy-time accumulators are rationals [Q]: every finite double is a
    rational, and comparisons of doubles are comparisons of rationals.
    The sums of [createCumulativeTable], whose rounding decides whether a
    distribution is accepted, are binary64 sums ([fadd], [fsub]).  The
    sums, products and quotients of the engine (event times, busy-time
    accumulators, utilizations) are exact: a statement about them is about
    the run of the source as long as the source's operations are exact,
    and [Exact64] says when an addition is.  [NaN] and the infinities
    are not rationals: the numbers that the source reads are finite
    here, [NaN] is [None] where the parser tests for it, and an infinity
    only arises as the overflow of a sum.

    Randomness.  [Math.random()] is an oracle [random : nat -> Q]: the
    [n]-th call of a run returns [random n]; the state counts the calls.

    Exceptions.  A JavaScript [TypeError] (reading a property of
    [undefined]) or a thrown [Error] aborts the run; it is [None] in the
    state monad [M] and [Err] in [Result].

    The log ([logEvent]) is write-only: nothing reads it back, so it is
    left out of the state. *)

From Stdlib Require Import ZArith QArith Qabs Qround Lqa Lia Bool List.
From Stdlib Require Import Sorting.Sorted Sorting.Permutation.
From stdpp Require Import base list.
Import ListNotations.

#[local] Open Scope Q_scope.

(** ** Boolean comparisons on rationals *)

(** [a > b] of the source. *)
Definition Qgtb (a b : Q) : bool := negb (Qle_bool a b).
(** [a < b] of the source. *)
Definition Qltb (a b : Q) : bool := negb (Qle_bool b a).

(** ** Binary64 arithmetic

    The finite doubles are the rationals [m * 2^e] with [|m| < 2^53] and
    [-1074 <= e <= 971].  An operation of the source returns the double
    nearest to the exact result, the one with the even significand on a
    tie, and an infinity when that double would be [2^1024] or beyond. *)

(** [2^1024] stands for [Infinity] and its opposite for [-Infinity]. *)
Definition infinity : Q := inject_Z (2 ^ 1024).

Definition isInfinite (a : Q) : bool := Qle_bool infinity (Qabs a).

(** [floor (log2 (n / d))] *)
Definition ilog2 (n d : positive) : Z :=
  let k := (Z.log2 (Zpos n) - Z.log2 (Zpos d))%Z in
  if (if (0 <=? k)%Z then (2 ^ k * Zpos d <=? Zpos n)%Z
      else (Zpos d <=? 2 ^ (- k) * Zpos n)%Z)
  then k else (k - 1)%Z.

(** The integer nearest to [n / d], the even one of the two on a tie. *)
Definition nearestEven (n d : Z) : Z :=
  let f := (n / d)%Z in
  match (2 * (n mod d) ?= d)%Z with
  | Lt => f
  | Gt => (f + 1)%Z
  | Eq => if Z.even f then f else (f + 1)%Z
  end.

(** The double nearest to [n / d]: the multiple of the unit in the last
    place [2^x] nearest to it, where [x] is 52 below the exponent of
    [n / d], and -1074 for the subnormal numbers. *)
Definition roundPos (n d : positive) : Q :=
  let x := (Z.max (ilog2 n d) (-1022) - 52)%Z in
  let r := if (0 <=? x)%Z
           then inject_Z (nearestEven (Zpos n) (Zpos d * 2 ^ x) * 2 ^ x)
           else Qred (Qmake (nearestEven (Zpos n * 2 ^ (- x)) (Zpos d))
                            (Z.to_pos (2 ^ (- x)))) in
  if Qle_bool infinity r then infinity else r.

(** The double nearest to a rational. *)
Definition round64 (q : Q) : Q :=
  let q := Qred q in
  match Qnum q with
  | Z0 => 0
  | Zpos n => roundPos n (Qden q)
  | Zneg n => - roundPos n (Qden q)
  end.

(** [a + b] and [a - b] of the source, for a finite [b]: an infinite [a]
    stays what it is. *)
Definition fadd (a b : Q) : Q := if isInfinite a then a else round64 (a + b).
Definition fsub (a b : Q) : Q := fadd a (- b).

Arguments round64 : simpl never.
Arguments fadd : simpl never.
Arguments fsub : simpl never.

(** The binary64 sum is the exact one. *)
Definition Exact64 (a b : Q) : Prop := fadd a b == a + b.

(** The double denoted by a decimal literal of the source, or returned by
    [parseFloat] for a decimal text. *)
Definition double (q : Q) : Q := round64 q.

(** The literal [0.001] of the source. *)
Definition tolerance : Q := double 0.001.

(** ** Distribution tables *)

(** One [{ time, prob }] item of a parsed distribution. *)
Module Dist.
Record item := mk { time : Q; prob : Q }.
End Dist.

(** One [{ time, cum_prob }] entry of a cumulative table. *)
Module Cum.
Record entry := mk { time : Q; cum_prob : Q }.
End Cum.

(** The three thrown errors, named as in the specification's taxonomy:
    the two "Invalid format"/"Invalid numbers" messages of
    [parseDistribution] are [MalformedDistributionLine], its
    "Probability must be between 0 and 1" is [ProbabilityOutOfRange], and
    the "probabilities sum to ..." of [createCumulativeTable] is
    [InvalidDistribution]. *)
Inductive ErrorKind := MalformedDistributionLine | ProbabilityOutOfRange | InvalidDistribution.

Inductive Result (A : Type) :=
| Ok (a : A)
| Err (e : ErrorKind).
Arguments Ok {A} a.
Arguments Err {A} e.

(** A line of the textarea after [split], [trim] and [parseFloat]: either
    blank, or the list of its comma-separated parts, each parsed to a
    number or to [NaN] ([None]). *)
Inductive Line :=
| Blank
| Fields (parts : list (option Q)).

(** [parseDistribution]: the first offending line throws. *)
Fixpoint parseDistribution (lines : list Line) : Result (list Dist.item) :=
  match lines with
  | [] => Ok []
  | Blank :: rest => parseDistribution rest
  | Fields parts :: rest =>
      match parts with
      | [ptime; pprob] =>
          match ptime, pprob with
          | Some time, Some prob =>
              if Qltb prob 0 || Qgtb prob 1 then Err ProbabilityOutOfRange
              else
                match parseDistribution rest with
                | Ok dist => Ok (Dist.mk time prob :: dist)
                | Err e => Err e
                end
          | _, _ => Err MalformedDistributionLine
          end
      | _ => Err MalformedDistributionLine
      end
  end.

(** [dist.reduce((sum, item) => sum + item.prob, 0)] *)
Definition totalProb (dist : list Dist.item) : Q :=
  fold_left (fun sum item => fadd sum (Dist.prob item)) dist 0.

(** The loop of [createCumulativeTable]: the running [cum_prob] and the
    table built so far. *)
Definition cumLoop (dist : list Dist.item) (cum_prob : Q) (cumTable : list Cum.entry)
  : Q * list Cum.entry :=
  fold_left
    (fun '(cum_prob, cumTable) item =>
       let cum_prob := fadd cum_prob (Dist.prob item) in
       (cum_prob, cumTable ++ [Cum.mk (Dist.time item) cum_prob]))
    dist (cum_prob, cumTable).

(** [cumTable[cumTable.length - 1].cum_prob = 1.0], guarded by
    [cumTable.length > 0]. *)
Definition pinLast (cumTable : list Cum.entry) : list Cum.entry :=
  match last cumTable with
  | Some e => <[ pred (length cumTable) := Cum.mk (Cum.time e) 1 ]> cumTable
  | None => cumTable
  end.

Definition createCumulativeTable (dist : list Dist.item) : Result (list Cum.entry) :=
  if Qgtb (Qabs (fsub (totalProb dist) 1)) tolerance then Err InvalidDistribution
  else Ok (pinLast (snd (cumLoop dist 0 []))).

(** [createCumulativeTable(parseDistribution(text), name)] of
    [runSimulation]. *)
Definition loadDistribution (lines : list Line) : Result (list Cum.entry) :=
  match parseDistribution lines with
  | Ok dist => createCumulativeTable dist
  | Err e => Err e
  end.

(** ** The sampler *)

(** The [for (const entry of table)] scan of [getRandomTime]: the time of
    the first entry with [rand <= entry.cum_prob]; [None] when the loop
    falls through. *)
Fixpoint scanTable (rand : Q) (table : list Cum.entry) : option Q :=
  match table with
  | [] => None
  | entry :: rest =>
      if Qle_bool rand (Cum.cum_prob entry) then Some (Cum.time entry)
      else scanTable rand rest
  end.

(** [table[table.length - 1].time]; on an empty table the element is
    [undefined] and reading [.time] is a [TypeError]. *)
Definition lastTime (table : list Cum.entry) : option Q :=
  Cum.time <$> last table.

(** The body of [getRandomTime] once [rand] has been drawn. *)
Definition sampleTable (rand : Q) (table : list Cum.entry) : option Q :=
  match scanTable rand table with
  | Some t => Some t
  | None => lastTime table
  end.

(** ** Engine data *)

Inductive EventType := ALQ | EL | EW.

Record Event := mkEvent { time : Q; type : EventType; truckId : Z }.

Inductive TruckState := IDLE | LOADING | WEIGHING | TRAVELING | IN_LQ | IN_WQ.

Record Truck := mkTruck { id : Z; state : TruckState }.

(** The keys of the [cumProbs] object. *)
Inductive TimeType := loading | weighing | travel.

(** The constructor's arguments; they are never assigned after
    construction. *)
Record Config := mkConfig {
  numTrucks : Z;
  numLoaders : Z;
  numScales : Z;
  maxSimTime : Q;
  cumProbs : TimeType -> list Cum.entry
}.

(** The mutable fields of a [Simulation] object.  [this.state.LQ],
    [this.state.L], [this.state.WQ], [this.state.W] and the two fields of
    [this.stats] are flattened into the record; [draws] counts the calls
    of [Math.random()]. *)
Record Simulation := mkSim {
  clock : Q;
  FEL : list Event;
  LQ : Z;
  L : Z;
  WQ : Z;
  W : Z;
  loaderQueue : list Z;
  weigherQueue : list Z;
  trucks : list Truck;
  loaderBusyTime : Q;
  scaleBusyTime : Q;
  draws : nat
}.

Definition set_clock (v : Q) (s : Simulation) : Simulation :=
  mkSim v (FEL s) (LQ s) (L s) (WQ s) (W s) (loaderQueue s) (weigherQueue s)
        (trucks s) (loaderBusyTime s) (scaleBusyTime s) (draws s).
Definition set_FEL (v : list Event) (s : Simulation) : Simulation :=
  mkSim (clock s) v (LQ s) (L s) (WQ s) (W s) (loaderQueue s) (weigherQueue s)
        (trucks s) (loaderBusyTime s) (scaleBusyTime s) (draws s).
Definition set_LQ (v : Z) (s : Simulation) : Simulation :=
  mkSim (clock s) (FEL s) v (L s) (WQ s) (W s) (loaderQueue s) (weigherQueue s)
        (trucks s) (loaderBusyTime s) (scaleBusyTime s) (draws s).
Definition set_L (v : Z) (s : Simulation) : Simulation :=
  mkSim (clock s) (FEL s) (LQ s) v (WQ s) (W s) (loaderQueue s) (weigherQueue s)
        (trucks s) (loaderBusyTime s) (scaleBusyTime s) (draws s).
Definition set_WQ (v : Z) (s : Simulation) : Simulation :=
  mkSim (clock s) (FEL s) (LQ s) (L s) v (W s) (loaderQueue s) (weigherQueue s)
        (trucks s) (loaderBusyTime s) (scaleBusyTime s) (draws s).
Definition set_W (v : Z) (s : Simulation) : Simulation :=
  mkSim (clock s) (FEL s) (LQ s) (L s) (WQ s) v (loaderQueue s) (weigherQueue s)
        (trucks s) (loaderBusyTime s) (scaleBusyTime s) (draws s).
Definition set_loaderQueue (v : list Z) (s : Simulation) : Simulation :=
  mkSim (clock s) (FEL s) (LQ s) (L s) (WQ s) (W s) v (weigherQueue s)
        (trucks s) (loaderBusyTime s) (scaleBusyTime s) (draws s).
Definition set_weigherQueue (v : list Z) (s : Simulation) : Simulation :=
  mkSim (clock s) (FEL s) (LQ s) (L s) (WQ s) (W s) (loaderQueue s) v
        (trucks s) (loaderBusyTime s) (scaleBusyTime s) (draws s).
Definition set_trucks (v : list Truck) (s : Simulation) : Simulation :=
  mkSim (clock s) (FEL s) (LQ s) (L s) (WQ s) (W s) (loaderQueue s) (weigherQueue s)
        v (loaderBusyTime s) (scaleBusyTime s) (draws s).
Definition set_loaderBusyTime (v : Q) (s : Simulation) : Simulation :=
  mkSim (clock s) (FEL s) (LQ s) (L s) (WQ s) (W s) (loaderQueue s) (weigherQueue s)
        (trucks s) v (scaleBusyTime s) (draws s).
Definition set_scaleBusyTime (v : Q) (s : Simulation) : Simulation :=
  mkSim (clock s) (FEL s) (LQ s) (L s) (WQ s) (W s) (loaderQueue s) (weigherQueue s)
        (trucks s) (loaderBusyTime s) v (draws s).
Definition set_draws (v : nat) (s : Simulation) : Simulation :=
  mkSim (clock s) (FEL s) (LQ s) (L s) (WQ s) (W s) (loaderQueue s) (weigherQueue s)
        (trucks s) (loaderBusyTime s) (scaleBusyTime s) v.

(** ** The state-and-exception monad of the methods *)

Definition M (A : Type) : Type := Simulation -> option (A * Simulation).

Definition ret {A} (a : A) : M A := fun s => Some (a, s).
Definition bind {A B} (m : M A) (f : A -> M B) : M B :=
  fun s => match m s with
           | Some (a, s') => f a s'
           | None => None
           end.
(** An uncaught exception. *)
Definition throw {A} : M A := fun _ => None.
(** Read a field of [this]. *)
Definition gets {A} (f : Simulation -> A) : M A := fun s => Some (f s, s).
(** Assign fields of [this]. *)
Definition modify (f : Simulation -> Simulation) : M unit := fun s => Some (tt, f s).

Declare Scope sim_scope.
Delimit Scope sim_scope with sim.
Notation "x <- c1 ;; c2" := (bind c1 (fun x => c2))
  (at level 100, c1 at next level, right associativity) : sim_scope.
Notation "c1 ;; c2" := (bind c1 (fun _ => c2))
  (at level 100, right associativity) : sim_scope.

(** ** The future event list *)

(** Insertion of [e] into a list sorted by time, in front of the first
    event that does not compare below it: with the comparator
    [(a, b) => a.time - b.time], [e] goes before an event of equal time. *)
Fixpoint insertEvent (e : Event) (l : list Event) : list Event :=
  match l with
  | [] => [e]
  | x :: rest =>
      if Qle_bool (time e) (time x) then e :: l
      else x :: insertEvent e rest
  end.

(** [Array.prototype.sort] with that comparator: a stable sort by time
    (elements of equal time keep their order). *)
Definition sortByTime (l : list Event) : list Event :=
  fold_right insertEvent [] l.

(** [this.FEL.push(event); this.FEL.sort(...)] as a function of the list. *)
Definition pushAndSort (event : Event) (fel : list Event) : list Event :=
  sortByTime (fel ++ [event]).

(** An array index: [a[i]] is [undefined] when [i] is negative. *)
Definition arrayIndex (i : Z) : option nat :=
  if (0 <=? i)%Z then Some (Z.to_nat i) else None.

(** [Array(numTrucks).fill(null).map((_, i) => ({ id: i + 1, state: 'IDLE' }))] *)
Definition newTrucks (n : nat) : list Truck :=
  map (fun i => mkTruck (Z.of_nat i + 1) IDLE) (seq 0 n).

(** The value returned by [getFinalStats]. *)
Record FinalStats := mkStats {
  totalTime : Q;
  loaderUtilization : Q;
  scaleUtilization : Q
}.

(** How a bounded execution of [run] ends: with a value, with an uncaught
    exception, or still inside the [while] loop when the fuel is spent. *)
Inductive Outcome (A : Type) :=
| Finished (a : A)
| Threw
| OutOfFuel.
Arguments Finished {A} a.
Arguments Threw {A}.
Arguments OutOfFuel {A}.

(** The result of one evaluation of the [while] loop of [run]: the body
    ran to its end ([Continue]), or the loop was left, by its condition or
    by [break] ([Done]).  Both carry the local [lastEventTime]. *)
Inductive Step :=
| Continue (s : Simulation) (lastEventTime : Q)
| Done (s : Simulation) (lastEventTime : Q).

#[local] Open Scope sim_scope.

(** The largest length of a JavaScript array, [2^32 - 1]. *)
Definition maxArrayLength : Z := 4294967295.

Section Engine.

  (** The [n]-th value returned by [Math.random()]. *)
Variable random : nat -> Q.
Variable cfg : Config.

  (** The constructor.  [Array(numTrucks)] throws a [RangeError] unless
      the length is an integer from 0 to [maxArrayLength]. *)
Definition newSimulation : option Simulation :=
    if (numTrucks cfg <? 0)%Z || (maxArrayLength <? numTrucks cfg)%Z then None
    else Some (mkSim 0 [] 0 0 0 0 [] [] (newTrucks (Z.to_nat (numTrucks cfg))) 0 0 0).

Definition mathRandom : M Q :=
    rand <- gets (fun s => random (draws s)) ;;
    modify (fun s => set_draws (S (draws s)) s) ;;
    ret rand.

Definition getRandomTime (type : TimeType) : M Q :=
    rand <- mathRandom ;;
    match sampleTable rand (cumProbs cfg type) with
    | Some t => ret t
    | None => throw
    end.

Definition addEvent (event : Event) : M unit :=
    modify (fun s => set_FEL (pushAndSort event (FEL s)) s).

  (** [this.trucks[index].state = st]; a [TypeError] when the element is
      [undefined]. *)
Definition setTruckState (index : Z) (st : TruckState) : M unit :=
    fun s =>
      match arrayIndex index with
      | Some i =>
          match trucks s !! i with
          | Some t => Some (tt, set_trucks (<[ i := mkTruck (id t) st ]> (trucks s)) s)
          | None => None
          end
      | None => None
      end.

  (** [this.loaderQueue.shift()].  On an empty queue [shift] returns
      [undefined], and the statement that uses the result,
      [this.trucks[nextTruckId - 1].state = ...], throws: the exception is
      raised here. *)
Definition shiftLoaderQueue : M Z :=
    fun s =>
      match loaderQueue s with
      | nextTruckId :: rest => Some (nextTruckId, set_loaderQueue rest s)
      | [] => None
      end.

Definition shiftWeigherQueue : M Z :=
    fun s =>
      match weigherQueue s with
      | nextTruckId :: rest => Some (nextTruckId, set_weigherQueue rest s)
      | [] => None
      end.

Definition handleALQ (event : Event) : M unit :=
    setTruckState (truckId event - 1) IN_LQ ;;
    l <- gets L ;;
    if (l <? numLoaders cfg)%Z then
      modify (fun s => set_L (L s + 1)%Z s) ;;
      setTruckState (truckId event - 1) LOADING ;;
      loadTime <- getRandomTime loading ;;
      now <- gets clock ;;
      addEvent (mkEvent (now + loadTime) EL (truckId event))
    else
      modify (fun s => set_LQ (LQ s + 1)%Z s) ;;
      modify (fun s => set_loaderQueue (loaderQueue s ++ [truckId event]) s).

Definition handleEL (event : Event) : M unit :=
    modify (fun s => set_L (L s - 1)%Z s) ;;
    setTruckState (truckId event - 1) IN_WQ ;;
    w <- gets W ;;
    (if (w <? numScales cfg)%Z then
       modify (fun s => set_W (W s + 1)%Z s) ;;
       setTruckState (truckId event - 1) WEIGHING ;;
       weighTime <- getRandomTime weighing ;;
       now <- gets clock ;;
       addEvent (mkEvent (now + weighTime) EW (truckId event))
     else
       modify (fun s => set_WQ (WQ s + 1)%Z s) ;;
       modify (fun s => set_weigherQueue (weigherQueue s ++ [truckId event]) s)) ;;
    lq <- gets LQ ;;
    if (0 <? lq)%Z then
      nextTruckId <- shiftLoaderQueue ;;
      modify (fun s => set_LQ (LQ s - 1)%Z s) ;;
      modify (fun s => set_L (L s + 1)%Z s) ;;
      setTruckState (nextTruckId - 1) LOADING ;;
      loadTime <- getRandomTime loading ;;
      now <- gets clock ;;
      addEvent (mkEvent (now + loadTime) EL nextTruckId)
    else ret tt.

Definition handleEW (event : Event) : M unit :=
    modify (fun s => set_W (W s - 1)%Z s) ;;
    setTruckState (truckId event - 1) TRAVELING ;;
    travelTime <- getRandomTime travel ;;
    now <- gets clock ;;
    addEvent (mkEvent (now + travelTime) ALQ (truckId event)) ;;
    wq <- gets WQ ;;
    if (0 <? wq)%Z then
      nextTruckId <- shiftWeigherQueue ;;
      modify (fun s => set_WQ (WQ s - 1)%Z s) ;;
      modify (fun s => set_W (W s + 1)%Z s) ;;
      setTruckState (nextTruckId - 1) WEIGHING ;;
      weighTime <- getRandomTime weighing ;;
      now <- gets clock ;;
      addEvent (mkEvent (now + weighTime) EW nextTruckId)
    else ret tt.

  (** The [switch (event.type)] of [run]. *)
Definition dispatch (event : Event) : M unit :=
    match type event with
    | ALQ => handleALQ event
    | EL => handleEL event
    | EW => handleEW event
    end.

  (** One truck of the problem-specific [for (let i = 0; i < 5; i++)]. *)
Definition placeAtLoader (truckId : Z) : M unit :=
    l <- gets L ;;
    if (l <? numLoaders cfg)%Z then
      modify (fun s => set_L (L s + 1)%Z s) ;;
      setTruckState (truckId - 1) LOADING ;;
      loadTime <- getRandomTime loading ;;
      now <- gets clock ;;
      addEvent (mkEvent (now + loadTime) EL truckId)
    else
      modify (fun s => set_LQ (LQ s + 1)%Z s) ;;
      modify (fun s => set_loaderQueue (loaderQueue s ++ [truckId]) s) ;;
      setTruckState (truckId - 1) IN_LQ.

  (** [n] iterations of that loop; the result is the local [truckId]
      after them. *)
Fixpoint placeAtLoaders (n : nat) (truckId : Z) : M Z :=
    match n with
    | O => ret truckId
    | S n' => placeAtLoader truckId ;; placeAtLoaders n' (truckId + 1)%Z
    end.

Definition placeAtScale (truckId : Z) : M unit :=
    w <- gets W ;;
    if (w <? numScales cfg)%Z then
      modify (fun s => set_W (W s + 1)%Z s) ;;
      setTruckState (truckId - 1) WEIGHING ;;
      weighTime <- getRandomTime weighing ;;
      now <- gets clock ;;
      addEvent (mkEvent (now + weighTime) EW truckId)
    else
      modify (fun s => set_WQ (WQ s + 1)%Z s) ;;
      modify (fun s => set_weigherQueue (weigherQueue s ++ [truckId]) s) ;;
      setTruckState (truckId - 1) IN_WQ.

  (** [for (let i = 1; i <= this.numTrucks; i++) addEvent({ time: 0, type: 'ALQ', truckId: i })],
      over the identifiers still to be scheduled. *)
Fixpoint scheduleArrivals (ids : list Z) : M unit :=
    match ids with
    | [] => ret tt
    | i :: rest => addEvent (mkEvent 0 ALQ i) ;; scheduleArrivals rest
    end.

  (** [1, 2, ..., numTrucks] *)
Definition truckIds : list Z :=
    map (fun i => Z.of_nat i + 1)%Z (seq 0 (Z.to_nat (numTrucks cfg))).

Definition isProblemSpecific : bool :=
    (numTrucks cfg =? 6)%Z && (numLoaders cfg =? 2)%Z && (numScales cfg =? 1)%Z.

Definition init : M unit :=
    if isProblemSpecific then
      truckId <- placeAtLoaders 5 1 ;;
      placeAtScale truckId
    else
      scheduleArrivals truckIds.

  (** One evaluation of [while (this.FEL.length > 0) { ... }]. *)
Definition loopBody (s : Simulation) (lastEventTime : Q) : option Step :=
    match FEL s with
    | [] => Some (Done s lastEventTime)
    | event :: rest =>
        let s := set_FEL rest s in
        if Qgtb (time event) (maxSimTime cfg) then
          Some (Done (set_clock (maxSimTime cfg) s) lastEventTime)
        else
          let timeDelta := time event - lastEventTime in
          let s := set_loaderBusyTime (loaderBusyTime s + inject_Z (L s) * timeDelta) s in
          let s := set_scaleBusyTime (scaleBusyTime s + inject_Z (W s) * timeDelta) s in
          let s := set_clock (time event) s in
          let lastEventTime := clock s in
          match dispatch event s with
          | Some (_, s') => Some (Continue s' lastEventTime)
          | None => None
          end
    end.

Fixpoint loop (fuel : nat) (s : Simulation) (lastEventTime : Q)
    : Outcome (Simulation * Q) :=
    match fuel with
    | O => OutOfFuel
    | S fuel' =>
        match loopBody s lastEventTime with
        | Some (Continue s' lastEventTime') => loop fuel' s' lastEventTime'
        | Some (Done s' lastEventTime') => Finished (s', lastEventTime')
        | None => Threw
        end
    end.

  (** The update after the loop, guarded by [timeDelta > 0]. *)
Definition finalUpdate (s : Simulation) (lastEventTime : Q) : Simulation :=
    let timeDelta := clock s - lastEventTime in
    if Qgtb timeDelta 0 then
      let s := set_loaderBusyTime (loaderBusyTime s + inject_Z (L s) * timeDelta) s in
      set_scaleBusyTime (scaleBusyTime s + inject_Z (W s) * timeDelta) s
    else s.

Definition getFinalStats (s : Simulation) : FinalStats :=
    let totalLoaderAvailableTime := inject_Z (numLoaders cfg) * clock s in
    let totalScaleAvailableTime := inject_Z (numScales cfg) * clock s in
    let loaderUtilization :=
      if Qgtb totalLoaderAvailableTime 0
      then (loaderBusyTime s / totalLoaderAvailableTime) * 100
      else 0 in
    let scaleUtilization :=
      if Qgtb totalScaleAvailableTime 0
      then (scaleBusyTime s / totalScaleAvailableTime) * 100
      else 0 in
    mkStats (clock s) loaderUtilization scaleUtilization.

  (** The state in which the loop starts: a fresh object after [init]. *)
Definition initialState : option Simulation :=
    match newSimulation with
    | Some s0 =>
        match init s0 with
        | Some (_, s) => Some s
        | None => None
        end
    | None => None
    end.

  (** [new Simulation(...).run()], with at most [fuel] evaluations of the
      loop. *)
Definition run (fuel : nat) : Outcome FinalStats :=
    match initialState with
    | Some s =>
        match loop fuel s 0 with
        | Finished (s', lastEventTime) =>
            Finished (getFinalStats (finalUpdate s' lastEventTime))
        | Threw => Threw
        | OutOfFuel => OutOfFuel
        end
    | None => Threw
    end.

End Engine.

#[local] Close Scope sim_scope.

(** ** Vocabulary of the statements *)

(** [FirstQualifying r table e]: [e] is the first entry of [table], in
    order, with [r <= e.cum_prob]. *)
Definition FirstQualifying (r : Q) (table : list Cum.entry) (e : Cum.entry) : Prop :=
  exists pre post,
    table = pre ++ e :: post /\
    Forall (fun x => ~ r <= Cum.cum_prob x) pre /\
    r <= Cum.cum_prob e.

Definition NoneQualifies (r : Q) (table : list Cum.entry) : Prop :=
  Forall (fun x => ~ r <= Cum.cum_prob x) table.

(** The table of the specification's sampler-coverage property. *)
Definition coverageTable : list Cum.entry :=
  [Cum.mk 5 0.3; Cum.mk 10 0.8; Cum.mk 15 1].

Definition coverageConfig : Config := mkConfig 1 1 1 100 (fun _ => coverageTable).

Definition freshState : Simulation := mkSim 0 [] 0 0 0 0 [] [] [] 0 0 0.


(** The entries appended by the loop of [createCumulativeTable] when it
    starts with the running sum [cum_prob]. *)
Fixpoint cumFrom (cum_prob : Q) (dist : list Dist.item) : list Cum.entry :=
  match dist with
  | [] => []
  | item :: rest =>
      Cum.mk (Dist.time item) (fadd cum_prob (Dist.prob item))
        :: cumFrom (fadd cum_prob (Dist.prob item)) rest
  end.

(** The running sum of the probabilities up to and including entry [i]. *)
Definition runningSum (dist : list Dist.item) (i : nat) : Q :=
  totalProb (take (S i) dist).

(** The three conditions under which the specification says that
    construction fails. *)
Definition ClaimedFailure (dist : list Dist.item) : Prop :=
  Exists (fun item => Dist.prob item < 0) dist \/
  dist = [] \/
  0.001 < Qabs (totalProb dist - 1).

(** A distribution with a negative probability whose sum is 1. *)
Definition negativeDist : list Dist.item :=
  [Dist.mk 5 (-1 # 2); Dist.mk 10 (3 # 2)].

(** The same distribution as typed in the textarea. *)
Definition negativeLines : list Line :=
  [Fields [Some 5; Some (-1 # 2)]; Fields [Some 10; Some (3 # 2)]].

(** The loading distribution of the problem statement. *)
Definition loadingDist : list Dist.item :=
  [Dist.mk 5 (double 0.3); Dist.mk 10 (double 0.5); Dist.mk 15 (double 0.2)].

(** ** Vocabulary for the future event list *)

(** The order of the comparator [(a, b) => a.time - b.time]. *)
Definition TimeLe (a b : Event) : Prop := time a <= time b.

Definition eventTypeEqb (a b : EventType) : bool :=
  match a, b with
  | ALQ, ALQ | EL, EL | EW, EW => true
  | _, _ => false
  end.

(** The number of pending events of one type. *)
Fixpoint countType (ty : EventType) (l : list Event) : Z :=
  match l with
  | [] => 0
  | e :: rest => (if eventTypeEqb (type e) ty then 1 else 0) + countType ty rest
  end%Z.

(** ** Runs, reachable states and invariants *)

(** A valid configuration: positive truck count and capacities, with a
    truck count that the constructor accepts as the length of [trucks]. *)
Definition validConfig (cfg : Config) : Prop :=
  (1 <= numTrucks cfg /\ 1 <= numLoaders cfg /\ 1 <= numScales cfg /\
   numTrucks cfg <= maxArrayLength)%Z.

(** Every table of the configuration has an entry, as is the case of the
    tables that [createCumulativeTable] returns. *)
Definition tablesNonEmpty (cfg : Config) : Prop :=
  forall ty, cumProbs cfg ty <> [].

Definition validId (cfg : Config) (i : Z) : Prop := (1 <= i <= numTrucks cfg)%Z.

Section Reachability.

Variable random : nat -> Q.
Variable cfg : Config.

  (** The states at the head of the [while] loop, with the value of the
      local [lastEventTime]: the state after [init], and the state after
      each event-processing step. *)
Inductive Reachable : Simulation -> Q -> Prop :=
  | reach_init s :
      initialState random cfg = Some s -> Reachable s 0
  | reach_step s lastEventTime s' lastEventTime' :
      Reachable s lastEventTime ->
      loopBody random cfg s lastEventTime = Some (Continue s' lastEventTime') ->
      Reachable s' lastEventTime'.

  (** Every state of a run at a stable point: the loop-head states, the
      state in which the loop is left, and the state after the final
      update of the accumulators. *)
Inductive Visited : Simulation -> Prop :=
  | visited_head s lastEventTime :
      Reachable s lastEventTime -> Visited s
  | visited_exit s lastEventTime s' lastEventTime' :
      Reachable s lastEventTime ->
      loopBody random cfg s lastEventTime = Some (Done s' lastEventTime') ->
      Visited s'
  | visited_final s lastEventTime s' lastEventTime' :
      Reachable s lastEventTime ->
      loopBody random cfg s lastEventTime = Some (Done s' lastEventTime') ->
      Visited (finalUpdate s' lastEventTime').

  (** The part of the invariant that concerns the counters, the queues
      and the truck array. *)
Record ResourceInv (s : Simulation) : Prop := {
    cap_L : (L s <= numLoaders cfg)%Z;
    cap_W : (W s <= numScales cfg)%Z;
    busy_L : (0 < LQ s -> L s = numLoaders cfg)%Z;
    busy_W : (0 < WQ s -> W s = numScales cfg)%Z;
    len_LQ : LQ s = Z.of_nat (length (loaderQueue s));
    len_WQ : WQ s = Z.of_nat (length (weigherQueue s));
    len_trucks : Z.of_nat (length (trucks s)) = numTrucks cfg;
    ids_LQ : Forall (validId cfg) (loaderQueue s);
    ids_WQ : Forall (validId cfg) (weigherQueue s)
  }.

  (** The part that relates the counters to a list [fel] of pending
      events: a busy loader is a pending [EL], a busy scale a pending
      [EW], and every truck is in a queue or has exactly one pending
      event. *)
Record EventInvOn (fel : list Event) (s : Simulation) : Prop := {
    ids_FEL : Forall (fun e => validId cfg (truckId e)) fel;
    sorted_FEL : StronglySorted TimeLe fel;
    events_L : L s = countType EL fel;
    events_W : W s = countType EW fel;
    tokens : (Z.of_nat (length fel) + LQ s + WQ s = numTrucks cfg)%Z
  }.

Definition EventInv (s : Simulation) : Prop := EventInvOn (FEL s) s.

End Reachability.

(** The state after the general initialisation: every truck is [IDLE] and
    has its arrival pending at time 0, in the order of the identifiers. *)
Definition generalStart (cfg : Config) : Simulation :=
  mkSim 0 (map (mkEvent 0 ALQ) (truckIds cfg)) 0 0 0 0 [] []
        (newTrucks (Z.to_nat (numTrucks cfg))) 0 0 0.

(** The state after the problem-specific initialisation, for the three
    sampled service times: trucks 1 and 2 load, 3 to 5 wait for a loader,
    truck 6 is on the scale. *)
Definition specificStart (t1 t2 t3 : Q) : Simulation :=
  mkSim 0
        (pushAndSort (mkEvent (0 + t3) EW 6)
           (pushAndSort (mkEvent (0 + t2) EL 2)
              (pushAndSort (mkEvent (0 + t1) EL 1) [])))
        3 2 0 1 [3; 4; 5]%Z []
        [mkTruck 1 LOADING; mkTruck 2 LOADING; mkTruck 3 IN_LQ;
         mkTruck 4 IN_LQ; mkTruck 5 IN_LQ; mkTruck 6 WEIGHING]
        0 0 3.

(** The loop-head state after [n] event-processing steps, when the run
    gets that far. *)
Fixpoint stateAfter (random : nat -> Q) (cfg : Config) (n : nat)
  : option (Simulation * Q) :=
  match n with
  | O =>
      match initialState random cfg with
      | Some s => Some (s, 0)
      | None => None
      end
  | S n' =>
      match stateAfter random cfg n' with
      | Some (s, lastEventTime) =>
          match loopBody random cfg s lastEventTime with
          | Some (Continue s' lastEventTime') => Some (s', lastEventTime')
          | _ => None
          end
      | None => None
      end
  end.

(** ** Concrete runs used as witnesses *)

(** Single-entry tables: every loading takes [a], every weighing [b],
    every travel [c]. *)
Definition constantTables (a b c : Q) (ty : TimeType) : list Cum.entry :=
  match ty with
  | loading => [Cum.mk a 1]
  | weighing => [Cum.mk b 1]
  | travel => [Cum.mk c 1]
  end.

Definition demoRandom (n : nat) : Q := 1 # 2.

(** Two trucks, one loader, one scale, horizon 100. *)
Definition demoConfig : Config := mkConfig 2 1 1 100 (constantTables 5 12 40).

(** The state of a run after [n] steps ([freshState] if it stops before),
    and the value of [lastEventTime] there. *)
Definition stateOf (random : nat -> Q) (cfg : Config) (n : nat) : Simulation :=
  match stateAfter random cfg n with
  | Some (s, _) => s
  | None => freshState
  end.

Definition lastOf (random : nat -> Q) (cfg : Config) (n : nat) : Q :=
  match stateAfter random cfg n with
  | Some (_, lastEventTime) => lastEventTime
  | None => 0
  end.

Definition demoState (n : nat) : Simulation := stateOf demoRandom demoConfig n.
Definition demoLast (n : nat) : Q := lastOf demoRandom demoConfig n.

(** The same trucks with the horizon at 3, before the first loading
    ends. *)
Definition shortConfig : Config := mkConfig 2 1 1 3 (constantTables 5 12 40).

(** The update after the loop in the earlier copy of the engine
    (the file without distribution parsing), which has no
    [timeDelta > 0] guard. *)
Definition finalUpdateUnguarded (s : Simulation) (lastEventTime : Q) : Simulation :=
  let timeDelta := clock s - lastEventTime in
  let s := set_loaderBusyTime (loaderBusyTime s + inject_Z (L s) * timeDelta) s in
  set_scaleBusyTime (scaleBusyTime s + inject_Z (W s) * timeDelta) s.

(** ** Vocabulary for the truck phases *)

(** The phase is one of the five phases of the cycle. *)
Definition inCycle (t : Truck) : bool :=
  match state t with
  | IN_LQ | LOADING | IN_WQ | WEIGHING | TRAVELING => true
  | IDLE => false
  end.

Definition isIdle (t : Truck) : bool :=
  match state t with
  | IDLE => true
  | _ => false
  end.

Fixpoint countIf (p : Truck -> bool) (l : list Truck) : Z :=
  match l with
  | [] => 0
  | t :: rest => (if p t then 1 else 0) + countIf p rest
  end%Z.

(** A truck keeps its identifier and does not go back to [IDLE]. *)
Definition advance (t t' : Truck) : Prop :=
  id t' = id t /\ (state t' = IDLE -> state t = IDLE).

Definition TrucksAdvance (l l' : list Truck) : Prop := Forall2 advance l l'.

(** The truck at index [k] is truck [k + 1], and it is [IDLE] only while
    the arrival scheduled for it at time 0 is pending. *)
Record TruckInv (s : Simulation) : Prop := {
  truck_ids : forall k t, trucks s !! k = Some t -> id t = (Z.of_nat k + 1)%Z;
  idle_pending :
    forall k t, trucks s !! k = Some t -> state t = IDLE ->
                In (mkEvent 0 ALQ (Z.of_nat k + 1)) (FEL s)
}.

(** ** Vocabulary for the clock *)

(** No table holds a negative duration. *)
Definition nonNegDurations (cfg : Config) : Prop :=
  forall ty, Forall (fun entry => 0 <= Cum.time entry) (cumProbs cfg ty).

(** Every duration of every table is strictly positive. *)
Definition posDurations (cfg : Config) : Prop :=
  forall ty, Forall (fun entry => 0 < Cum.time entry) (cumProbs cfg ty).

(** The pending events are sorted and none is earlier than the clock. *)
Record TimeInv (s : Simulation) : Prop := {
  fel_sorted : StronglySorted TimeLe (FEL s);
  fel_future : Forall (fun x => clock s <= time x) (FEL s)
}.

(** The event times processed by at most [fuel] evaluations of the loop
    from a loop-head state: the successive values of the clock. *)
Fixpoint eventTimes (random : nat -> Q) (cfg : Config) (fuel : nat)
    (s : Simulation) (lastEventTime : Q) : list Q :=
  match fuel with
  | O => []
  | S fuel' =>
      match loopBody random cfg s lastEventTime with
      | Some (Continue s' lastEventTime') =>
          clock s' :: eventTimes random cfg fuel' s' lastEventTime'
      | _ => []
      end
  end.

Definition eventTimesOfRun (random : nat -> Q) (cfg : Config) (fuel : nat) : list Q :=
  match initialState random cfg with
  | Some s => eventTimes random cfg fuel s 0
  | None => []
  end.

(** One truck whose travel "takes" -100: the text [-100, 1] passes
    [parseDistribution] and [createCumulativeTable]. *)
Definition backwardsConfig : Config := mkConfig 1 1 1 100 (constantTables 5 5 (-100)).

(** ** Vocabulary for the zero-horizon scenario *)

(** The number of pending events that are due at or before time [h]. *)
Fixpoint countDue (h : Q) (fel : list Event) : nat :=
  match fel with
  | [] => O
  | x :: rest => ((if Qle_bool (time x) h then 1 else 0) + countDue h rest)%nat
  end.

(** No pending event is earlier than the horizon, and those due at the
    horizon are arrivals. *)
Definition DueInv (cfg : Config) (s : Simulation) : Prop :=
  Forall (fun x => maxSimTime cfg <= time x /\
                   (time x <= maxSimTime cfg -> type x = ALQ)) (FEL s).

(** One truck, horizon 0, and every service "taking" 0: each of the
    three tables is the text [0, 1]. *)
Definition stuckConfig : Config := mkConfig 1 1 1 0 (constantTables 0 0 0).

(** The three states through which the run of [stuckConfig] cycles, up to
    the number of draws and the phase recorded for the truck. *)
Definition stuckArriving (d : nat) (ph : TruckState) : Simulation :=
  mkSim 0 [mkEvent 0 ALQ 1] 0 0 0 0 [] [] [mkTruck 1 ph] 0 0 d.
Definition stuckLoading (d : nat) : Simulation :=
  mkSim 0 [mkEvent 0 EL 1] 0 1 0 0 [] [] [mkTruck 1 LOADING] 0 0 d.
Definition stuckWeighing (d : nat) : Simulation :=
  mkSim 0 [mkEvent 0 EW 1] 0 0 0 1 [] [] [mkTruck 1 WEIGHING] 0 0 d.

(** The demonstration trucks with the horizon at 0. *)
Definition zeroConfig : Config := mkConfig 2 1 1 0 (constantTables 5 12 40).

(** ** Vocabulary for the parser *)

(** What [parseDistribution] throws at a line taken alone, if anything. *)
Definition lineError (line : Line) : option ErrorKind :=
  match line with
  | Blank => None
  | Fields [Some _; Some prob] =>
      if Qltb prob 0 || Qgtb prob 1 then Some ProbabilityOutOfRange else None
  | Fields _ => Some MalformedDistributionLine
  end.

(** The item that a line contributes: none for a blank line. *)
Definition lineItems (line : Line) : list Dist.item :=
  match line with
  | Fields [Some time; Some prob] => [Dist.mk time prob]
  | _ => []
  end.

Definition isBlank (line : Line) : bool :=
  match line with
  | Blank => true
  | Fields _ => false
  end.

(** A distribution whose decimal probabilities sum to 1, while their
    binary64 running sums pass 1 before the last entry is pinned. *)
Definition driftDist : list Dist.item :=
  [Dist.mk 5 (double 0.34); Dist.mk 10 (double 0.56); Dist.mk 15 (double 0.1);
   Dist.mk 20 0].

(** The three lines of the loading distribution, with a blank line. *)
Definition loadingLines : list Line :=
  [Fields [Some 5; Some (double 0.3)]; Blank; Fields [Some 10; Some (double 0.5)];
   Fields [Some 15; Some (double 0.2)]].

(** ** The caller: [runSimulation] *)

(** What [runSimulation] ends up showing: the statistics, or the message
    of the exception caught by its [catch]: one of the three validation
    errors, or some other exception (a [TypeError] or [RangeError] raised
    inside the engine).  [Hangs] stands for a loop still running when the
    fuel is spent. *)
Inductive Shown :=
| ShowStats (stats : FinalStats)
| ShowError (e : ErrorKind)
| ShowException
| Hangs.

(** The three tables of the [cumProbs] object. *)
Definition tablesOf (l w t : list Cum.entry) (ty : TimeType) : list Cum.entry :=
  match ty with
  | loading => l
  | weighing => w
  | travel => t
  end.

(** The [try] block of [runSimulation], from the values read from the
    form: the four integers (after [parseInt]) and the three texts (after
    the lexing described at [Line]).  The three texts are parsed first,
    then the three tables are built, then the engine runs. *)
Definition runSimulation (random : nat -> Q)
    (numTrucks numLoaders numScales : Z) (maxSimTime : Q)
    (loadingText weighingText travelText : list Line) (fuel : nat) : Shown :=
  match parseDistribution loadingText with
  | Err e => ShowError e
  | Ok loadingDist =>
  match parseDistribution weighingText with
  | Err e => ShowError e
  | Ok weighingDist =>
  match parseDistribution travelText with
  | Err e => ShowError e
  | Ok travelDist =>
  match createCumulativeTable loadingDist with
  | Err e => ShowError e
  | Ok loadingTable =>
  match createCumulativeTable weighingDist with
  | Err e => ShowError e
  | Ok weighingTable =>
  match createCumulativeTable travelDist with
  | Err e => ShowError e
  | Ok travelTable =>
      let cfg := mkConfig numTrucks numLoaders numScales maxSimTime
                   (tablesOf loadingTable weighingTable travelTable) in
      match run random cfg fuel with
      | Finished stats => ShowStats stats
      | Threw => ShowException
      | OutOfFuel => Hangs
      end
  end end end end end end.

(** The distributions of the problem statement, as typed. *)
Definition weighingLines : list Line :=
  [Fields [Some 12; Some (double 0.3)]; Fields [Some 14; Some (double 0.4)];
   Fields [Some 16; Some (double 0.3)]].
Definition travelLines : list Line :=
  [Fields [Some 40; Some (double 0.4)]; Fields [Some 60; Some (double 0.3)];
   Fields [Some 80; Some (double 0.3)]].

(** A loading text summing to 0.95 and a travel text with a malformed
    line. *)
Definition shortLoadingLines : list Line :=
  [Fields [Some 5; Some (double 0.3)]; Fields [Some 10; Some (double 0.5)];
   Fields [Some 15; Some (double 0.15)]].
Definition brokenTravelLines : list Line :=
  [Fields [Some 40; Some (double 0.4)]; Fields [Some 60]].

(** The configuration of the problem statement: six trucks, two loaders,
    one scale. *)
Definition problemConfig : Config := mkConfig 6 2 1 100 (constantTables 5 12 40).

(** ** The earlier copy of the engine *)

(** The hard-coded cumulative tables of the copy without distribution
    parsing. *)
Definition CUM_PROBS (ty : TimeType) : list Cum.entry :=
  match ty with
  | loading => [Cum.mk 5 (double 0.3); Cum.mk 10 (double 0.8); Cum.mk 15 1]
  | weighing => [Cum.mk 12 (double 0.3); Cum.mk 14 (double 0.7); Cum.mk 16 1]
  | travel => [Cum.mk 40 (double 0.4); Cum.mk 60 (double 0.7); Cum.mk 80 1]
  end.

(** [run] of that copy on given tables: the methods are those of the
    later copy, except that the update after the loop is not guarded. *)
Definition runUnguarded (random : nat -> Q) (cfg : Config) (fuel : nat)
  : Outcome FinalStats :=
  match initialState random cfg with
  | Some s =>
      match loop random cfg fuel s 0 with
      | Finished (s', lastEventTime) =>
          Finished (getFinalStats cfg (finalUpdateUnguarded s' lastEventTime))
      | Threw => Threw
      | OutOfFuel => OutOfFuel
      end
  | None => Threw
  end.

(** [new Simulation(numTrucks, numLoaders, numScales, maxSimTime).run()]
    of the earlier copy, whose [getRandomTime] reads [CUM_PROBS]. *)
Definition runEarlier (random : nat -> Q)
    (numTrucks numLoaders numScales : Z) (maxSimTime : Q) (fuel : nat)
  : Outcome FinalStats :=
  runUnguarded random (mkConfig numTrucks numLoaders numScales maxSimTime CUM_PROBS) fuel.

(** Two results of [run] that agree: the same way of ending and, for
    statistics, the same total time and equal utilizations. *)
Definition sameOutcome (a b : Outcome FinalStats) : Prop :=
  match a, b with
  | Finished x, Finished y =>
      totalTime x = totalTime y /\
      loaderUtilization x == loaderUtilization y /\
      scaleUtilization x == scaleUtilization y
  | Threw, Threw => True
  | OutOfFuel, OutOfFuel => True
  | _, _ => False
  end.

(** ** Vocabulary for termination *)

(** Every duration of every table is at least [d]. *)
Definition durationsAtLeast (d : Q) (cfg : Config) : Prop :=
  forall ty, Forall (fun entry => d <= Cum.time entry) (cumProbs cfg ty).

(** The smaller of two rationals. *)
Definition Qsmaller (a b : Q) : Q := if Qle_bool a b then a else b.

(** The smallest duration of a table, or [d] if it is smaller. *)
Definition tableMin (d : Q) (table : list Cum.entry) : Q :=
  fold_right (fun entry m => Qsmaller (Cum.time entry) m) d table.

(** A lower bound of all the durations of the configuration. *)
Definition minDuration (cfg : Config) : Q :=
  tableMin (tableMin (tableMin 1 (cumProbs cfg loading)) (cumProbs cfg weighing))
           (cumProbs cfg travel).

(** How many steps of length [d] fit between [t] and the horizon [h],
    plus one: 0 only for times beyond the horizon. *)
Definition level (h d t : Q) : nat := Z.to_nat (Qfloor ((h - t) / d) + 1).

(** A measure of the work left: an event weighs [3 ^ level]. *)
Fixpoint potential (h d : Q) (fel : list Event) : nat :=
  match fel with
  | [] => O
  | x :: rest => (3 ^ level h d (time x) + potential h d rest)%nat
  end.

(** ** Vocabulary for the identity of the trucks *)

(** Where the trucks are: the identifiers of the pending events, then
    those of the loader queue, then those of the scale queue. *)
Definition places (s : Simulation) : list Z :=
  map truckId (FEL s) ++ loaderQueue s ++ weigherQueue s.

(** The number of occurrences of [j] in a list of identifiers. *)
Fixpoint countId (j : Z) (l : list Z) : nat :=
  match l with
  | [] => O
  | x :: rest => ((if (x =? j)%Z then 1 else 0) + countId j rest)%nat
  end.

(** The phase recorded for truck [i], read as the handlers read it:
    [this.trucks[i - 1].state]. *)
Definition phaseIn (l : list Truck) (i : Z) : option TruckState :=
  match arrayIndex (i - 1) with
  | Some k => option_map state (l !! k)
  | None => None
  end.

(** The phase a truck has while an event of it is pending: an arrival is
    pending for a truck that has not started yet or is travelling, an
    end of loading for a truck that loads, an end of weighing for a truck
    on a scale. *)
Definition eventPhase (l : list Truck) (x : Event) : Prop :=
  match type x with
  | ALQ => phaseIn l (truckId x) = Some IDLE \/ phaseIn l (truckId x) = Some TRAVELING
  | EL => phaseIn l (truckId x) = Some LOADING
  | EW => phaseIn l (truckId x) = Some WEIGHING
  end.

(** The phases agree with the places. *)
Record PhaseInv (s : Simulation) : Prop := {
  phase_events : Forall (eventPhase (trucks s)) (FEL s);
  phase_loaderQueue : Forall (fun i => phaseIn (trucks s) i = Some IN_LQ) (loaderQueue s);
  phase_weigherQueue : Forall (fun i => phaseIn (trucks s) i = Some IN_WQ) (weigherQueue s)
}.

(** An event of type [ty] is pending for truck [i]. *)
Definition pendingFor (ty : EventType) (i : Z) (fel : list Event) : Prop :=
  exists x, In x fel /\ type x = ty /\ truckId x = i.

(** The place in which a truck of phase [st] is to be found. *)
Definition placeOfPhase (s : Simulation) (i : Z) (st : TruckState) : Prop :=
  match st with
  | IDLE | TRAVELING => pendingFor ALQ i (FEL s)
  | LOADING => pendingFor EL i (FEL s)
  | WEIGHING => pendingFor EW i (FEL s)
  | IN_LQ => In i (loaderQueue s)
  | IN_WQ => In i (weigherQueue s)
  end.

(** ** Vocabulary for the accumulators *)

(** The earlier copy constructed with six trucks, two loaders, one scale
    and the horizon -10: [new Simulation(6, 2, 1, -10)]. *)
Definition negativeHorizon : Config := mkConfig 6 2 1 (-10) CUM_PROBS.

(** The time-weighted integral of a busy count over the first [n] steps
    of a run, in the words of the specification: for each processed
    event, the count that held before the event times the time elapsed
    since the previous event (since time 0 for the first). *)
Fixpoint busyIntegral (count : Simulation -> Z)
    (random : nat -> Q) (cfg : Config) (n : nat) : Q :=
  match n with
  | O => 0
  | S k =>
      busyIntegral count random cfg k
      + inject_Z (count (stateOf random cfg k))
        * (clock (stateOf random cfg (S k)) - clock (stateOf random cfg k))
  end.

(** ** Vocabulary for runs whose additions are exact *)

Definition isInteger (q : Q) : Prop := exists z, q == inject_Z z.

(** Every duration of every table is an integer between 1 and [d]. *)
Definition intDurations (d : Z) (cfg : Config) : Prop :=
  forall ty,
    Forall (fun entry => exists z, Cum.time entry == inject_Z z /\ (1 <= z <= d)%Z)
           (cumProbs cfg ty).

(** The clock and the times of the pending events are integers. *)
Record IntInv (s : Simulation) : Prop := {
  int_clock : isInteger (clock s);
  int_events : Forall (fun x => isInteger (time x)) (FEL s)
}.

(** * Properties *)

(** ** Comparisons *)

Lemma Qgtb_true (a b : Q) : Qgtb a b = true <-> b < a.
Proof.
  unfold Qgtb. rewrite negb_true_iff, <- not_true_iff_false, Qle_bool_iff.
  split; intros H; [ apply Qnot_le_lt; exact H | apply Qlt_not_le; exact H ].
Qed.

Lemma Qgtb_false (a b : Q) : Qgtb a b = false <-> a <= b.
Proof.
  unfold Qgtb. rewrite negb_false_iff, Qle_bool_iff. reflexivity.
Qed.

Lemma Qltb_true (a b : Q) : Qltb a b = true <-> a < b.
Proof. unfold Qltb. apply (Qgtb_true b a). Qed.

Lemma Qltb_false (a b : Q) : Qltb a b = false <-> b <= a.
Proof. unfold Qltb. apply (Qgtb_false b a). Qed.


(** ** The sampler *)

Lemma scanTable_Some (r : Q) (table : list Cum.entry) (t : Q) :
  scanTable r table = Some t ->
  exists e, FirstQualifying r table e /\ t = Cum.time e.
Proof.
  induction table as [|x rest IH]; simpl; [discriminate|].
  destruct (Qle_bool r (Cum.cum_prob x)) eqn:Hx.
  - intros [= <-]. exists x. split; [|reflexivity].
    exists [], rest. repeat split; [constructor | now apply Qle_bool_iff].
  - intros Hs. destruct (IH Hs) as (e & (pre & post & -> & Hpre & He) & ->).
    exists e. split; [|reflexivity].
    exists (x :: pre), post. repeat split; [|exact He].
    constructor; [|exact Hpre].
    rewrite <- Qle_bool_iff, Hx. discriminate.
Qed.

Lemma scanTable_None (r : Q) (table : list Cum.entry) :
  scanTable r table = None -> NoneQualifies r table.
Proof.
  induction table as [|x rest IH]; simpl; intros Hs; [constructor|].
  destruct (Qle_bool r (Cum.cum_prob x)) eqn:Hx; [discriminate|].
  constructor; [|now apply IH].
  rewrite <- Qle_bool_iff, Hx. discriminate.
Qed.

Lemma last_is_Some {A} (l : list A) : l <> [] -> exists x, last l = Some x.
Proof.
  intros Hl. destruct (last l) as [x|] eqn:E; [now exists x|].
  apply last_None in E. contradiction.
Qed.

Lemma last_In {A} (l : list A) (x : A) : last l = Some x -> In x l.
Proof.
  intros H. apply last_Some in H as [l' ->]. apply in_or_app. right. now left.
Qed.

(** C6. For a non-empty cumulative table and any draw [r] (in particular
    any [r] in [0, 1)), the sampler returns a value: the time of the first
    entry, in table order, whose cumulative probability is [>= r], or,
    when no entry qualifies, the time of the last entry; the value is the
    time of some entry of the table.  [getRandomTime] returns that value
    for the fresh draw [random (draws s)] and only counts the draw. *)
Theorem sample_first_qualifying_or_last
    (random : nat -> Q) (cfg : Config) (ty : TimeType) (s : Simulation) :
  cumProbs cfg ty <> [] ->
  let table := cumProbs cfg ty in
  let r := random (draws s) in
  exists v,
    sampleTable r table = Some v /\
    getRandomTime random cfg ty s = Some (v, set_draws (S (draws s)) s) /\
    ((exists e, FirstQualifying r table e /\ v = Cum.time e) \/
     (NoneQualifies r table /\ exists e, last table = Some e /\ v = Cum.time e)) /\
    In v (map Cum.time table).
Proof.
  intros Hne table r.
  assert (Hs : exists v, sampleTable r table = Some v /\
     ((exists e, FirstQualifying r table e /\ v = Cum.time e) \/
      (NoneQualifies r table /\ exists e, last table = Some e /\ v = Cum.time e))).
  { unfold sampleTable. destruct (scanTable r table) as [t|] eqn:Hscan.
    - exists t. split; [reflexivity|]. left. now apply scanTable_Some.
    - destruct (last_is_Some table Hne) as [e He].
      exists (Cum.time e). split; [unfold lastTime; now rewrite He|].
      right. split; [now apply scanTable_None|]. now exists e. }
  destruct Hs as (v & Hv & Hcase). exists v. repeat split; try assumption.
  - unfold getRandomTime, mathRandom, bind, gets, modify, ret. simpl.
    fold r table. now rewrite Hv.
  - destruct Hcase as [(e & (pre & post & Ht & _ & _) & ->) | (_ & e & He & ->)].
    + apply in_map. rewrite Ht. apply in_or_app. right. now left.
    + apply in_map. now apply last_In.
Qed.

Lemma sample_first_qualifying_or_last_witness :
  exists v,
    sampleTable 0.5 coverageTable = Some v /\
    getRandomTime (fun _ => 0.5) coverageConfig loading freshState
      = Some (v, set_draws 1 freshState) /\
    ((exists e, FirstQualifying 0.5 coverageTable e /\ v = Cum.time e) \/
     (NoneQualifies 0.5 coverageTable /\
      exists e, last coverageTable = Some e /\ v = Cum.time e)) /\
    In v (map Cum.time coverageTable).
Proof.
  apply (sample_first_qualifying_or_last (fun _ => 0.5) coverageConfig loading freshState).
  simpl. discriminate.
Defined.

Example sample_coverage_middle : sampleTable 0.5 coverageTable = Some 10.
Proof. reflexivity. Qed.

Example sample_fallback : sampleTable 2 coverageTable = Some 15.
Proof. reflexivity. Qed.

(** ** Construction of cumulative tables *)

Lemma cumLoop_eq (dist : list Dist.item) (c : Q) (tbl : list Cum.entry) :
  cumLoop dist c tbl
  = (fold_left (fun sum item => fadd sum (Dist.prob item)) dist c, tbl ++ cumFrom c dist).
Proof.
  revert c tbl. induction dist as [|item rest IH]; intros c tbl.
  - simpl. now rewrite app_nil_r.
  - change (cumLoop (item :: rest) c tbl)
      with (cumLoop rest (fadd c (Dist.prob item))
              (tbl ++ [Cum.mk (Dist.time item) (fadd c (Dist.prob item))])).
    rewrite IH, <- app_assoc. reflexivity.
Qed.

Lemma cumFrom_length (c : Q) (dist : list Dist.item) :
  length (cumFrom c dist) = length dist.
Proof.
  revert c. induction dist as [|item rest IH]; intros c; simpl; [|rewrite IH]; reflexivity.
Qed.

Lemma cumFrom_lookup (dist : list Dist.item) (c : Q) (i : nat) (item : Dist.item) :
  dist !! i = Some item ->
  cumFrom c dist !! i
  = Some (Cum.mk (Dist.time item)
            (fold_left (fun sum item => fadd sum (Dist.prob item)) (take (S i) dist) c)).
Proof.
  revert c i. induction dist as [|x rest IH]; intros c i; [discriminate|].
  destruct i as [|i]; simpl.
  - intros [= ->]. reflexivity.
  - intros H. now rewrite (IH _ _ H).
Qed.

Lemma pinLast_length (tbl : list Cum.entry) : length (pinLast tbl) = length tbl.
Proof.
  unfold pinLast. destruct (last tbl); [apply length_insert | reflexivity].
Qed.

Lemma pinLast_lookup_before (tbl : list Cum.entry) (i : nat) :
  (S i < length tbl)%nat -> pinLast tbl !! i = tbl !! i.
Proof.
  intros Hi. unfold pinLast. destruct (last tbl); [|reflexivity].
  apply list_lookup_insert_ne. lia.
Qed.

Lemma pinLast_lookup_last (tbl : list Cum.entry) (e : Cum.entry) :
  tbl !! pred (length tbl) = Some e ->
  pinLast tbl !! pred (length tbl) = Some (Cum.mk (Cum.time e) 1).
Proof.
  intros He. unfold pinLast. rewrite last_lookup, He.
  apply list_lookup_insert_eq. apply lookup_lt_Some in He. exact He.
Qed.

Lemma createCumulativeTable_Err_iff (dist : list Dist.item) :
  createCumulativeTable dist = Err InvalidDistribution
  <-> tolerance < Qabs (fsub (totalProb dist) 1).
Proof.
  unfold createCumulativeTable.
  destruct (Qgtb (Qabs (fsub (totalProb dist) 1)) tolerance) eqn:E.
  - apply Qgtb_true in E. split; [intros _; exact E | reflexivity].
  - apply Qgtb_false in E. split; [discriminate|].
    intros H. exfalso. apply (Qlt_not_le _ _ H). exact E.
Qed.

Lemma round64_compat (a b : Q) : a == b -> round64 a = round64 b.
Proof. intros H. unfold round64. now rewrite (Qred_complete _ _ H). Qed.

Lemma isInfinite_compat (a b : Q) : a == b -> isInfinite a = isInfinite b.
Proof.
  intros H. unfold isInfinite.
  destruct (Qle_bool infinity (Qabs a)) eqn:Ea;
    destruct (Qle_bool infinity (Qabs b)) eqn:Eb; try reflexivity.
  - apply Qle_bool_iff in Ea. rewrite H in Ea. apply Qle_bool_iff in Ea. congruence.
  - apply Qle_bool_iff in Eb. rewrite <- H in Eb. apply Qle_bool_iff in Eb. congruence.
Qed.

(** A distribution whose sum is exactly 1 is accepted. *)
Lemma createCumulativeTable_sum_one (dist : list Dist.item) :
  totalProb dist == 1 -> exists tbl, createCumulativeTable dist = Ok tbl.
Proof.
  intros H.
  assert (Hsub : fsub (totalProb dist) 1 = 0).
  { unfold fsub, fadd.
    replace (isInfinite (totalProb dist)) with false
      by (rewrite (isInfinite_compat (totalProb dist) 1 H); reflexivity).
    assert (H0 : totalProb dist + - (1) == 0) by (rewrite H; reflexivity).
    rewrite (round64_compat _ 0 H0). reflexivity. }
  unfold createCumulativeTable. rewrite Hsub.
  replace (Qgtb (Qabs 0) tolerance) with false by (vm_compute; reflexivity).
  eexists. reflexivity.
Qed.

Lemma parseDistribution_range (lines : list Line) (dist : list Dist.item) :
  parseDistribution lines = Ok dist ->
  Forall (fun item => 0 <= Dist.prob item /\ Dist.prob item <= 1) dist.
Proof.
  revert dist. induction lines as [|line rest IH]; intros dist; simpl.
  - intros [= <-]. constructor.
  - destruct line as [|parts]; [apply IH|].
    destruct parts as [|[t|] [|[p|] [|? ?]]]; try discriminate.
    destruct (Qltb p 0) eqn:Hlo; [discriminate|].
    destruct (Qgtb p 1) eqn:Hhi; [discriminate|]. simpl.
    destruct (parseDistribution rest) as [d|e]; [|discriminate].
    intros [= <-]. constructor; [|now apply IH].
    simpl. split; [now apply Qltb_false | now apply Qgtb_false].
Qed.

(** C7 (as amended). [createCumulativeTable] throws exactly when the sum
    of the probabilities deviates from 1 by more than 0.001, and what it
    throws is the invalid-distribution error; the empty list fails for
    that reason.  The sum is the one the code computes: the binary64 sum
    accumulated from left to right, compared through
    [Math.abs(totalProb - 1.0) > 0.001] in binary64.  A negative
    probability is not a cause of failure of the construction: the parser
    is what rejects it, every distribution that [parseDistribution]
    returns has its probabilities in [0, 1].  A distribution whose sum
    is exactly 1 is accepted.  When the construction
    succeeds the table has the length of the distribution, entry [i] has
    the time of item [i], every entry before the last holds the running
    binary64 sum of the probabilities up to and including it, and the
    last entry is exactly 1; on a distribution whose sum is exactly 1 the
    last entry, too, is its running sum. *)
Theorem createCumulativeTable_characterised :
  (forall dist,
     createCumulativeTable dist = Err InvalidDistribution
     <-> tolerance < Qabs (fsub (totalProb dist) 1)) /\
  (forall dist e, createCumulativeTable dist = Err e -> e = InvalidDistribution) /\
  createCumulativeTable [] = Err InvalidDistribution /\
  (forall lines dist,
     parseDistribution lines = Ok dist ->
     Forall (fun item => 0 <= Dist.prob item /\ Dist.prob item <= 1) dist) /\
  (forall dist, totalProb dist == 1 -> exists tbl, createCumulativeTable dist = Ok tbl) /\
  (forall dist tbl,
     createCumulativeTable dist = Ok tbl ->
     length tbl = length dist /\
     (forall i item,
        dist !! i = Some item ->
        exists e, tbl !! i = Some e /\
                  Cum.time e = Dist.time item /\
                  ((S i < length dist)%nat \/ totalProb dist == 1 ->
                   Cum.cum_prob e == runningSum dist i)) /\
     (exists e, last tbl = Some e /\ Cum.cum_prob e = 1)).
Proof.
  split; [exact createCumulativeTable_Err_iff|].
  split.
  { intros dist e. unfold createCumulativeTable.
    destruct (Qgtb _ _); [now intros [= <-] | discriminate]. }
  split; [vm_compute; reflexivity|].
  split; [exact parseDistribution_range|].
  split; [exact createCumulativeTable_sum_one|].
  intros dist tbl Hok.
  assert (Hne : dist <> []).
  { intros ->. vm_compute in Hok. discriminate. }
  unfold createCumulativeTable in Hok.
  destruct (Qgtb _ _); [discriminate|]. injection Hok as <-.
  rewrite cumLoop_eq. simpl.
  assert (Hlen : length (cumFrom 0 dist) = length dist) by apply cumFrom_length.
  split; [now rewrite pinLast_length|].
  split.
  - intros i item Hi.
    pose proof (cumFrom_lookup dist 0 i item Hi) as Hc.
    pose proof (lookup_lt_Some _ _ _ Hi) as Hlt.
    destruct (decide (S i = length dist)) as [Hlast|Hnot].
    + assert (Hp : pred (length (cumFrom 0 dist)) = i) by lia.
      rewrite <- Hp in Hc. apply pinLast_lookup_last in Hc. rewrite Hp in Hc.
      eexists. split; [exact Hc|]. split; [reflexivity|]. simpl.
      intros [Hlt' | Hsum]; [lia|].
      unfold runningSum. rewrite Hlast, firstn_all. symmetry. exact Hsum.
    + eexists. split; [rewrite pinLast_lookup_before by lia; exact Hc|].
      split; [reflexivity|]. intros _. reflexivity.
  - destruct dist as [|x rest]; [contradiction|].
    destruct (lookup_lt_is_Some_2 (x :: rest) (pred (length (x :: rest))))
      as [item Hi]; [simpl; lia|].
    pose proof (cumFrom_lookup _ 0 _ _ Hi) as Hc.
    rewrite <- Hlen in Hc. apply pinLast_lookup_last in Hc.
    eexists. split; [rewrite last_lookup, pinLast_length; exact Hc|].
    reflexivity.
Qed.

Lemma createCumulativeTable_characterised_witness :
  length (pinLast (cumFrom 0 loadingDist)) = length loadingDist /\
  (forall i item,
     loadingDist !! i = Some item ->
     exists e, pinLast (cumFrom 0 loadingDist) !! i = Some e /\
               Cum.time e = Dist.time item /\
               ((S i < length loadingDist)%nat \/ totalProb loadingDist == 1 ->
                Cum.cum_prob e == runningSum loadingDist i)) /\
  (exists e, last (pinLast (cumFrom 0 loadingDist)) = Some e /\ Cum.cum_prob e = 1).
Proof.
  apply (proj2 (proj2 (proj2 (proj2 (proj2 createCumulativeTable_characterised))))
           loadingDist).
  vm_compute. reflexivity.
Defined.

(** C7, counterexample.  A distribution with a negative probability meets
    the stated failure condition, yet the construction succeeds on it; in
    the whole pipeline it is the parser that throws, with the
    out-of-range error. *)
Lemma createCumulativeTable_accepts_negative :
  ClaimedFailure negativeDist /\
  createCumulativeTable negativeDist = Ok [Cum.mk 5 (-1 # 2); Cum.mk 10 1] /\
  loadDistribution negativeLines = Err ProbabilityOutOfRange.
Proof.
  split; [|split; vm_compute; reflexivity].
  left. apply Exists_cons_hd. reflexivity.
Qed.

Example createCumulativeTable_loading :
  createCumulativeTable loadingDist
  = Ok [Cum.mk 5 (double 0.3); Cum.mk 10 (double 0.8); Cum.mk 15 1].
Proof. vm_compute. reflexivity. Qed.

(** A table summing to 0.95 fails construction. *)
Example createCumulativeTable_095 :
  createCumulativeTable
    [Dist.mk 5 (double 0.3); Dist.mk 10 (double 0.5); Dist.mk 15 (double 0.15)]
  = Err InvalidDistribution.
Proof. vm_compute. reflexivity. Qed.

(** The sums are binary64 sums.  The double of [0.999] is more than 0.001
    below 1, so a one-line distribution of probability 0.999 is
    rejected; and adding [5 * 2^-62] to it changes nothing, because the
    sum rounds back to the double of [0.999]. *)
Example createCumulativeTable_0999 :
  createCumulativeTable [Dist.mk 5 (double 0.999)] = Err InvalidDistribution /\
  createCumulativeTable [Dist.mk 5 (double 0.999); Dist.mk 10 (5 # 4611686018427387904)]
  = Err InvalidDistribution /\
  Qabs (double 0.999 + (5 # 4611686018427387904) - 1) < tolerance.
Proof. vm_compute. repeat split; reflexivity. Qed.

(** The running sums of 0.34, 0.56, 0.1 and 0 are 0.34,
    0.9000000000000001 and twice 1.0000000000000002: the distribution is
    accepted, and the entry before the last exceeds the pinned 1. *)
Example createCumulativeTable_drift :
  createCumulativeTable driftDist
  = Ok [Cum.mk 5 (double 0.34); Cum.mk 10 (double 0.9000000000000001);
        Cum.mk 15 (double 1.0000000000000002); Cum.mk 20 1] /\
  1 < double 1.0000000000000002.
Proof. vm_compute. split; reflexivity. Qed.

(** ** The future event list *)

Lemma insertEvent_perm (e : Event) (l : list Event) :
  Permutation (insertEvent e l) (e :: l).
Proof.
  induction l as [|x rest IH]; simpl; [reflexivity|].
  destruct (Qle_bool (time e) (time x)); [reflexivity|].
  rewrite IH. apply perm_swap.
Qed.

Lemma sortByTime_perm (l : list Event) : Permutation (sortByTime l) l.
Proof.
  induction l as [|x rest IH]; simpl; [reflexivity|].
  rewrite insertEvent_perm. now apply perm_skip.
Qed.

Lemma pushAndSort_perm (e : Event) (fel : list Event) :
  Permutation (pushAndSort e fel) (e :: fel).
Proof.
  unfold pushAndSort. rewrite sortByTime_perm.
  symmetry. apply Permutation_cons_append.
Qed.

Lemma insertEvent_sorted (e : Event) (l : list Event) :
  StronglySorted TimeLe l -> StronglySorted TimeLe (insertEvent e l).
Proof.
  induction l as [|x rest IH]; simpl; intros Hs.
  - repeat constructor.
  - apply StronglySorted_inv in Hs as [Hrest Hx].
    destruct (Qle_bool (time e) (time x)) eqn:Hle.
    + apply Qle_bool_iff in Hle. constructor; [now constructor|].
      constructor; [exact Hle|].
      eapply Forall_impl; [exact Hx|].
      intros y Hy. unfold TimeLe in *. now apply Qle_trans with (time x).
    + constructor; [now apply IH|].
      assert (Hxe : TimeLe x e).
      { unfold TimeLe. apply Qlt_le_weak, Qnot_le_lt.
        rewrite <- Qle_bool_iff, Hle. discriminate. }
      rewrite insertEvent_perm. now constructor.
Qed.

Lemma sortByTime_sorted (l : list Event) : StronglySorted TimeLe (sortByTime l).
Proof.
  induction l as [|x rest IH]; simpl; [constructor | now apply insertEvent_sorted].
Qed.

Lemma pushAndSort_sorted (e : Event) (fel : list Event) :
  StronglySorted TimeLe (pushAndSort e fel).
Proof. apply sortByTime_sorted. Qed.

(** Sorting leaves a sorted list as it is: events of equal time keep
    their order. *)
Lemma sortByTime_id (l : list Event) : StronglySorted TimeLe l -> sortByTime l = l.
Proof.
  induction l as [|x rest IH]; simpl; intros Hs; [reflexivity|].
  apply StronglySorted_inv in Hs as [Hrest Hx]. rewrite (IH Hrest).
  destruct rest as [|y rest']; simpl; [reflexivity|].
  apply Forall_inv in Hx. apply Qle_bool_iff in Hx. now rewrite Hx.
Qed.

Lemma pushAndSort_Forall (P : Event -> Prop) (e : Event) (fel : list Event) :
  Forall P (pushAndSort e fel) <-> P e /\ Forall P fel.
Proof.
  rewrite pushAndSort_perm. apply Forall_cons.
Qed.

Lemma pushAndSort_length (e : Event) (fel : list Event) :
  length (pushAndSort e fel) = S (length fel).
Proof. now rewrite (Permutation_length (pushAndSort_perm e fel)). Qed.

Lemma countType_perm (ty : EventType) (l l' : list Event) :
  Permutation l l' -> countType ty l = countType ty l'.
Proof.
  induction 1; simpl; lia.
Qed.

Lemma countType_pushAndSort (ty : EventType) (e : Event) (fel : list Event) :
  countType ty (pushAndSort e fel)
  = ((if eventTypeEqb (type e) ty then 1 else 0) + countType ty fel)%Z.
Proof. now rewrite (countType_perm ty _ _ (pushAndSort_perm e fel)). Qed.

Lemma countType_nonneg (ty : EventType) (l : list Event) : (0 <= countType ty l)%Z.
Proof.
  induction l as [|e rest IH]; simpl; [lia|].
  destruct (eventTypeEqb (type e) ty); lia.
Qed.

Lemma countType_total (l : list Event) :
  (countType ALQ l + countType EL l + countType EW l = Z.of_nat (length l))%Z.
Proof.
  induction l as [|e rest IH]; simpl length; simpl countType; [reflexivity|].
  destruct (type e); simpl; lia.
Qed.

(** ** Inversion of the monadic methods *)

Arguments pushAndSort : simpl never.
Arguments sampleTable : simpl never.
Arguments arrayIndex : simpl never.

Lemma bind_inv {A B} (m : M A) (f : A -> M B) (s : Simulation) (r : B * Simulation) :
  bind m f s = Some r -> exists a s1, m s = Some (a, s1) /\ f a s1 = Some r.
Proof.
  unfold bind. destruct (m s) as [[a s1]|]; [|discriminate].
  intros H. now exists a, s1.
Qed.

Lemma ret_inv {A} (a b : A) (s s' : Simulation) :
  ret a s = Some (b, s') -> b = a /\ s' = s.
Proof. unfold ret. now intros [= <- <-]. Qed.

Lemma gets_inv {A} (f : Simulation -> A) (a : A) (s s' : Simulation) :
  gets f s = Some (a, s') -> a = f s /\ s' = s.
Proof. unfold gets. now intros [= <- <-]. Qed.

Lemma modify_inv (f : Simulation -> Simulation) (u : unit) (s s' : Simulation) :
  modify f s = Some (u, s') -> s' = f s.
Proof. unfold modify. now intros [= <-]. Qed.

Lemma throw_inv {A} (s : Simulation) (r : A * Simulation) : throw s = Some r -> False.
Proof. discriminate. Qed.

Lemma addEvent_inv (event : Event) (u : unit) (s s' : Simulation) :
  addEvent event s = Some (u, s') -> s' = set_FEL (pushAndSort event (FEL s)) s.
Proof. unfold addEvent. intros H. apply modify_inv in H. exact H. Qed.

Lemma setTruckState_inv (index : Z) (st : TruckState) (u : unit) (s s' : Simulation) :
  setTruckState index st s = Some (u, s') ->
  exists i t,
    arrayIndex index = Some i /\ trucks s !! i = Some t /\
    s' = set_trucks (<[ i := mkTruck (id t) st ]> (trucks s)) s.
Proof.
  unfold setTruckState. destruct (arrayIndex index) as [i|]; [|discriminate].
  destruct (trucks s !! i) as [t|] eqn:Ht; [|discriminate].
  intros [= <-]. now exists i, t.
Qed.

Lemma shiftLoaderQueue_inv (next : Z) (s s' : Simulation) :
  shiftLoaderQueue s = Some (next, s') ->
  exists rest, loaderQueue s = next :: rest /\ s' = set_loaderQueue rest s.
Proof.
  unfold shiftLoaderQueue. destruct (loaderQueue s) as [|x rest]; [discriminate|].
  intros [= <- <-]. now exists rest.
Qed.

Lemma shiftWeigherQueue_inv (next : Z) (s s' : Simulation) :
  shiftWeigherQueue s = Some (next, s') ->
  exists rest, weigherQueue s = next :: rest /\ s' = set_weigherQueue rest s.
Proof.
  unfold shiftWeigherQueue. destruct (weigherQueue s) as [|x rest]; [discriminate|].
  intros [= <- <-]. now exists rest.
Qed.

Lemma getRandomTime_inv (random : nat -> Q) (cfg : Config) (ty : TimeType)
    (t : Q) (s s' : Simulation) :
  getRandomTime random cfg ty s = Some (t, s') ->
  sampleTable (random (draws s)) (cumProbs cfg ty) = Some t /\
  s' = set_draws (S (draws s)) s.
Proof.
  unfold getRandomTime, mathRandom, bind, gets, modify, ret, throw. simpl.
  destruct (sampleTable _ _) as [t'|]; [|discriminate].
  now intros [= <- <-].
Qed.

(** Inversion of a successful run of a method: the hypothesis is
    decomposed along the binds and the conditionals of the body, and every
    intermediate state is replaced by its expression. *)
Ltac simpl_state H :=
  cbn [set_clock set_FEL set_LQ set_L set_WQ set_W set_loaderQueue
       set_weigherQueue set_trucks set_loaderBusyTime set_scaleBusyTime
       set_draws clock FEL LQ L WQ W loaderQueue weigherQueue trucks
       loaderBusyTime scaleBusyTime draws] in H.

Ltac inv_run H :=
  simpl_state H;
  lazymatch type of H with
  | bind _ _ _ = Some _ =>
      let a := fresh "a" in
      let s1 := fresh "s" in
      let H1 := fresh "Hrun" in
      apply bind_inv in H; destruct H as (a & s1 & H1 & H);
      inv_run H1; inv_run H
  | ret _ _ = Some _ =>
      apply ret_inv in H; destruct H as [? ?]; subst
  | gets _ _ = Some _ =>
      apply gets_inv in H; destruct H as [? ?]; subst
  | modify _ _ = Some _ =>
      apply modify_inv in H; subst
  | throw _ = Some _ =>
      apply throw_inv in H; contradiction
  | addEvent _ _ = Some _ =>
      apply addEvent_inv in H; subst
  | setTruckState _ _ _ = Some _ =>
      let i := fresh "i" in
      let t := fresh "t" in
      let Hi := fresh "Hidx" in
      let Ht := fresh "Htruck" in
      apply setTruckState_inv in H; destruct H as (i & t & Hi & Ht & H); subst
  | shiftLoaderQueue _ = Some _ =>
      let rest := fresh "rest" in
      let Hq := fresh "Hqueue" in
      apply shiftLoaderQueue_inv in H; destruct H as (rest & Hq & H); subst
  | shiftWeigherQueue _ = Some _ =>
      let rest := fresh "rest" in
      let Hq := fresh "Hqueue" in
      apply shiftWeigherQueue_inv in H; destruct H as (rest & Hq & H); subst
  | getRandomTime _ _ _ _ = Some _ =>
      let Hs := fresh "Hsample" in
      apply getRandomTime_inv in H; destruct H as (Hs & H); subst
  | (if ?b then _ else _) _ = Some _ =>
      let b' := eval cbv in b in
      lazymatch b' with
      | true => change b with true in H; cbv iota in H; inv_run H
      | false => change b with false in H; cbv iota in H; inv_run H
      | _ => let Hb := fresh "Hcond" in destruct b eqn:Hb; inv_run H
      end
  | _ => idtac
  end.

Ltac bool_to_prop :=
  repeat match goal with
         | H : (_ <? _)%Z = true |- _ => apply Z.ltb_lt in H
         | H : (_ <? _)%Z = false |- _ => apply Z.ltb_ge in H
         | H : (_ =? _)%Z = true |- _ => apply Z.eqb_eq in H
         | H : (_ =? _)%Z = false |- _ => apply Z.eqb_neq in H
         end.

(** *** Inversion of a method that throws *)

Lemma bind_None {A B} (m : M A) (f : A -> M B) (s : Simulation) :
  bind m f s = None ->
  m s = None \/ exists a s1, m s = Some (a, s1) /\ f a s1 = None.
Proof.
  unfold bind. destruct (m s) as [[a s1]|]; [|now left].
  intros H. right. now exists a, s1.
Qed.

Lemma setTruckState_None (index : Z) (st : TruckState) (s : Simulation) :
  setTruckState index st s = None ->
  ~ (0 <= index < Z.of_nat (length (trucks s)))%Z.
Proof.
  unfold setTruckState, arrayIndex. intros H Hr.
  destruct (0 <=? index)%Z eqn:E; [|apply Z.leb_gt in E; lia].
  destruct (trucks s !! Z.to_nat index) eqn:Ht; [discriminate|].
  apply lookup_ge_None in Ht. lia.
Qed.

Lemma sampleTable_None (r : Q) (table : list Cum.entry) :
  sampleTable r table = None -> table = [].
Proof.
  unfold sampleTable, lastTime. destruct (scanTable r table); [discriminate|].
  destruct (last table) eqn:E; [discriminate|]. intros _. now apply last_None.
Qed.

Lemma getRandomTime_None (random : nat -> Q) (cfg : Config) (ty : TimeType)
    (s : Simulation) :
  getRandomTime random cfg ty s = None -> cumProbs cfg ty = [].
Proof.
  unfold getRandomTime, mathRandom, bind, gets, modify, ret, throw. simpl.
  destruct (sampleTable _ _) as [t|] eqn:E; [discriminate|].
  intros _. now apply sampleTable_None in E.
Qed.

Lemma shiftLoaderQueue_None (s : Simulation) :
  shiftLoaderQueue s = None -> loaderQueue s = [].
Proof. unfold shiftLoaderQueue. now destruct (loaderQueue s). Qed.

Lemma shiftWeigherQueue_None (s : Simulation) :
  shiftWeigherQueue s = None -> weigherQueue s = [].
Proof. unfold shiftWeigherQueue. now destruct (weigherQueue s). Qed.

(** Inversion of a run that throws: one goal for each statement that can
    throw, with the reason in [H] and the state reached before it. *)
Ltac inv_fail H :=
  simpl_state H;
  lazymatch type of H with
  | bind _ _ _ = None =>
      let a := fresh "a" in
      let s1 := fresh "s" in
      let H1 := fresh "Hrun" in
      apply bind_None in H; destruct H as [H | (a & s1 & H1 & H)];
      [ inv_fail H | inv_run H1; inv_fail H ]
  | ret _ _ = None => discriminate H
  | gets _ _ = None => discriminate H
  | modify _ _ = None => discriminate H
  | addEvent _ _ = None => discriminate H
  | setTruckState _ _ _ = None => apply setTruckState_None in H
  | shiftLoaderQueue _ = None => apply shiftLoaderQueue_None in H
  | shiftWeigherQueue _ = None => apply shiftWeigherQueue_None in H
  | getRandomTime _ _ _ _ = None => apply getRandomTime_None in H
  | (if ?b then _ else _) _ = None =>
      let b' := eval cbv in b in
      lazymatch b' with
      | true => change b with true in H; cbv iota in H; inv_fail H
      | false => change b with false in H; cbv iota in H; inv_fail H
      | _ => let Hb := fresh "Hcond" in destruct b eqn:Hb; inv_fail H
      end
  | _ => idtac
  end.

(** ** Invariants of the engine *)

Section Invariants.

Variable random : nat -> Q.
Variable cfg : Config.

Lemma arrayIndex_valid (i : Z) (n : nat) (k : nat) :
    arrayIndex (i - 1) = Some k -> (k < n)%nat -> (1 <= i <= Z.of_nat n)%Z.
  Proof.
    unfold arrayIndex. destruct (0 <=? i - 1)%Z eqn:E; [|discriminate].
    intros [= <-] Hk. apply Z.leb_le in E. lia.
  Qed.

Lemma arrayIndex_validId (i : Z) (k : nat) (t : Truck) (s : Simulation) :
    Z.of_nat (length (trucks s)) = numTrucks cfg ->
    arrayIndex (i - 1) = Some k -> trucks s !! k = Some t -> validId cfg i.
  Proof.
    intros Hlen Hk Ht. unfold validId. rewrite <- Hlen.
    eapply arrayIndex_valid; [exact Hk|]. eapply lookup_lt_Some, Ht.
  Qed.

Ltac finish_inv :=
    simpl;
    rewrite ?length_insert, ?length_app, ?Forall_app, ?pushAndSort_Forall,
      ?countType_pushAndSort, ?pushAndSort_length, ?Forall_cons, ?Forall_nil;
    simpl;
    repeat match goal with
           | |- _ /\ _ => split
           | |- True => exact I
           | |- StronglySorted TimeLe (pushAndSort _ _) => apply pushAndSort_sorted
           | |- validId _ _ => eapply arrayIndex_validId; eassumption
           end;
    try assumption; try lia.

Lemma handleALQ_inv (e : Event) (s s' : Simulation) :
    type e = ALQ ->
    ResourceInv cfg s -> EventInvOn cfg (e :: FEL s) s ->
    handleALQ random cfg e s = Some (tt, s') ->
    ResourceInv cfg s' /\ EventInv cfg s'.
  Proof.
    intros Hty [] [Hids Hsort HL HW Htok] H. unfold handleALQ in H. inv_run H.
    all: bool_to_prop; simpl in *; rewrite Hty in *; simpl in *.
    all: apply Forall_cons in Hids as [Hid Hids];
      apply StronglySorted_inv in Hsort as [Hsort _].
    all: split; constructor; finish_inv.
  Qed.

Lemma handleEL_inv (e : Event) (s s' : Simulation) :
    type e = EL ->
    ResourceInv cfg s -> EventInvOn cfg (e :: FEL s) s ->
    handleEL random cfg e s = Some (tt, s') ->
    ResourceInv cfg s' /\ EventInv cfg s'.
  Proof.
    intros Hty [] [Hids Hsort HL HW Htok] H. unfold handleEL in H. inv_run H.
    all: bool_to_prop; simpl in *; rewrite Hty in *; simpl in *.
    all: apply Forall_cons in Hids as [Hid Hids];
      apply StronglySorted_inv in Hsort as [Hsort _].
    all: try (rewrite Hqueue in *; simpl in *;
              apply Forall_cons in ids_LQ0 as [Hnext ids_LQ0]).
    all: split; constructor; finish_inv.
  Qed.

Lemma handleEW_inv (e : Event) (s s' : Simulation) :
    type e = EW ->
    ResourceInv cfg s -> EventInvOn cfg (e :: FEL s) s ->
    handleEW random cfg e s = Some (tt, s') ->
    ResourceInv cfg s' /\ EventInv cfg s'.
  Proof.
    intros Hty [] [Hids Hsort HL HW Htok] H. unfold handleEW in H. inv_run H.
    all: bool_to_prop; simpl in *; rewrite Hty in *; simpl in *.
    all: apply Forall_cons in Hids as [Hid Hids];
      apply StronglySorted_inv in Hsort as [Hsort _].
    all: try (rewrite Hqueue in *; simpl in *;
              apply Forall_cons in ids_WQ0 as [Hnext ids_WQ0]).
    all: split; constructor; finish_inv.
  Qed.

Lemma dispatch_inv (e : Event) (s s' : Simulation) :
    ResourceInv cfg s -> EventInvOn cfg (e :: FEL s) s ->
    dispatch random cfg e s = Some (tt, s') ->
    ResourceInv cfg s' /\ EventInv cfg s'.
  Proof.
    intros HR HE H. unfold dispatch in H. destruct (type e) eqn:Hty.
    - now apply (handleALQ_inv e s).
    - now apply (handleEL_inv e s).
    - now apply (handleEW_inv e s).
  Qed.

  (** What an event-processing step does before it dispatches. *)
Lemma loopBody_Continue (s : Simulation) (last : Q) (s' : Simulation) (last' : Q) :
    loopBody random cfg s last = Some (Continue s' last') ->
    exists e rest,
      FEL s = e :: rest /\
      time e <= maxSimTime cfg /\
      last' = time e /\
      dispatch random cfg e
        (set_clock (time e)
           (set_scaleBusyTime (scaleBusyTime s + inject_Z (W s) * (time e - last))
              (set_loaderBusyTime (loaderBusyTime s + inject_Z (L s) * (time e - last))
                 (set_FEL rest s))))
      = Some (tt, s').
  Proof.
    unfold loopBody. destruct (FEL s) as [|e rest]; [discriminate|].
    destruct (Qgtb (time e) (maxSimTime cfg)) eqn:Hh; [discriminate|].
    apply Qgtb_false in Hh. simpl.
    match goal with |- context [dispatch random cfg e ?x] =>
      destruct (dispatch random cfg e x) as [[[] s1]|] eqn:Hd end; [|discriminate].
    intros [= <- <-]. exists e, rest. repeat split; try assumption.
  Qed.

  (** How the loop is left. *)
Lemma loopBody_Done (s : Simulation) (last : Q) (s' : Simulation) (last' : Q) :
    loopBody random cfg s last = Some (Done s' last') ->
    last' = last /\
    ((FEL s = [] /\ s' = s) \/
     (exists e rest,
        FEL s = e :: rest /\ maxSimTime cfg < time e /\
        s' = set_clock (maxSimTime cfg) (set_FEL rest s))).
  Proof.
    unfold loopBody. destruct (FEL s) as [|e rest].
    - intros [= <- <-]. split; [reflexivity|]. now left.
    - destruct (Qgtb (time e) (maxSimTime cfg)) eqn:Hh.
      + apply Qgtb_true in Hh. intros [= <- <-]. split; [reflexivity|].
        right. now exists e, rest.
      + simpl. destruct (dispatch _ _ _ _) as [[[] s1]|]; discriminate.
  Qed.

Lemma loopBody_inv (s : Simulation) (last : Q) (s' : Simulation) (last' : Q) :
    ResourceInv cfg s -> EventInv cfg s ->
    loopBody random cfg s last = Some (Continue s' last') ->
    ResourceInv cfg s' /\ EventInv cfg s'.
  Proof.
    intros HR HE H.
    apply loopBody_Continue in H as (e & rest & Hfel & _ & _ & Hd).
    unfold EventInv in HE. rewrite Hfel in HE.
    eapply dispatch_inv; [ | | exact Hd].
    - destruct HR. constructor; assumption.
    - destruct HE. constructor; assumption.
  Qed.

  (** *** Initialisation *)

Lemma arrivals_sorted (ids : list Z) :
    StronglySorted TimeLe (map (mkEvent 0 ALQ) ids).
  Proof.
    induction ids as [|i rest IH]; simpl; constructor; [exact IH|].
    apply Forall_forall. intros x Hx. apply list_elem_of_In, in_map_iff in Hx as (j & <- & _).
    unfold TimeLe. simpl. apply Qle_refl.
  Qed.

Lemma scheduleArrivals_run (ids done : list Z) (s : Simulation) :
    FEL s = map (mkEvent 0 ALQ) done ->
    scheduleArrivals ids s
    = Some (tt, set_FEL (map (mkEvent 0 ALQ) (done ++ ids)) s).
  Proof.
    revert done s. induction ids as [|i rest IH]; intros done s Hfel; simpl.
    - unfold ret. rewrite app_nil_r, <- Hfel. now destruct s.
    - unfold bind, addEvent, modify.
      rewrite (IH (done ++ [i])).
      + rewrite <- app_assoc. reflexivity.
      + simpl. rewrite Hfel. unfold pushAndSort.
        change [mkEvent 0 ALQ i] with (map (mkEvent 0 ALQ) [i]).
        rewrite <- map_app. apply sortByTime_id, arrivals_sorted.
  Qed.

Lemma newSimulation_Some :
    (0 <= numTrucks cfg <= maxArrayLength)%Z ->
    newSimulation cfg
    = Some (mkSim 0 [] 0 0 0 0 [] [] (newTrucks (Z.to_nat (numTrucks cfg))) 0 0 0).
  Proof.
    intros Hn. unfold newSimulation.
    destruct (numTrucks cfg <? 0)%Z eqn:E; [apply Z.ltb_lt in E; lia|].
    destruct (maxArrayLength <? numTrucks cfg)%Z eqn:E'; [apply Z.ltb_lt in E'; lia|].
    reflexivity.
  Qed.

Lemma newSimulation_None :
    (numTrucks cfg < 0 \/ maxArrayLength < numTrucks cfg)%Z -> newSimulation cfg = None.
  Proof.
    intros Hn. unfold newSimulation.
    destruct (numTrucks cfg <? 0)%Z eqn:E; [reflexivity|].
    destruct (maxArrayLength <? numTrucks cfg)%Z eqn:E'; [reflexivity|].
    apply Z.ltb_ge in E, E'. lia.
  Qed.

Lemma initialState_general :
    isProblemSpecific cfg = false -> (0 <= numTrucks cfg <= maxArrayLength)%Z ->
    initialState random cfg = Some (generalStart cfg).
  Proof.
    intros Hsp Hn. unfold initialState. rewrite (newSimulation_Some Hn).
    unfold init. rewrite Hsp. rewrite (scheduleArrivals_run _ []); reflexivity.
  Qed.

Lemma initialState_numTrucks (s : Simulation) :
    initialState random cfg = Some s -> (0 <= numTrucks cfg <= maxArrayLength)%Z.
  Proof.
    unfold initialState.
    destruct (Z_lt_ge_dec (numTrucks cfg) 0) as [Hlo|Hlo];
      [rewrite newSimulation_None by lia; discriminate|].
    destruct (Z_lt_ge_dec maxArrayLength (numTrucks cfg)) as [Hhi|Hhi];
      [rewrite newSimulation_None by lia; discriminate|].
    intros _. lia.
  Qed.

Lemma isProblemSpecific_true :
    isProblemSpecific cfg = true ->
    numTrucks cfg = 6%Z /\ numLoaders cfg = 2%Z /\ numScales cfg = 1%Z.
  Proof.
    unfold isProblemSpecific. rewrite !andb_true_iff, !Z.eqb_eq. tauto.
  Qed.

Lemma initialState_specific (s : Simulation) :
    isProblemSpecific cfg = true ->
    initialState random cfg = Some s ->
    exists t1 t2 t3,
      sampleTable (random 0%nat) (cumProbs cfg loading) = Some t1 /\
      sampleTable (random 1%nat) (cumProbs cfg loading) = Some t2 /\
      sampleTable (random 2%nat) (cumProbs cfg weighing) = Some t3 /\
      s = specificStart t1 t2 t3.
  Proof.
    intros Hsp H. destruct (isProblemSpecific_true Hsp) as (Hn & Hl & Hs).
    unfold initialState, newSimulation, init in H. rewrite Hsp, Hn in H.
    simpl in H.
    match type of H with match ?m with _ => _ end = _ =>
      destruct m as [[[] s1]|] eqn:Hrun; [|discriminate] end.
    injection H as ->.
    unfold placeAtLoaders, placeAtLoader, placeAtScale in Hrun.
    rewrite Hl, Hs in Hrun. inv_run Hrun.
    repeat match goal with
           | H : arrayIndex _ = Some _ |- _ => vm_compute in H; injection H as <-
           end.
    change (Z.to_nat 6) with 6%nat in *. simpl in *.
    repeat match goal with
           | H : Some _ = Some _ |- _ => injection H as <-
           end.
    simpl.
    eexists _, _, _. repeat split; eassumption.
  Qed.

Lemma truckIds_valid : Forall (validId cfg) (truckIds cfg).
  Proof.
    apply Forall_forall. intros i Hi. unfold truckIds in Hi.
    apply list_elem_of_In, in_map_iff in Hi as (k & <- & Hk).
    apply in_seq in Hk. unfold validId. lia.
  Qed.

Lemma truckIds_length : length (truckIds cfg) = Z.to_nat (numTrucks cfg).
  Proof. unfold truckIds. now rewrite length_map, length_seq. Qed.

Lemma newTrucks_length (n : nat) : length (newTrucks n) = n.
  Proof. unfold newTrucks. now rewrite length_map, length_seq. Qed.

Lemma countType_arrivals (ids : list Z) :
    countType EL (map (mkEvent 0 ALQ) ids) = 0%Z /\
    countType EW (map (mkEvent 0 ALQ) ids) = 0%Z.
  Proof. induction ids as [|i rest [IH1 IH2]]; simpl; auto. Qed.

Lemma generalStart_inv :
    (0 <= numTrucks cfg)%Z -> (0 <= numLoaders cfg)%Z -> (0 <= numScales cfg)%Z ->
    ResourceInv cfg (generalStart cfg) /\ EventInv cfg (generalStart cfg).
  Proof.
    intros Hn Hl Hs. split; constructor; simpl;
      rewrite ?newTrucks_length, ?length_map, ?truckIds_length; try lia;
      try constructor.
    - rewrite Forall_map. simpl. apply truckIds_valid.
    - apply arrivals_sorted.
    - symmetry. apply countType_arrivals.
    - symmetry. apply countType_arrivals.
  Qed.

Lemma specificStart_inv (t1 t2 t3 : Q) :
    isProblemSpecific cfg = true ->
    ResourceInv cfg (specificStart t1 t2 t3) /\ EventInv cfg (specificStart t1 t2 t3).
  Proof.
    intros Hsp. destruct (isProblemSpecific_true Hsp) as (Hn & Hl & Hs).
    unfold specificStart.
    split; constructor; simpl;
      rewrite ?pushAndSort_Forall, ?countType_pushAndSort, ?pushAndSort_length,
        ?Forall_cons, ?Forall_nil; simpl; unfold validId;
      try apply pushAndSort_sorted; try lia.
  Qed.

Lemma initialState_inv (s : Simulation) :
    (0 <= numLoaders cfg)%Z -> (0 <= numScales cfg)%Z ->
    initialState random cfg = Some s ->
    ResourceInv cfg s /\ EventInv cfg s.
  Proof.
    intros Hl Hs H. pose proof (initialState_numTrucks s H) as Hn.
    destruct (isProblemSpecific cfg) eqn:Hsp.
    - destruct (initialState_specific s Hsp H) as (t1 & t2 & t3 & _ & _ & _ & ->).
      now apply specificStart_inv.
    - rewrite (initialState_general Hsp Hn) in H. injection H as <-.
      now apply generalStart_inv.
  Qed.

Lemma Reachable_inv (s : Simulation) (last : Q) :
    (0 <= numLoaders cfg)%Z -> (0 <= numScales cfg)%Z ->
    Reachable random cfg s last ->
    ResourceInv cfg s /\ EventInv cfg s.
  Proof.
    intros Hl Hs. induction 1 as [s H | s last s' last' _ [IHR IHE] Hstep].
    - now apply initialState_inv.
    - now apply (loopBody_inv s last s' last').
  Qed.

Lemma ResourceInv_frame (s s' : Simulation) :
    L s' = L s -> W s' = W s -> LQ s' = LQ s -> WQ s' = WQ s ->
    loaderQueue s' = loaderQueue s -> weigherQueue s' = weigherQueue s ->
    trucks s' = trucks s ->
    ResourceInv cfg s -> ResourceInv cfg s'.
  Proof.
    intros HL HW HLQ HWQ Hlq Hwq Ht []. constructor;
      rewrite ?HL, ?HW, ?HLQ, ?HWQ, ?Hlq, ?Hwq, ?Ht; assumption.
  Qed.

Lemma finalUpdate_frame (s : Simulation) (last : Q) :
    L (finalUpdate s last) = L s /\ W (finalUpdate s last) = W s /\
    LQ (finalUpdate s last) = LQ s /\ WQ (finalUpdate s last) = WQ s /\
    loaderQueue (finalUpdate s last) = loaderQueue s /\
    weigherQueue (finalUpdate s last) = weigherQueue s /\
    trucks (finalUpdate s last) = trucks s /\
    clock (finalUpdate s last) = clock s /\
    FEL (finalUpdate s last) = FEL s.
  Proof.
    unfold finalUpdate. destruct (Qgtb _ _); simpl; repeat split; reflexivity.
  Qed.

Lemma Done_resource (s : Simulation) (last : Q) (s' : Simulation) (last' : Q) :
    loopBody random cfg s last = Some (Done s' last') ->
    ResourceInv cfg s -> ResourceInv cfg s'.
  Proof.
    intros H HR. apply loopBody_Done in H as (_ & [(_ & ->) | (e & rest & _ & _ & ->)]);
      [exact HR|].
    revert HR. now apply ResourceInv_frame.
  Qed.

Lemma Visited_resource (s : Simulation) :
    (0 <= numLoaders cfg)%Z -> (0 <= numScales cfg)%Z ->
    Visited random cfg s -> ResourceInv cfg s.
  Proof.
    intros Hl Hs [s0 last Hr | s0 last s' last' Hr Hd | s0 last s' last' Hr Hd].
    - now apply (Reachable_inv s0 last).
    - apply (Done_resource s0 last s' last' Hd). now apply (Reachable_inv s0 last).
    - assert (HR : ResourceInv cfg s').
      { apply (Done_resource s0 last s' last' Hd). now apply (Reachable_inv s0 last). }
      revert HR. destruct (finalUpdate_frame s' last') as (?&?&?&?&?&?&?&?&?).
      now apply ResourceInv_frame.
  Qed.

  (** *** No exception from a well-formed state *)

Ltac close_fail :=
    simpl in *; bool_to_prop;
    repeat match goal with
           | H : ~ (_ <= _ < _)%Z |- _ => apply H; clear H
           end;
    rewrite ?length_insert in *;
    repeat match goal with
           | H : loaderQueue _ = _ |- _ => rewrite H in *; clear H
           | H : weigherQueue _ = _ |- _ => rewrite H in *; clear H
           | H : Forall _ (_ :: _) |- _ => apply Forall_cons in H as [? ?]
           end;
    simpl in *;
    try (unfold validId in *; lia).

Lemma handleALQ_progress (e : Event) (s : Simulation) :
    tablesNonEmpty cfg ->
    ResourceInv cfg s -> validId cfg (truckId e) ->
    handleALQ random cfg e s <> None.
  Proof.
    intros Htab [] Hid H. unfold handleALQ in H.
    inv_fail H; try (now apply Htab in H); close_fail.
  Qed.

Lemma handleEL_progress (e : Event) (s : Simulation) :
    tablesNonEmpty cfg ->
    ResourceInv cfg s -> validId cfg (truckId e) ->
    handleEL random cfg e s <> None.
  Proof.
    intros Htab [] Hid H. unfold handleEL in H.
    inv_fail H; try (now apply Htab in H); close_fail.
  Qed.

Lemma handleEW_progress (e : Event) (s : Simulation) :
    tablesNonEmpty cfg ->
    ResourceInv cfg s -> validId cfg (truckId e) ->
    handleEW random cfg e s <> None.
  Proof.
    intros Htab [] Hid H. unfold handleEW in H.
    inv_fail H; try (now apply Htab in H); close_fail.
  Qed.

Lemma dispatch_progress (e : Event) (s : Simulation) :
    tablesNonEmpty cfg ->
    ResourceInv cfg s -> validId cfg (truckId e) ->
    dispatch random cfg e s <> None.
  Proof.
    intros Htab HR Hid. unfold dispatch. destruct (type e).
    - now apply handleALQ_progress.
    - now apply handleEL_progress.
    - now apply handleEW_progress.
  Qed.

Lemma loopBody_progress (s : Simulation) (last : Q) :
    tablesNonEmpty cfg ->
    ResourceInv cfg s -> EventInv cfg s ->
    loopBody random cfg s last <> None.
  Proof.
    intros Htab HR HE. unfold loopBody.
    destruct (FEL s) as [|e rest] eqn:Hfel; [discriminate|].
    destruct (Qgtb (time e) (maxSimTime cfg)); [discriminate|]. simpl.
    match goal with |- context [dispatch random cfg e ?x] =>
      pose proof (dispatch_progress e x Htab) as Hp;
      destruct (dispatch random cfg e x) as [[[] s1]|] end; [discriminate|].
    intros _. apply Hp; [| | reflexivity].
    - revert HR. now apply ResourceInv_frame.
    - destruct HE as [Hids _ _ _ _]. rewrite Hfel in Hids.
      now apply Forall_cons in Hids as [Hid _].
  Qed.

Lemma initialState_progress :
    tablesNonEmpty cfg -> (0 <= numTrucks cfg <= maxArrayLength)%Z ->
    initialState random cfg <> None.
  Proof.
    intros Htab Hn. destruct (isProblemSpecific cfg) eqn:Hsp.
    - destruct (isProblemSpecific_true Hsp) as (H6 & Hl & Hs).
      unfold initialState, newSimulation, init. rewrite Hsp, H6. simpl.
      match goal with |- match ?m with _ => _ end <> None =>
        destruct m as [[[] s1]|] eqn:Hrun; [discriminate|] end.
      exfalso. unfold placeAtLoaders, placeAtLoader, placeAtScale in Hrun.
      rewrite Hl, Hs in Hrun. inv_fail Hrun; try (now apply Htab in Hrun).
      all: repeat match goal with
                  | H : arrayIndex _ = Some _ |- _ =>
                      vm_compute in H; injection H as <-
                  end.
      all: change (Z.to_nat 6) with 6%nat in *; simpl in *; apply Hrun; lia.
    - rewrite (initialState_general Hsp Hn). discriminate.
  Qed.

End Invariants.

Lemma stateAfter_Reachable (random : nat -> Q) (cfg : Config) (n : nat)
    (s : Simulation) (last : Q) :
  stateAfter random cfg n = Some (s, last) -> Reachable random cfg s last.
Proof.
  revert s last. induction n as [|n IH]; simpl; intros s last.
  - destruct (initialState random cfg) as [s0|] eqn:E; [|discriminate].
    intros [= <- <-]. now apply reach_init.
  - destruct (stateAfter random cfg n) as [[s0 last0]|]; [|discriminate].
    destruct (loopBody random cfg s0 last0) as [[s1 last1|s1 last1]|] eqn:E;
      try discriminate.
    intros [= <- <-]. eapply reach_step; [apply IH; reflexivity | exact E].
Qed.

Lemma stateOf_Reachable (random : nat -> Q) (cfg : Config) (n : nat) :
  stateAfter random cfg n <> None ->
  Reachable random cfg (stateOf random cfg n) (lastOf random cfg n).
Proof.
  intros H. unfold stateOf, lastOf.
  destruct (stateAfter random cfg n) as [[s last]|] eqn:E; [|contradiction].
  now apply (stateAfter_Reachable _ _ n).
Qed.

Lemma demoState_Reachable (n : nat) :
  stateAfter demoRandom demoConfig n <> None ->
  Reachable demoRandom demoConfig (demoState n) (demoLast n).
Proof. apply stateOf_Reachable. Qed.

Lemma demoConfig_valid : validConfig demoConfig.
Proof. unfold validConfig, maxArrayLength. simpl. lia. Qed.

Example demoState_2 :
  demoState 2
  = mkSim 0 [mkEvent (0 + 5) EL 1] 1 1 0 0 [2%Z] []
          [mkTruck 1 LOADING; mkTruck 2 IN_LQ] (0 + 0 * (0 - 0) + 0 * (0 - 0))
          (0 + 0 * (0 - 0) + 0 * (0 - 0)) 1.
Proof. reflexivity. Qed.

(** ** Capacity and work conservation *)

(** C1. For every valid configuration and every state of a run at a
    stable point (after initialisation, after each event-processing step,
    when the loop is left and after the final update), the busy counters
    stay within the capacities. *)
Theorem capacity_invariant (random : nat -> Q) (cfg : Config) (s : Simulation) :
  validConfig cfg ->
  Visited random cfg s ->
  (L s <= numLoaders cfg)%Z /\ (W s <= numScales cfg)%Z.
Proof.
  intros (_ & Hl & Hs) Hv.
  destruct (Visited_resource random cfg s) as [HL HW _ _ _ _ _ _ _];
    [lia | lia | exact Hv |].
  now split.
Qed.

Lemma capacity_invariant_witness :
  validConfig demoConfig /\
  Visited demoRandom demoConfig (demoState 2) /\
  (L (demoState 2) <= numLoaders demoConfig)%Z /\
  (W (demoState 2) <= numScales demoConfig)%Z.
Proof.
  assert (Hv : Visited demoRandom demoConfig (demoState 2)).
  { apply (visited_head _ _ _ (demoLast 2)), demoState_Reachable.
    vm_compute. discriminate. }
  split; [exact demoConfig_valid|]. split; [exact Hv|].
  exact (capacity_invariant demoRandom demoConfig (demoState 2) demoConfig_valid Hv).
Defined.

(** C10. In every state of a run of a valid configuration, a non-empty
    loader queue means that every loader is busy, and a non-empty scale
    queue that every scale is busy: no truck waits while a server of that
    resource is idle.  The states covered are the one after
    initialisation and the one after every event handler. *)
Theorem work_conserving (random : nat -> Q) (cfg : Config) (s : Simulation) :
  validConfig cfg ->
  Visited random cfg s ->
  ((0 < LQ s)%Z \/ loaderQueue s <> [] -> L s = numLoaders cfg) /\
  ((0 < WQ s)%Z \/ weigherQueue s <> [] -> W s = numScales cfg).
Proof.
  intros (_ & Hl & Hs) Hv.
  destruct (Visited_resource random cfg s) as [_ _ HL HW HLQ HWQ _ _ _];
    [lia | lia | exact Hv |].
  split; intros [Hq | Hq].
  - now apply HL.
  - apply HL. rewrite HLQ. destruct (loaderQueue s); [contradiction | simpl; lia].
  - now apply HW.
  - apply HW. rewrite HWQ. destruct (weigherQueue s); [contradiction | simpl; lia].
Qed.

Lemma work_conserving_witness :
  validConfig demoConfig /\
  Visited demoRandom demoConfig (demoState 2) /\
  loaderQueue (demoState 2) = [2%Z] /\
  L (demoState 2) = numLoaders demoConfig.
Proof.
  assert (Hv : Visited demoRandom demoConfig (demoState 2)).
  { apply (visited_head _ _ _ (demoLast 2)), demoState_Reachable.
    vm_compute. discriminate. }
  split; [exact demoConfig_valid|]. split; [exact Hv|]. split; [reflexivity|].
  apply (proj1 (work_conserving demoRandom demoConfig (demoState 2) demoConfig_valid Hv)).
  right. discriminate.
Defined.

(** ** The main loop: accumulators and horizon *)

Lemma dispatch_frame (random : nat -> Q) (cfg : Config) (e : Event)
    (s s' : Simulation) :
  dispatch random cfg e s = Some (tt, s') ->
  clock s' = clock s /\
  loaderBusyTime s' = loaderBusyTime s /\
  scaleBusyTime s' = scaleBusyTime s.
Proof.
  intros H. unfold dispatch in H.
  destruct (type e); [unfold handleALQ in H | unfold handleEL in H | unfold handleEW in H];
    inv_run H; simpl; repeat split; reflexivity.
Qed.

(** C3 (the defect of the earlier copy).  The later copy guards the
    update after the loop with [timeDelta > 0], as the claim says; the
    earlier copy performs it unconditionally.  For
    [new Simulation(6, 2, 1, -10).run()] of the earlier copy the first
    event, at time 0, is past the horizon: the loop is left at once with
    the clock at -10, so the interval since the last update is -10, and
    with the two loaders and the scale busy.  The later copy skips the
    update; the earlier copy applies it and leaves the accumulators at
    [2 * -10] and [1 * -10]. *)
Theorem final_update_not_skipped :
  exists s0 s last,
    initialState demoRandom negativeHorizon = Some s0 /\
    loop demoRandom negativeHorizon 1 s0 0 = Finished (s, last) /\
    clock s - last == -10 /\
    L s = 2%Z /\ W s = 1%Z /\
    loaderBusyTime s == 0 /\ scaleBusyTime s == 0 /\
    finalUpdate s last = s /\
    loaderBusyTime (finalUpdateUnguarded s last) == -20 /\
    scaleBusyTime (finalUpdateUnguarded s last) == -10.
Proof.
  do 3 eexists.
  split; [vm_compute; reflexivity|].
  split; [vm_compute; reflexivity|].
  repeat split.
Qed.

(** In the third step of the demonstration run truck 1 ends loading at
    time 5: one loader was busy during the 5 minutes before, and the
    accumulator receives [1 * 5] although the handler hands the loader
    over to truck 2. *)
Example accumulator_third_step :
  L (demoState 2) = 1%Z /\ loaderBusyTime (demoState 2) == 0 /\
  loaderBusyTime (demoState 3) == 5 /\ L (demoState 3) = 1%Z.
Proof. repeat split. Qed.

(** The unguarded update of the earlier copy produces the same
    accumulators whenever the interval is not negative. *)
Lemma finalUpdateUnguarded_agrees (s : Simulation) (last : Q) :
  0 <= clock s - last ->
  loaderBusyTime (finalUpdateUnguarded s last) == loaderBusyTime (finalUpdate s last) /\
  scaleBusyTime (finalUpdateUnguarded s last) == scaleBusyTime (finalUpdate s last).
Proof.
  intros H. unfold finalUpdateUnguarded, finalUpdate.
  destruct (Qgtb (clock s - last) 0) eqn:E; simpl; [split; reflexivity|].
  apply Qgtb_false in E.
  assert (H0 : clock s - last == 0) by now apply Qle_antisym.
  rewrite H0. split; ring.
Qed.

(** With a horizon that is not negative, the interval of the final
    update is never negative: at the head of the loop [lastEventTime] is
    the clock, and the clock does not pass the horizon. *)
Lemma Reachable_last (random : nat -> Q) (cfg : Config) (s : Simulation) (last : Q) :
  0 <= maxSimTime cfg ->
  Reachable random cfg s last ->
  clock s = last /\ last <= maxSimTime cfg.
Proof.
  intros Hh. induction 1 as [s H | s last s' last' _ _ Hstep].
  - split; [|exact Hh].
    pose proof (initialState_numTrucks random cfg s H) as Hn.
    destruct (isProblemSpecific cfg) eqn:Hsp.
    + destruct (initialState_specific random cfg s Hsp H)
        as (t1 & t2 & t3 & _ & _ & _ & ->). reflexivity.
    + rewrite (initialState_general random cfg Hsp Hn) in H. now injection H as <-.
  - apply loopBody_Continue in Hstep as (e & rest & _ & Hle & -> & Hd).
    apply dispatch_frame in Hd as (Hc & _ & _). simpl in Hc. now split.
Qed.

Lemma final_interval_nonneg (random : nat -> Q) (cfg : Config)
    (s : Simulation) (last : Q) (s' : Simulation) (last' : Q) :
  0 <= maxSimTime cfg ->
  Reachable random cfg s last ->
  loopBody random cfg s last = Some (Done s' last') ->
  0 <= clock s' - last'.
Proof.
  intros Hh Hr Hd. destruct (Reachable_last random cfg s last Hh Hr) as [Hc Hle].
  apply loopBody_Done in Hd as (-> & [(_ & ->) | (e & rest & _ & _ & ->)]); simpl.
  - rewrite Hc. lra.
  - lra.
Qed.

(** C4. When the event at the head of the list (the earliest pending
    event: the list is kept sorted by time) is scheduled after the
    horizon, the loop is left with the clock set to the horizon: the event
    is removed and not handled, no random number is drawn, and the
    counters, the queues, the truck phases and the accumulators are those
    of the state before. *)
Theorem horizon_discards_event (random : nat -> Q) (cfg : Config)
    (s : Simulation) (last : Q) (e : Event) (rest : list Event) :
  FEL s = e :: rest ->
  maxSimTime cfg < time e ->
  exists s',
    loopBody random cfg s last = Some (Done s' last) /\
    (forall fuel, loop random cfg (S fuel) s last = Finished (s', last)) /\
    clock s' = maxSimTime cfg /\
    FEL s' = rest /\
    (L s', LQ s', W s', WQ s') = (L s, LQ s, W s, WQ s) /\
    loaderQueue s' = loaderQueue s /\
    weigherQueue s' = weigherQueue s /\
    trucks s' = trucks s /\
    loaderBusyTime s' = loaderBusyTime s /\
    scaleBusyTime s' = scaleBusyTime s /\
    draws s' = draws s /\
    (StronglySorted TimeLe (FEL s) ->
     Forall (fun x => maxSimTime cfg < time x) (FEL s)).
Proof.
  intros Hfel Hlate.
  exists (set_clock (maxSimTime cfg) (set_FEL rest s)).
  assert (Hbody : loopBody random cfg s last
                  = Some (Done (set_clock (maxSimTime cfg) (set_FEL rest s)) last)).
  { unfold loopBody. rewrite Hfel. apply Qgtb_true in Hlate. now rewrite Hlate. }
  split; [exact Hbody|]. split; [intros fuel; simpl; now rewrite Hbody|].
  simpl. repeat split; try reflexivity.
  rewrite Hfel. intros Hsorted. apply StronglySorted_inv in Hsorted as [_ Hmin].
  constructor; [exact Hlate|].
  eapply Forall_impl; [exact Hmin|].
  intros x Hx. unfold TimeLe in Hx. now apply Qlt_le_trans with (time e).
Qed.

Lemma horizon_discards_event_witness :
  exists s',
    loopBody demoRandom shortConfig (stateOf demoRandom shortConfig 2) 0
      = Some (Done s' 0) /\
    (forall fuel,
       loop demoRandom shortConfig (S fuel) (stateOf demoRandom shortConfig 2) 0
       = Finished (s', 0)) /\
    clock s' = 3 /\
    FEL s' = [] /\
    (L s', LQ s', W s', WQ s') = (1, 1, 0, 0)%Z /\
    loaderQueue s' = [2%Z] /\
    weigherQueue s' = [] /\
    trucks s' = [mkTruck 1 LOADING; mkTruck 2 IN_LQ] /\
    loaderBusyTime s' = loaderBusyTime (stateOf demoRandom shortConfig 2) /\
    scaleBusyTime s' = scaleBusyTime (stateOf demoRandom shortConfig 2) /\
    draws s' = 1%nat /\
    (StronglySorted TimeLe (FEL (stateOf demoRandom shortConfig 2)) ->
     Forall (fun x => maxSimTime shortConfig < time x)
       (FEL (stateOf demoRandom shortConfig 2))).
Proof.
  apply (horizon_discards_event demoRandom shortConfig
           (stateOf demoRandom shortConfig 2) 0 (mkEvent (0 + 5) EL 1) []);
    vm_compute; reflexivity.
Defined.

(** ** Immediate hand-off of a freed loader *)

Lemma arrayIndex_Some (i : Z) (k : nat) :
  arrayIndex i = Some k -> k = Z.to_nat i.
Proof.
  unfold arrayIndex. destruct (0 <=? i)%Z; [|discriminate]. now intros [= <-].
Qed.

(** C5. In a well-formed state (the invariant of the reachable states)
    with [LQ > 0], the handler of an [EL] event removes the head of the
    loader queue, decrements [LQ], puts that truck in phase [LOADING] and
    schedules its [EL] at the clock plus a loading time sampled with a
    draw made during this call; the only other event the call can
    schedule is the [EW] of the truck that ended loading, when a scale is
    free.  [L] is decremented and incremented again: it is unchanged. *)
Theorem immediate_handoff (random : nat -> Q) (cfg : Config)
    (e : Event) (s : Simulation) :
  tablesNonEmpty cfg ->
  ResourceInv cfg s ->
  validId cfg (truckId e) ->
  (0 < LQ s)%Z ->
  exists next rest s' tl,
    loaderQueue s = next :: rest /\
    handleEL random cfg e s = Some (tt, s') /\
    loaderQueue s' = rest /\
    LQ s' = (LQ s - 1)%Z /\
    L s' = L s /\
    (exists t, trucks s' !! Z.to_nat (next - 1) = Some t /\ state t = LOADING) /\
    clock s' = clock s /\
    (draws s < draws s')%nat /\
    sampleTable (random (pred (draws s'))) (cumProbs cfg loading) = Some tl /\
    ((W s < numScales cfg)%Z ->
     exists tw,
       sampleTable (random (draws s)) (cumProbs cfg weighing) = Some tw /\
       draws s' = S (S (draws s)) /\
       FEL s' = pushAndSort (mkEvent (clock s + tl) EL next)
                  (pushAndSort (mkEvent (clock s + tw) EW (truckId e)) (FEL s))) /\
    ((numScales cfg <= W s)%Z ->
     draws s' = S (draws s) /\
     FEL s' = pushAndSort (mkEvent (clock s + tl) EL next) (FEL s)).
Proof.
  intros Htab HR Hid Hlq.
  destruct (handleEL random cfg e s) as [[[] s']|] eqn:H;
    [| exfalso; now apply (handleEL_progress random cfg e s)].
  unfold handleEL in H. inv_run H; bool_to_prop; simpl in *; try lia.
  all: repeat match goal with
              | Hi : arrayIndex _ = Some _ |- _ => apply arrayIndex_Some in Hi; subst
              end.
  all: match goal with
       | Hq : loaderQueue _ = ?next :: ?rest,
         Hs : sampleTable _ (cumProbs _ loading) = Some ?tl |- _ =>
           exists next, rest; eexists; exists tl
       end.
  all: repeat split; simpl; try lia; try assumption.
  all: try (eexists; split;
            [ apply list_lookup_insert_eq; rewrite ?length_insert in *;
              match goal with
              | Ht : _ !! ?k = Some _ |- (?k < _)%nat =>
                  apply lookup_lt_Some in Ht; rewrite ?length_insert in Ht; exact Ht
              end
            | reflexivity ]).
  all: try (intros _; eexists; repeat split; eassumption).
  all: intros ?; lia.
Qed.

(** ** Truck phases *)

Lemma countIf_partition (l : list Truck) :
  (countIf inCycle l + countIf isIdle l = Z.of_nat (length l))%Z.
Proof.
  induction l as [|t rest IH]; [reflexivity|].
  simpl countIf. simpl length. unfold inCycle, isIdle in *.
  destruct (state t); lia.
Qed.

Lemma TrucksAdvance_refl (l : list Truck) : TrucksAdvance l l.
Proof. apply Forall2_same_length_lookup_2; [reflexivity|]. intros i x y Hx Hy.
  rewrite Hx in Hy. injection Hy as <-. now split. Qed.

Lemma TrucksAdvance_insert (l l' : list Truck) (i : nat) (t : Truck) (st : TruckState) :
  TrucksAdvance l l' -> l' !! i = Some t -> st <> IDLE ->
  TrucksAdvance l (<[ i := mkTruck (id t) st ]> l').
Proof.
  intros Hadv Ht Hst.
  destruct (Forall2_lookup_r _ _ _ _ _ Hadv Ht) as (t0 & Ht0 & Hid & _).
  rewrite <- (list_insert_id l i t0 Ht0).
  apply Forall2_insert; [exact Hadv|]. split; [exact Hid | simpl; contradiction].
Qed.

Lemma TrucksAdvance_count (l l' : list Truck) :
  TrucksAdvance l l' -> (countIf inCycle l <= countIf inCycle l')%Z.
Proof.
  induction 1 as [|t t' l l' [_ Hst] _ IH]; simpl; [lia|].
  unfold inCycle at 1 3. destruct (state t) eqn:E, (state t') eqn:E'; try lia.
  all: specialize (Hst eq_refl); discriminate.
Qed.

Lemma pushAndSort_In (x e : Event) (fel : list Event) :
  In x (pushAndSort e fel) <-> x = e \/ In x fel.
Proof.
  rewrite <- !list_elem_of_In, pushAndSort_perm, elem_of_cons. reflexivity.
Qed.

Ltac close_advance :=
  repeat (eapply TrucksAdvance_insert; [ | eassumption | discriminate ]);
  apply TrucksAdvance_refl.

Ltac close_lookup :=
  repeat match goal with
         | Hi : arrayIndex _ = Some _ |- _ => apply arrayIndex_Some in Hi; subst
         end;
  repeat (rewrite list_lookup_insert; case_decide;
          [ eexists; split; [reflexivity | discriminate] | ]);
  exfalso;
  repeat match goal with
         | Ht : _ !! _ = Some _ |- _ => apply lookup_lt_Some in Ht
         end;
  rewrite ?length_insert in *; lia.

Lemma dispatch_trucks (random : nat -> Q) (cfg : Config) (e : Event)
    (s s' : Simulation) :
  dispatch random cfg e s = Some (tt, s') ->
  TrucksAdvance (trucks s) (trucks s') /\
  (exists t, trucks s' !! Z.to_nat (truckId e - 1) = Some t /\ state t <> IDLE) /\
  (forall x, In x (FEL s) -> In x (FEL s')).
Proof.
  intros H. unfold dispatch in H.
  destruct (type e); [unfold handleALQ in H | unfold handleEL in H | unfold handleEW in H];
    inv_run H; simpl in *.
  all: split; [close_advance | split; [close_lookup|]].
  all: intros x Hx; rewrite ?pushAndSort_In; tauto.
Qed.

Lemma countIf_nonneg (p : Truck -> bool) (l : list Truck) : (0 <= countIf p l)%Z.
Proof. induction l as [|t rest IH]; simpl; [lia | destruct (p t); lia]. Qed.

Lemma loopBody_trucks (random : nat -> Q) (cfg : Config)
    (s : Simulation) (last : Q) (s' : Simulation) (last' : Q) :
  TruckInv s ->
  loopBody random cfg s last = Some (Continue s' last') ->
  TruckInv s' /\ TrucksAdvance (trucks s) (trucks s').
Proof.
  intros [Hids Hidle] H.
  apply loopBody_Continue in H as (e & rest & Hfel & _ & _ & Hd).
  apply dispatch_trucks in Hd as (Hadv & (te & Hte & Hne) & Hincl). simpl in *.
  split; [|exact Hadv]. constructor.
  - intros k t' Hk.
    destruct (Forall2_lookup_r _ _ _ _ _ Hadv Hk) as (t & Ht & Hid & _).
    rewrite Hid. now apply Hids.
  - intros k t' Hk Hst.
    destruct (Forall2_lookup_r _ _ _ _ _ Hadv Hk) as (t & Ht & _ & Hback).
    specialize (Hidle k t Ht (Hback Hst)). rewrite Hfel in Hidle.
    destruct Hidle as [He | Hin]; [|now apply Hincl].
    exfalso.
    assert (Hidx : Z.to_nat (truckId e - 1) = k) by (rewrite He; simpl; lia).
    rewrite Hidx, Hk in Hte. injection Hte as <-. contradiction.
Qed.

Lemma newTrucks_lookup (n k : nat) (t : Truck) :
  newTrucks n !! k = Some t -> t = mkTruck (Z.of_nat k + 1) IDLE /\ (k < n)%nat.
Proof.
  unfold newTrucks. rewrite list_lookup_fmap.
  destruct (seq 0 n !! k) as [j|] eqn:E; [|discriminate].
  apply lookup_seq in E as [-> Hk]. simpl. now intros [= <-].
Qed.

Lemma generalStart_trucks (cfg : Config) : TruckInv (generalStart cfg).
Proof.
  constructor; simpl; intros k t Hk.
  - apply newTrucks_lookup in Hk as [-> _]. reflexivity.
  - intros _. apply newTrucks_lookup in Hk as [_ Hk].
    apply in_map. unfold truckIds.
    apply (in_map (fun i : nat => (Z.of_nat i + 1)%Z) _ k), in_seq. lia.
Qed.

Lemma specificStart_trucks (t1 t2 t3 : Q) : TruckInv (specificStart t1 t2 t3).
Proof.
  constructor; simpl; intros k t Hk.
  - destruct k as [|[|[|[|[|[|k]]]]]]; try discriminate;
      injection Hk as <-; reflexivity.
  - destruct k as [|[|[|[|[|[|k]]]]]]; try discriminate;
      injection Hk as <-; discriminate.
Qed.

Lemma initialState_trucks (random : nat -> Q) (cfg : Config) (s : Simulation) :
  initialState random cfg = Some s -> TruckInv s.
Proof.
  intros H. pose proof (initialState_numTrucks random cfg s H) as Hn.
  destruct (isProblemSpecific cfg) eqn:Hsp.
  - destruct (initialState_specific random cfg s Hsp H) as (t1 & t2 & t3 & _ & _ & _ & ->).
    apply specificStart_trucks.
  - rewrite (initialState_general random cfg Hsp Hn) in H. injection H as <-.
    apply generalStart_trucks.
Qed.

Lemma Reachable_trucks (random : nat -> Q) (cfg : Config) (s : Simulation) (last : Q) :
  Reachable random cfg s last -> TruckInv s.
Proof.
  induction 1 as [s H | s last s' last' _ IH Hstep].
  - now apply (initialState_trucks random cfg).
  - now apply (loopBody_trucks random cfg s last s' last').
Qed.

Lemma Visited_trucks (random : nat -> Q) (cfg : Config) (s : Simulation) :
  Visited random cfg s ->
  exists s0 last, Reachable random cfg s0 last /\ trucks s = trucks s0.
Proof.
  intros [s0 last Hr | s0 last s' last' Hr Hd | s0 last s' last' Hr Hd].
  - now exists s0, last.
  - exists s0, last. split; [exact Hr|].
    apply loopBody_Done in Hd as (_ & [(_ & ->) | (e & rest & _ & _ & ->)]); reflexivity.
  - exists s0, last. split; [exact Hr|].
    destruct (finalUpdate_frame s' last') as (_&_&_&_&_&_&->&_&_).
    apply loopBody_Done in Hd as (_ & [(_ & ->) | (e & rest & _ & _ & ->)]); reflexivity.
Qed.

(** In a run that starts from the problem-specific state no truck is ever
    [IDLE]. *)
Lemma specific_never_idle (random : nat -> Q) (cfg : Config) (s : Simulation) (last : Q) :
  isProblemSpecific cfg = true ->
  Reachable random cfg s last ->
  countIf isIdle (trucks s) = 0%Z.
Proof.
  intros Hsp. induction 1 as [s H | s last s' last' Hr IH Hstep].
  - destruct (initialState_specific random cfg s Hsp H) as (t1 & t2 & t3 & _ & _ & _ & ->).
    reflexivity.
  - destruct (loopBody_trucks random cfg s last s' last'
                (Reachable_trucks random cfg s last Hr) Hstep) as [_ Hadv].
    pose proof (TrucksAdvance_count _ _ Hadv) as Hc.
    pose proof (Forall2_length _ _ _ Hadv) as Hlen.
    pose proof (countIf_partition (trucks s)) as P1.
    pose proof (countIf_partition (trucks s')) as P2.
    pose proof (countIf_nonneg isIdle (trucks s')) as P3.
    lia.
Qed.

Lemma demoState_Visited (n : nat) :
  stateAfter demoRandom demoConfig n <> None ->
  Visited demoRandom demoConfig (demoState n).
Proof.
  intros H. apply (visited_head _ _ _ (demoLast n)). now apply demoState_Reachable.
Qed.

(** C2 (as amended). At every stable point of a run of a valid
    configuration the truck array holds [numTrucks] trucks, the truck at
    index [k] being truck [k + 1]; each is in one of the six phases, so the
    trucks in the five phases of the cycle and the [IDLE] ones number
    [numTrucks].  A truck is [IDLE] only while the arrival scheduled for it
    at time 0 by the general initialisation is pending: all trucks are
    [IDLE] right after the general initialisation, none ever is in a run
    that starts from the problem-specific state.  An event-processing step
    keeps every truck and moves none back to [IDLE], so the number of
    trucks in the cycle never decreases: no truck is lost, duplicated or
    given a terminal state. *)
Theorem truck_conservation (random : nat -> Q) (cfg : Config) :
  validConfig cfg ->
  (forall s,
     Visited random cfg s ->
     Z.of_nat (length (trucks s)) = numTrucks cfg /\
     (forall k t, trucks s !! k = Some t -> id t = (Z.of_nat k + 1)%Z) /\
     (countIf inCycle (trucks s) + countIf isIdle (trucks s) = numTrucks cfg)%Z) /\
  (forall s last k t,
     Reachable random cfg s last ->
     trucks s !! k = Some t -> state t = IDLE ->
     In (mkEvent 0 ALQ (Z.of_nat k + 1)) (FEL s)) /\
  (forall s last s' last',
     Reachable random cfg s last ->
     loopBody random cfg s last = Some (Continue s' last') ->
     TrucksAdvance (trucks s) (trucks s') /\
     (countIf inCycle (trucks s) <= countIf inCycle (trucks s'))%Z) /\
  (isProblemSpecific cfg = true ->
   forall s, Visited random cfg s -> countIf inCycle (trucks s) = numTrucks cfg) /\
  (isProblemSpecific cfg = false ->
   forall s, initialState random cfg = Some s ->
             countIf isIdle (trucks s) = numTrucks cfg).
Proof.
  intros Hvalid. pose proof Hvalid as (Hn & Hl & Hs).
  assert (Hlen : forall s, Visited random cfg s ->
                           Z.of_nat (length (trucks s)) = numTrucks cfg).
  { intros s Hv. apply (Visited_resource random cfg s); [lia | lia | exact Hv]. }
  split; [|split; [|split; [|split]]].
  - intros s Hv. split; [now apply Hlen|]. split.
    + destruct (Visited_trucks random cfg s Hv) as (s0 & last & Hr & ->).
      apply (Reachable_trucks random cfg s0 last Hr).
    + rewrite countIf_partition. now apply Hlen.
  - intros s last k t Hr. apply (Reachable_trucks random cfg s last Hr).
  - intros s last s' last' Hr Hstep.
    destruct (loopBody_trucks random cfg s last s' last'
                (Reachable_trucks random cfg s last Hr) Hstep) as [_ Hadv].
    split; [exact Hadv | now apply TrucksAdvance_count].
  - intros Hsp s Hv.
    pose proof (Hlen s Hv) as Hlen'.
    pose proof (countIf_partition (trucks s)) as Hp.
    destruct (Visited_trucks random cfg s Hv) as (s0 & last & Hr & Heq).
    pose proof (specific_never_idle random cfg s0 last Hsp Hr) as Hz.
    rewrite <- Heq in Hz. lia.
  - intros Hsp s Hi.
    rewrite (initialState_general random cfg Hsp) in Hi by lia.
    injection Hi as <-. simpl.
    assert (Hall : forall n, countIf isIdle (newTrucks n) = Z.of_nat n).
    { intros n. unfold newTrucks. generalize 0%nat.
      induction n as [|n IH]; intros j; [reflexivity|].
      simpl seq. simpl map. simpl countIf. rewrite IH. lia. }
    rewrite Hall. lia.
Qed.

Lemma truck_conservation_witness :
  Z.of_nat (length (trucks (demoState 2))) = numTrucks demoConfig /\
  (forall k t, trucks (demoState 2) !! k = Some t -> id t = (Z.of_nat k + 1)%Z) /\
  (countIf inCycle (trucks (demoState 2)) + countIf isIdle (trucks (demoState 2))
   = numTrucks demoConfig)%Z.
Proof.
  apply (proj1 (truck_conservation demoRandom demoConfig demoConfig_valid)).
  apply demoState_Visited. vm_compute. discriminate.
Defined.

(** C2, counterexample.  Right after the general initialisation of the
    two-truck configuration both trucks are [IDLE]: no truck is in one of
    the five phases of the cycle, although [numTrucks] is 2. *)
Lemma five_phase_count_fails_after_init :
  validConfig demoConfig /\
  Visited demoRandom demoConfig (demoState 0) /\
  trucks (demoState 0) = [mkTruck 1 IDLE; mkTruck 2 IDLE] /\
  countIf inCycle (trucks (demoState 0)) = 0%Z /\
  numTrucks demoConfig = 2%Z.
Proof.
  split; [exact demoConfig_valid|].
  split; [apply demoState_Visited; vm_compute; discriminate|].
  repeat split.
Qed.

Lemma immediate_handoff_witness :
  exists next rest s' tl,
    loaderQueue (demoState 2) = next :: rest /\
    handleEL demoRandom demoConfig (mkEvent 5 EL 1) (demoState 2) = Some (tt, s') /\
    loaderQueue s' = rest /\
    LQ s' = (LQ (demoState 2) - 1)%Z /\
    L s' = L (demoState 2) /\
    (exists t, trucks s' !! Z.to_nat (next - 1) = Some t /\ state t = LOADING) /\
    clock s' = clock (demoState 2) /\
    (draws (demoState 2) < draws s')%nat /\
    sampleTable (demoRandom (pred (draws s'))) (cumProbs demoConfig loading) = Some tl /\
    ((W (demoState 2) < numScales demoConfig)%Z ->
     exists tw,
       sampleTable (demoRandom (draws (demoState 2))) (cumProbs demoConfig weighing)
         = Some tw /\
       draws s' = S (S (draws (demoState 2))) /\
       FEL s' = pushAndSort (mkEvent (clock (demoState 2) + tl) EL next)
                  (pushAndSort (mkEvent (clock (demoState 2) + tw) EW 1)
                     (FEL (demoState 2)))) /\
    ((numScales demoConfig <= W (demoState 2))%Z ->
     draws s' = S (draws (demoState 2)) /\
     FEL s' = pushAndSort (mkEvent (clock (demoState 2) + tl) EL next)
                (FEL (demoState 2))).
Proof.
  apply (immediate_handoff demoRandom demoConfig (mkEvent 5 EL 1) (demoState 2)).
  - intros ty. destruct ty; discriminate.
  - apply (Reachable_inv demoRandom demoConfig (demoState 2) (demoLast 2));
      [simpl; lia | simpl; lia |].
    apply demoState_Reachable. vm_compute. discriminate.
  - unfold validId. simpl. lia.
  - vm_compute. reflexivity.
Defined.

(** ** The clock *)

Lemma sampleTable_In (r : Q) (table : list Cum.entry) (t : Q) :
  sampleTable r table = Some t -> In t (map Cum.time table).
Proof.
  unfold sampleTable, lastTime. destruct (scanTable r table) as [t'|] eqn:E.
  - intros [= <-]. apply scanTable_Some in E as (e & (pre & post & -> & _) & ->).
    apply in_map, in_or_app. right. now left.
  - destruct (last table) as [e|] eqn:El; [|discriminate].
    intros [= <-]. now apply in_map, last_In.
Qed.

Lemma sample_nonneg (cfg : Config) (ty : TimeType) (r t : Q) :
  nonNegDurations cfg ->
  sampleTable r (cumProbs cfg ty) = Some t -> 0 <= t.
Proof.
  intros Hnn Hs. apply sampleTable_In, in_map_iff in Hs as (e & <- & He).
  specialize (Hnn ty). rewrite Forall_forall in Hnn.
  apply Hnn. now apply list_elem_of_In.
Qed.

Lemma sample_pos (cfg : Config) (ty : TimeType) (r t : Q) :
  posDurations cfg ->
  sampleTable r (cumProbs cfg ty) = Some t -> 0 < t.
Proof.
  intros Hnn Hs. apply sampleTable_In, in_map_iff in Hs as (e & <- & He).
  specialize (Hnn ty). rewrite Forall_forall in Hnn.
  apply Hnn. now apply list_elem_of_In.
Qed.

Lemma Qle_plus_nonneg (c t : Q) : 0 <= t -> c <= c + t.
Proof. intros H. lra. Qed.

Lemma dispatch_times (random : nat -> Q) (cfg : Config) (e : Event)
    (s s' : Simulation) :
  nonNegDurations cfg ->
  TimeInv s ->
  dispatch random cfg e s = Some (tt, s') ->
  TimeInv s'.
Proof.
  intros Hnn [Hsort Hfut] H. unfold dispatch in H.
  destruct (type e); [unfold handleALQ in H | unfold handleEL in H | unfold handleEW in H];
    inv_run H; simpl in *.
  all: repeat match goal with
              | Hs : sampleTable _ (cumProbs _ _) = Some _ |- _ =>
                  apply (sample_nonneg _ _ _ _ Hnn) in Hs
              end.
  all: constructor; simpl; rewrite ?pushAndSort_Forall; simpl;
    repeat match goal with
           | |- _ /\ _ => split
           | |- StronglySorted TimeLe (pushAndSort _ _) => apply pushAndSort_sorted
           | |- _ <= _ + _ => apply Qle_plus_nonneg
           end; assumption.
Qed.

Lemma loopBody_times (random : nat -> Q) (cfg : Config)
    (s : Simulation) (last : Q) (s' : Simulation) (last' : Q) :
  nonNegDurations cfg ->
  TimeInv s ->
  loopBody random cfg s last = Some (Continue s' last') ->
  TimeInv s' /\ clock s <= clock s'.
Proof.
  intros Hnn [Hsort Hfut] H.
  apply loopBody_Continue in H as (e & rest & Hfel & _ & _ & Hd).
  rewrite Hfel in Hsort, Hfut.
  apply StronglySorted_inv in Hsort as [Hsort Hmin].
  apply Forall_cons in Hfut as [Hnow _].
  destruct (dispatch_frame _ _ _ _ _ Hd) as (Hc & _ & _). simpl in Hc.
  split; [|now rewrite Hc].
  eapply (dispatch_times random cfg e); [exact Hnn | | exact Hd].
  constructor; simpl; assumption.
Qed.

Lemma initialState_times (random : nat -> Q) (cfg : Config) (s : Simulation) :
  nonNegDurations cfg ->
  initialState random cfg = Some s ->
  TimeInv s /\ clock s = 0.
Proof.
  intros Hnn H. pose proof (initialState_numTrucks random cfg s H) as Hn.
  destruct (isProblemSpecific cfg) eqn:Hsp.
  - destruct (initialState_specific random cfg s Hsp H)
      as (t1 & t2 & t3 & H1 & H2 & H3 & ->).
    apply (sample_nonneg _ _ _ _ Hnn) in H1, H2, H3.
    split; [|reflexivity]. unfold specificStart. constructor; simpl.
    + apply pushAndSort_sorted.
    + rewrite !pushAndSort_Forall. simpl.
      repeat split; try apply Qle_plus_nonneg; try assumption. constructor.
  - rewrite (initialState_general random cfg Hsp Hn) in H. injection H as <-.
    split; [|reflexivity]. constructor; simpl.
    + apply arrivals_sorted.
    + apply Forall_forall. intros x Hx.
      apply list_elem_of_In, in_map_iff in Hx as (i & <- & _). simpl. apply Qle_refl.
Qed.

Lemma Reachable_times (random : nat -> Q) (cfg : Config) (s : Simulation) (last : Q) :
  nonNegDurations cfg ->
  Reachable random cfg s last -> TimeInv s /\ 0 <= clock s.
Proof.
  intros Hnn. induction 1 as [s H | s last s' last' _ [IH IH0] Hstep].
  - destruct (initialState_times random cfg s Hnn H) as [Ht ->].
    split; [exact Ht | apply Qle_refl].
  - destruct (loopBody_times random cfg s last s' last' Hnn IH Hstep) as [Ht Hle].
    split; [exact Ht | now apply Qle_trans with (clock s)].
Qed.

Lemma eventTimes_sorted (random : nat -> Q) (cfg : Config) (fuel : nat)
    (s : Simulation) (last : Q) :
  nonNegDurations cfg ->
  TimeInv s ->
  StronglySorted Qle (clock s :: eventTimes random cfg fuel s last).
Proof.
  intros Hnn. revert s last. induction fuel as [|fuel IH]; intros s last Ht; simpl.
  - repeat constructor.
  - destruct (loopBody random cfg s last) as [[s' last'|s' last']|] eqn:E;
      [ | repeat constructor | repeat constructor ].
    destruct (loopBody_times random cfg s last s' last' Hnn Ht E) as [Ht' Hle].
    specialize (IH s' last' Ht'). constructor; [exact IH|].
    apply StronglySorted_inv in IH as [_ Hall].
    constructor; [exact Hle|].
    eapply Forall_impl; [exact Hall|].
    intros x Hx. simpl in Hx. now apply Qle_trans with (clock s').
Qed.

(** C9 (as amended). In every run whose tables hold no negative
    duration, an event-processing step never moves the clock backwards,
    and the sequence of the event times processed by the loop is
    non-decreasing (and starts at or after time 0). *)
Theorem clock_monotone (random : nat -> Q) (cfg : Config) :
  nonNegDurations cfg ->
  (forall s last s' last',
     Reachable random cfg s last ->
     loopBody random cfg s last = Some (Continue s' last') ->
     clock s <= clock s') /\
  (forall fuel, StronglySorted Qle (0 :: eventTimesOfRun random cfg fuel)).
Proof.
  intros Hnn. split.
  - intros s last s' last' Hr Hstep.
    destruct (Reachable_times random cfg s last Hnn Hr) as [Ht _].
    apply (loopBody_times random cfg s last s' last' Hnn Ht Hstep).
  - intros fuel. unfold eventTimesOfRun.
    destruct (initialState random cfg) as [s|] eqn:E; [|repeat constructor].
    destruct (initialState_times random cfg s Hnn E) as [Ht Hc].
    rewrite <- Hc. now apply eventTimes_sorted.
Qed.

Lemma demoConfig_nonNeg : nonNegDurations demoConfig.
Proof.
  intros ty. destruct ty; simpl; repeat constructor; simpl; discriminate.
Qed.

Lemma clock_monotone_witness :
  clock (demoState 2) <= clock (demoState 3) /\
  StronglySorted Qle (0 :: eventTimesOfRun demoRandom demoConfig 6).
Proof.
  destruct (clock_monotone demoRandom demoConfig demoConfig_nonNeg) as [Hstep Hsorted].
  split; [|apply Hsorted].
  apply (Hstep (demoState 2) (demoLast 2) (demoState 3) (demoLast 3)).
  - apply demoState_Reachable. vm_compute. discriminate.
  - vm_compute. reflexivity.
Defined.

Example demo_event_times :
  eventTimesOfRun demoRandom demoConfig 6 = [0; 0; 5; 10; 17; 29].
Proof. vm_compute. reflexivity. Qed.

(** C9, counterexample.  The table with the single line [-100, 1] is
    accepted by the parser and by the construction; with it as travel
    table the loop processes events at times 0, 5, 10 and then -90. *)
Lemma clock_goes_backwards :
  validConfig backwardsConfig /\
  loadDistribution [Fields [Some (-100); Some 1]] = Ok (cumProbs backwardsConfig travel) /\
  eventTimesOfRun demoRandom backwardsConfig 4 = [0; 5; 10; -90] /\
  ~ StronglySorted Qle (eventTimesOfRun demoRandom backwardsConfig 4).
Proof.
  split; [unfold validConfig, maxArrayLength; simpl; lia|].
  split; [reflexivity|].
  assert (Heq : eventTimesOfRun demoRandom backwardsConfig 4 = [0; 5; 10; -90])
    by (vm_compute; reflexivity).
  split; [exact Heq|].
  rewrite Heq. intros Hs.
  apply StronglySorted_inv in Hs as [_ H0].
  apply Forall_cons in H0 as [_ H0].
  apply Forall_cons in H0 as [_ H0].
  apply Forall_cons in H0 as [H0 _].
  revert H0. unfold Qle. simpl. lia.
Qed.

(** ** Final statistics and the zero-horizon scenario *)

Lemma loop_Finished (random : nat -> Q) (cfg : Config) (fuel : nat)
    (s : Simulation) (last : Q) (s' : Simulation) (last' : Q) :
  Reachable random cfg s last ->
  loop random cfg fuel s last = Finished (s', last') ->
  exists sN lastN,
    Reachable random cfg sN lastN /\
    loopBody random cfg sN lastN = Some (Done s' last').
Proof.
  revert s last. induction fuel as [|fuel IH]; intros s last Hr; simpl; [discriminate|].
  destruct (loopBody random cfg s last) as [[s1 last1|s1 last1]|] eqn:E;
    [ | | discriminate].
  - apply IH. now apply (reach_step random cfg s last).
  - intros [= <- <-]. now exists s, last.
Qed.

(** In a valid configuration some event is always pending: a truck that
    has none is in a queue, so a server is busy and its completion is
    pending. *)
Lemma FEL_nonempty (cfg : Config) (s : Simulation) :
  validConfig cfg -> ResourceInv cfg s -> EventInv cfg s -> FEL s <> [].
Proof.
  intros (Hn & Hl & Hs) [] [_ _ HL HW Htok] Hfel.
  rewrite Hfel in *. simpl in *. lia.
Qed.

(** A run of a valid configuration can only end at the horizon. *)
Lemma run_totalTime (random : nat -> Q) (cfg : Config) (fuel : nat)
    (stats : FinalStats) :
  validConfig cfg ->
  run random cfg fuel = Finished stats ->
  totalTime stats = maxSimTime cfg.
Proof.
  intros Hvalid. pose proof Hvalid as (Hn & Hl & Hs). unfold run.
  destruct (initialState random cfg) as [s0|] eqn:Hinit; [|discriminate].
  destruct (loop random cfg fuel s0 0) as [[s last]| |] eqn:Hloop; try discriminate.
  intros [= <-]. simpl.
  destruct (finalUpdate_frame s last) as (_&_&_&_&_&_&_&->&_).
  destruct (loop_Finished random cfg fuel s0 0 s last) as (sN & lastN & Hr & Hd);
    [now apply reach_init | exact Hloop |].
  apply loopBody_Done in Hd as (_ & [(Hempty & _) | (e & rest & _ & _ & ->)]);
    [|reflexivity].
  exfalso. destruct (Reachable_inv random cfg sN lastN) as [HR HE]; [lia | lia | exact Hr |].
  now apply (FEL_nonempty cfg sN).
Qed.

Lemma getFinalStats_zero (cfg : Config) (s : Simulation) :
  clock s == 0 ->
  loaderUtilization (getFinalStats cfg s) = 0 /\
  scaleUtilization (getFinalStats cfg s) = 0.
Proof.
  intros Hc. unfold getFinalStats. simpl.
  assert (H1 : Qgtb (inject_Z (numLoaders cfg) * clock s) 0 = false).
  { apply Qgtb_false. rewrite Hc. lra. }
  assert (H2 : Qgtb (inject_Z (numScales cfg) * clock s) 0 = false).
  { apply Qgtb_false. rewrite Hc. lra. }
  now rewrite H1, H2.
Qed.

Lemma countDue_perm (h : Q) (l l' : list Event) :
  Permutation l l' -> countDue h l = countDue h l'.
Proof. induction 1; simpl; lia. Qed.

Lemma countDue_pushAndSort (h : Q) (e : Event) (fel : list Event) :
  countDue h (pushAndSort e fel)
  = ((if Qle_bool (time e) h then 1 else 0) + countDue h fel)%nat.
Proof. now rewrite (countDue_perm h _ _ (pushAndSort_perm e fel)). Qed.

Lemma countDue_le_length (h : Q) (l : list Event) : (countDue h l <= length l)%nat.
Proof.
  induction l as [|x rest IH]; simpl; [lia|]. destruct (Qle_bool (time x) h); lia.
Qed.

(** Handling an arrival at the horizon, with positive durations, adds no
    event that is due. *)
Lemma handleALQ_due (random : nat -> Q) (cfg : Config) (e : Event)
    (s s' : Simulation) :
  posDurations cfg ->
  maxSimTime cfg <= clock s ->
  DueInv cfg s ->
  handleALQ random cfg e s = Some (tt, s') ->
  DueInv cfg s' /\ countDue (maxSimTime cfg) (FEL s') = countDue (maxSimTime cfg) (FEL s).
Proof.
  intros Hpos Hclock Hdue H. unfold handleALQ in H. inv_run H; simpl in *.
  - apply (sample_pos _ _ _ _ Hpos) in Hsample.
    assert (Hlate : maxSimTime cfg < clock s + a2) by lra.
    split.
    + unfold DueInv. simpl. rewrite pushAndSort_Forall. split; [|exact Hdue].
      simpl. split; [lra | intros Hle; lra].
    + rewrite countDue_pushAndSort. simpl.
      destruct (Qle_bool (clock s + a2) (maxSimTime cfg)) eqn:E; [|reflexivity].
      apply Qle_bool_iff in E. lra.
  - split; [exact Hdue | reflexivity].
Qed.

Section ZeroHorizon.

Variable random : nat -> Q.
Variable cfg : Config.
Hypothesis Htab : tablesNonEmpty cfg.
Hypothesis Hpos : posDurations cfg.

Lemma loop_terminates (fuel : nat) (s : Simulation) (last : Q) :
    ResourceInv cfg s -> EventInv cfg s -> DueInv cfg s ->
    (countDue (maxSimTime cfg) (FEL s) < fuel)%nat ->
    exists r, loop random cfg fuel s last = Finished r.
  Proof using Htab Hpos.
    revert s last. induction fuel as [|fuel IH]; intros s last HR HE HD Hlt; [lia|].
    simpl.
    pose proof (loopBody_progress random cfg s last Htab HR HE) as Hprog.
    destruct (loopBody random cfg s last) as [[s1 last1|s1 last1]|] eqn:E;
      [ | eexists; reflexivity | contradiction ].
    destruct (loopBody_inv random cfg s last s1 last1 HR HE E) as [HR1 HE1].
    apply loopBody_Continue in E as (e & rest & Hfel & Hle & -> & Hd).
    unfold DueInv in HD. rewrite Hfel in HD, Hlt.
    apply Forall_cons in HD as [[Hge Halq] HD].
    specialize (Halq Hle). unfold dispatch in Hd. rewrite Halq in Hd.
    apply handleALQ_due in Hd as [HD1 Hcount]; [ | exact Hpos | exact Hge | exact HD ].
    simpl in Hcount, Hlt.
    apply Qle_bool_iff in Hle. rewrite Hle in Hlt.
    apply IH; try assumption. lia.
  Qed.

Lemma initialState_due (s : Simulation) :
    maxSimTime cfg == 0 ->
    initialState random cfg = Some s ->
    DueInv cfg s /\ (countDue (maxSimTime cfg) (FEL s) <= Z.to_nat (numTrucks cfg))%nat.
  Proof using Hpos.
    intros Hh H. pose proof (initialState_numTrucks random cfg s H) as Hn.
    destruct (isProblemSpecific cfg) eqn:Hsp.
    - destruct (initialState_specific random cfg s Hsp H)
        as (t1 & t2 & t3 & H1 & H2 & H3 & ->).
      apply (sample_pos _ _ _ _ Hpos) in H1, H2, H3.
      destruct (isProblemSpecific_true cfg Hsp) as (-> & _ & _).
      unfold specificStart, DueInv. simpl FEL. split.
      + rewrite !pushAndSort_Forall. simpl.
        repeat split; try lra; try (intros ?; lra). constructor.
      + pose proof (countDue_le_length (maxSimTime cfg)
                      (pushAndSort (mkEvent (0 + t3) EW 6)
                         (pushAndSort (mkEvent (0 + t2) EL 2)
                            (pushAndSort (mkEvent (0 + t1) EL 1) [])))) as Hc.
        rewrite !pushAndSort_length in Hc. simpl in Hc. lia.
    - rewrite (initialState_general random cfg Hsp Hn) in H. injection H as <-.
      unfold DueInv. simpl FEL. split.
      + apply Forall_forall. intros x Hx.
        apply list_elem_of_In, in_map_iff in Hx as (i & <- & _). simpl.
        split; [lra | reflexivity].
      + pose proof (countDue_le_length (maxSimTime cfg)
                      (map (mkEvent 0 ALQ) (truckIds cfg))) as Hc.
        rewrite length_map, truckIds_length in Hc. exact Hc.
  Qed.

End ZeroHorizon.

(** C8 (as amended). [getFinalStats] reports the clock as total time and,
    for each resource, the busy-time integral divided by capacity times
    total time, as a percentage, when that product is positive, and 0
    otherwise; so it returns 0 for both when the total time is 0.  With a
    valid configuration and horizon 0, every run that returns yields total
    time 0 and both utilizations 0, and the run does return, within
    [numTrucks + 1] evaluations of the loop, when every duration of the
    tables is strictly positive. *)
Theorem final_stats_zero_horizon (random : nat -> Q) (cfg : Config) :
  (forall s,
     totalTime (getFinalStats cfg s) = clock s /\
     loaderUtilization (getFinalStats cfg s)
     = (if Qgtb (inject_Z (numLoaders cfg) * clock s) 0
        then loaderBusyTime s / (inject_Z (numLoaders cfg) * clock s) * 100
        else 0) /\
     scaleUtilization (getFinalStats cfg s)
     = (if Qgtb (inject_Z (numScales cfg) * clock s) 0
        then scaleBusyTime s / (inject_Z (numScales cfg) * clock s) * 100
        else 0)) /\
  (forall s,
     clock s == 0 ->
     loaderUtilization (getFinalStats cfg s) = 0 /\
     scaleUtilization (getFinalStats cfg s) = 0) /\
  (validConfig cfg -> maxSimTime cfg == 0 ->
   forall fuel stats,
     run random cfg fuel = Finished stats ->
     totalTime stats == 0 /\ loaderUtilization stats = 0 /\ scaleUtilization stats = 0) /\
  (validConfig cfg -> maxSimTime cfg == 0 ->
   tablesNonEmpty cfg -> posDurations cfg ->
   forall fuel,
     (Z.to_nat (numTrucks cfg) < fuel)%nat ->
     exists stats,
       run random cfg fuel = Finished stats /\
       totalTime stats == 0 /\ loaderUtilization stats = 0 /\ scaleUtilization stats = 0).
Proof.
  assert (Hpartial :
    validConfig cfg -> maxSimTime cfg == 0 ->
    forall fuel stats,
      run random cfg fuel = Finished stats ->
      totalTime stats == 0 /\ loaderUtilization stats = 0 /\ scaleUtilization stats = 0).
  { intros Hvalid Hh fuel stats Hrun.
    pose proof (run_totalTime random cfg fuel stats Hvalid Hrun) as Htot.
    split; [now rewrite Htot|].
    unfold run in Hrun.
    destruct (initialState random cfg) as [s0|]; [|discriminate].
    destruct (loop random cfg fuel s0 0) as [[s last]| |]; try discriminate.
    injection Hrun as <-. apply getFinalStats_zero.
    simpl in Htot. now rewrite Htot. }
  split; [intros s; repeat split|].
  split; [intros s; apply getFinalStats_zero|].
  split; [exact Hpartial|].
  intros Hvalid Hh Htab Hpos fuel Hfuel.
  pose proof Hvalid as (Hn & Hl & Hs).
  destruct (initialState random cfg) as [s0|] eqn:Hinit;
    [| exfalso; apply (initialState_progress random cfg Htab) in Hinit; [exact Hinit | lia]].
  destruct (initialState_inv random cfg s0) as [HR HE]; [lia | lia | exact Hinit |].
  destruct (initialState_due random cfg Hpos s0 Hh Hinit) as [HD Hcount].
  destruct (loop_terminates random cfg Htab Hpos fuel s0 0 HR HE HD) as [[s last] Hloop];
    [lia|].
  assert (Hrun : run random cfg fuel = Finished (getFinalStats cfg (finalUpdate s last))).
  { unfold run. now rewrite Hinit, Hloop. }
  eexists. split; [exact Hrun|]. now apply (Hpartial Hvalid Hh fuel).
Qed.

Lemma zeroConfig_valid : validConfig zeroConfig.
Proof. unfold validConfig, maxArrayLength. simpl. lia. Qed.

Lemma final_stats_zero_horizon_witness :
  exists stats,
    run demoRandom zeroConfig 3 = Finished stats /\
    totalTime stats == 0 /\ loaderUtilization stats = 0 /\ scaleUtilization stats = 0.
Proof.
  apply (proj2 (proj2 (proj2 (final_stats_zero_horizon demoRandom zeroConfig)))).
  - exact zeroConfig_valid.
  - reflexivity.
  - intros ty. destruct ty; discriminate.
  - intros ty. destruct ty; simpl; repeat constructor.
  - simpl. lia.
Defined.

Example zero_horizon_run :
  run demoRandom zeroConfig 3 = Finished (mkStats 0 0 0).
Proof. vm_compute. reflexivity. Qed.

Lemma loop_Continue (random : nat -> Q) (cfg : Config) (fuel : nat)
    (s : Simulation) (last : Q) (s' : Simulation) (last' : Q) :
  loopBody random cfg s last = Some (Continue s' last') ->
  loop random cfg (S fuel) s last = loop random cfg fuel s' last'.
Proof. intros H. simpl. now rewrite H. Qed.

(** The run of [stuckConfig] cycles through three states in which the
    clock stays at the horizon. *)
Lemma stuck_cycle (fuel : nat) :
  forall d ph,
    loop demoRandom stuckConfig fuel (stuckArriving d ph) 0 = OutOfFuel /\
    loop demoRandom stuckConfig fuel (stuckLoading d) 0 = OutOfFuel /\
    loop demoRandom stuckConfig fuel (stuckWeighing d) 0 = OutOfFuel.
Proof.
  induction fuel as [|fuel IH]; intros d ph; [repeat split|].
  assert (HA : loopBody demoRandom stuckConfig (stuckArriving d ph) 0
               = Some (Continue (stuckLoading (S d)) 0)) by (vm_compute; reflexivity).
  assert (HB : loopBody demoRandom stuckConfig (stuckLoading d) 0
               = Some (Continue (stuckWeighing (S d)) 0)) by (vm_compute; reflexivity).
  assert (HC : loopBody demoRandom stuckConfig (stuckWeighing d) 0
               = Some (Continue (stuckArriving (S d) TRAVELING) 0))
    by (vm_compute; reflexivity).
  rewrite (loop_Continue _ _ _ _ _ _ _ HA), (loop_Continue _ _ _ _ _ _ _ HB),
    (loop_Continue _ _ _ _ _ _ _ HC).
  destruct (IH (S d) TRAVELING) as (IA & IB & IC). now repeat split.
Qed.

(** C8, counterexample.  The text [0, 1] is a valid distribution; with it
    for the three tables and horizon 0 the loop never ends, whatever the
    number of evaluations allowed: the run yields no statistics. *)
Lemma zero_horizon_run_never_returns :
  validConfig stuckConfig /\
  maxSimTime stuckConfig == 0 /\
  (forall ty, loadDistribution [Fields [Some 0; Some 1]] = Ok (cumProbs stuckConfig ty)) /\
  ~ (exists fuel stats, run demoRandom stuckConfig fuel = Finished stats).
Proof.
  split; [unfold validConfig, maxArrayLength; simpl; lia|].
  split; [reflexivity|].
  split; [intros ty; destruct ty; reflexivity|].
  intros (fuel & stats & Hrun). unfold run in Hrun.
  assert (Hinit : initialState demoRandom stuckConfig = Some (stuckArriving 0 IDLE))
    by reflexivity.
  rewrite Hinit in Hrun.
  destruct (stuck_cycle fuel 0%nat IDLE) as (HA & _ & _).
  rewrite HA in Hrun. discriminate.
Qed.

(** * Further properties of the code *)

(** ** The parser *)

Lemma lineError_None_items (line : Line) :
  lineError line = None ->
  Forall (fun item => 0 <= Dist.prob item /\ Dist.prob item <= 1) (lineItems line).
Proof.
  destruct line as [|[|[t|] [|[p|] [|? ?]]]]; simpl; try discriminate;
    try (intros _; apply Forall_nil_2).
  destruct (Qltb p 0) eqn:Hlo; [discriminate|].
  destruct (Qgtb p 1) eqn:Hhi; [discriminate|]. intros _.
  repeat constructor; simpl; [now apply Qltb_false | now apply Qgtb_false].
Qed.

Lemma parseDistribution_cons (line : Line) (rest : list Line) :
  parseDistribution (line :: rest)
  = match lineError line with
    | Some e => Err e
    | None =>
        match parseDistribution rest with
        | Ok dist => Ok (lineItems line ++ dist)
        | Err e => Err e
        end
    end.
Proof.
  destruct line as [|[|[t|] [|[p|] [|? ?]]]]; simpl; try reflexivity.
  - now destruct (parseDistribution rest).
  - now destruct (Qltb p 0 || Qgtb p 1).
Qed.

(** X1. [parseDistribution] succeeds exactly when no line offends, that
    is when every line is blank or has two numeric fields with the
    probability in [0, 1]; it then returns the items of the non-blank
    lines, in the order of the lines. *)
Theorem parseDistribution_Ok_iff (lines : list Line) (dist : list Dist.item) :
  parseDistribution lines = Ok dist
  <-> Forall (fun line => lineError line = None) lines /\
      dist = concat (map lineItems lines).
Proof.
  revert dist. induction lines as [|line rest IH]; intros dist.
  - simpl. split; [intros [= <-]; split; [constructor | reflexivity] | now intros [_ ->]].
  - rewrite parseDistribution_cons. simpl concat.
    destruct (lineError line) as [e|] eqn:He.
    + split; [discriminate|]. intros [Hall _].
      apply Forall_cons in Hall as [Hl _]. congruence.
    + destruct (parseDistribution rest) as [d|e] eqn:Hrest.
      * split.
        -- intros [= <-]. destruct (proj1 (IH d) eq_refl) as [Hall ->].
           split; [now constructor | reflexivity].
        -- intros [Hall ->]. apply Forall_cons in Hall as [_ Hall].
           pose proof (proj2 (IH _) (conj Hall eq_refl)) as Hd.
           injection Hd as ->. reflexivity.
      * split; [discriminate|]. intros [Hall _].
        apply Forall_cons in Hall as [_ Hall].
        pose proof (proj2 (IH _) (conj Hall eq_refl)) as Hok. discriminate.
Qed.

(** X2. The first offending line decides the error: after any number of
    acceptable lines, a line that offends makes [parseDistribution] throw
    the error of that line, whatever follows it; and a failure always
    comes from such a line. *)
Theorem parseDistribution_Err_iff (lines : list Line) (e : ErrorKind) :
  parseDistribution lines = Err e
  <-> exists good bad rest,
        lines = good ++ bad :: rest /\
        Forall (fun line => lineError line = None) good /\
        lineError bad = Some e.
Proof.
  revert e. induction lines as [|line rest IH]; intros e.
  - simpl. split; [discriminate|].
    intros (good & bad & rest' & H & _). now destruct good.
  - rewrite parseDistribution_cons.
    destruct (lineError line) as [e'|] eqn:He.
    + split.
      * intros [= <-]. exists [], line, rest. repeat split; [constructor | exact He].
      * intros (good & bad & rest' & H & Hgood & Hbad).
        destruct good as [|g good]; simpl in H; injection H as <- ->.
        -- congruence.
        -- apply Forall_cons in Hgood as [Hg _]. congruence.
    + destruct (parseDistribution rest) as [d|e0] eqn:Hrest.
      * split; [discriminate|].
        intros (good & bad & rest' & H & Hgood & Hbad).
        destruct good as [|g good]; simpl in H; injection H as <- ->; [congruence|].
        apply Forall_cons in Hgood as [_ Hgood].
        assert (Herr : Ok d = Err e) by (apply IH; now exists good, bad, rest').
        discriminate.
      * split.
        -- intros [= <-]. destruct (proj1 (IH e0) eq_refl)
             as (good & bad & rest' & -> & Hgood & Hbad).
           exists (line :: good), bad, rest'. repeat split; [now constructor | exact Hbad].
        -- intros (good & bad & rest' & H & Hgood & Hbad).
           destruct good as [|g good]; simpl in H; injection H as <- ->; [congruence|].
           apply Forall_cons in Hgood as [_ Hgood].
           f_equal. assert (Herr : Err e0 = Err e) by (apply IH; now exists good, bad, rest').
           now injection Herr.
Qed.

(** X3. Blank lines are ignored: removing them changes neither the result
    nor the error. *)
Theorem parseDistribution_skips_blank (lines : list Line) :
  parseDistribution (List.filter (fun line => negb (isBlank line)) lines)
  = parseDistribution lines.
Proof.
  induction lines as [|line rest IH]; [reflexivity|].
  destruct line as [|parts].
  - simpl. exact IH.
  - cbn [List.filter isBlank negb]. rewrite !parseDistribution_cons, IH. reflexivity.
Qed.

Example parseDistribution_loading :
  parseDistribution loadingLines = Ok loadingDist.
Proof. reflexivity. Qed.

(** ** Cumulative tables and the sampler together *)

Lemma cumFrom_times (c : Q) (dist : list Dist.item) :
  map Cum.time (cumFrom c dist) = map Dist.time dist.
Proof.
  revert c. induction dist as [|item rest IH]; intros c; simpl; [|rewrite IH]; reflexivity.
Qed.

Lemma pinLast_times (tbl : list Cum.entry) :
  map Cum.time (pinLast tbl) = map Cum.time tbl.
Proof.
  unfold pinLast. destruct (last tbl) as [e|] eqn:El; [|reflexivity].
  rewrite last_lookup in El.
  change (map Cum.time) with (fmap (M := list) Cum.time).
  rewrite list_fmap_insert. simpl.
  apply list_insert_id. rewrite list_lookup_fmap, El. reflexivity.
Qed.

Lemma createCumulativeTable_Ok (dist : list Dist.item) (tbl : list Cum.entry) :
  createCumulativeTable dist = Ok tbl ->
  tbl = pinLast (cumFrom 0 dist) /\ dist <> [].
Proof.
  unfold createCumulativeTable. destruct (Qgtb _ _) eqn:E; [discriminate|].
  intros [= <-]. rewrite cumLoop_eq. split; [reflexivity|].
  intros ->. vm_compute in E. discriminate.
Qed.

Lemma pinLast_last (tbl : list Cum.entry) :
  tbl <> [] -> exists e, last (pinLast tbl) = Some e /\ Cum.cum_prob e = 1.
Proof.
  intros Hne. destruct (last_is_Some tbl Hne) as [e He].
  rewrite last_lookup in He.
  exists (Cum.mk (Cum.time e) 1). split; [|reflexivity].
  rewrite last_lookup, pinLast_length. now apply pinLast_lookup_last.
Qed.

Lemma createCumulativeTable_last (dist : list Dist.item) (tbl : list Cum.entry) :
  createCumulativeTable dist = Ok tbl ->
  exists e, last tbl = Some e /\ Cum.cum_prob e = 1.
Proof.
  intros H. apply createCumulativeTable_Ok in H as [-> Hne].
  apply pinLast_last. intros Hc.
  apply (f_equal (@length _)) in Hc. rewrite cumFrom_length in Hc.
  destruct dist; [contradiction | discriminate].
Qed.

(** X4. Whenever [createCumulativeTable] accepts a distribution (whatever
    its sum within the tolerance), the table is not empty, lists the times
    of the distribution in the same order, and ends with the cumulative
    probability 1 exactly. *)
Theorem createCumulativeTable_times (dist : list Dist.item) (tbl : list Cum.entry) :
  createCumulativeTable dist = Ok tbl ->
  map Cum.time tbl = map Dist.time dist /\
  exists e, last tbl = Some e /\ Cum.cum_prob e = 1.
Proof.
  intros H. split; [|now apply createCumulativeTable_last with dist].
  apply createCumulativeTable_Ok in H as [-> _].
  now rewrite pinLast_times, cumFrom_times.
Qed.

Lemma createCumulativeTable_times_witness :
  map Cum.time [Cum.mk 5 (double 0.3); Cum.mk 10 (double 0.8); Cum.mk 15 1]
  = map Dist.time loadingDist /\
  exists e, last [Cum.mk 5 (double 0.3); Cum.mk 10 (double 0.8); Cum.mk 15 1] = Some e /\
            Cum.cum_prob e = 1.
Proof.
  apply (createCumulativeTable_times loadingDist). vm_compute. reflexivity.
Defined.

Lemma scanTable_finds (r : Q) (tbl : list Cum.entry) (e : Cum.entry) :
  In e tbl -> r <= Cum.cum_prob e -> exists t, scanTable r tbl = Some t.
Proof.
  induction tbl as [|x rest IH]; simpl; [contradiction|].
  intros [-> | Hin] Hle.
  - apply Qle_bool_iff in Hle. rewrite Hle. now eexists.
  - destruct (Qle_bool r (Cum.cum_prob x)); [now eexists | now apply IH].
Qed.

(** X5. On a table built by [createCumulativeTable], a draw [r <= 1] (as
    are all values of [Math.random()]) is always served by the scan: the
    fallback to the last entry is not reached, and the sample is one of
    the times of the distribution. *)
Theorem sample_on_built_table (dist : list Dist.item) (tbl : list Cum.entry) (r : Q) :
  createCumulativeTable dist = Ok tbl ->
  r <= 1 ->
  exists t,
    scanTable r tbl = Some t /\
    sampleTable r tbl = Some t /\
    In t (map Dist.time dist).
Proof.
  intros H Hr.
  destruct (createCumulativeTable_last dist tbl H) as (e & He & Hone).
  assert (Htimes : map Cum.time tbl = map Dist.time dist).
  { apply createCumulativeTable_Ok in H as [-> _].
    now rewrite pinLast_times, cumFrom_times. }
  destruct (scanTable_finds r tbl e) as [t Ht];
    [now apply last_In | rewrite Hone; exact Hr |].
  exists t. split; [exact Ht|].
  assert (Hs : sampleTable r tbl = Some t) by (unfold sampleTable; now rewrite Ht).
  split; [exact Hs|]. rewrite <- Htimes. now apply sampleTable_In with r.
Qed.

Lemma sample_on_built_table_witness :
  exists t,
    scanTable (9 # 10) [Cum.mk 5 (double 0.3); Cum.mk 10 (double 0.8); Cum.mk 15 1]
    = Some t /\
    sampleTable (9 # 10) [Cum.mk 5 (double 0.3); Cum.mk 10 (double 0.8); Cum.mk 15 1]
    = Some t /\
    In t (map Dist.time loadingDist).
Proof.
  apply (sample_on_built_table loadingDist); [vm_compute; reflexivity | discriminate].
Defined.

(** ** [addEvent] *)

(** X7. [addEvent] never throws and touches only the event list: the new
    list holds the old events and the new one, and is sorted by time,
    also when the list it was given was not. *)
Theorem addEvent_sorts (event : Event) (s : Simulation) :
  exists s',
    addEvent event s = Some (tt, s') /\
    Permutation (FEL s') (event :: FEL s) /\
    StronglySorted TimeLe (FEL s') /\
    s' = set_FEL (FEL s') s.
Proof.
  exists (set_FEL (pushAndSort event (FEL s)) s). split; [reflexivity|]. simpl.
  split; [apply pushAndSort_perm|]. split; [apply pushAndSort_sorted | reflexivity].
Qed.

Lemma insertEvent_front (x : Event) (l : list Event) :
  Forall (TimeLe x) l -> insertEvent x l = x :: l.
Proof.
  destruct l as [|y l]; [reflexivity|]. intros H. apply Forall_cons in H as [Hy _].
  simpl. apply Qle_bool_iff in Hy. now rewrite Hy.
Qed.

Lemma pushAndSort_cons (e x : Event) (rest : list Event) :
  pushAndSort e (x :: rest) = insertEvent x (pushAndSort e rest).
Proof. reflexivity. Qed.

(** X8. On a sorted list, the event pushed by [addEvent] goes behind every
    pending event that is not later than it and in front of every later
    one, and the pending events keep their order: events of equal time
    are processed in the order in which they were scheduled. *)
Theorem addEvent_stable (e : Event) (fel : list Event) :
  StronglySorted TimeLe fel ->
  exists before after,
    fel = before ++ after /\
    pushAndSort e fel = before ++ e :: after /\
    Forall (fun x => time x <= time e) before /\
    Forall (fun x => time e < time x) after.
Proof.
  induction fel as [|x rest IH]; intros Hs.
  - exists [], []. repeat split; constructor.
  - apply StronglySorted_inv in Hs as [Hrest Hx].
    destruct (IH Hrest) as (before & after & Hsplit & Hpush & Hb & Ha).
    rewrite pushAndSort_cons, Hpush.
    destruct (Qlt_le_dec (time e) (time x)) as [Hlt | Hle].
    + assert (Hnil : before = []).
      { destruct before as [|b before]; [reflexivity|]. exfalso.
        apply Forall_cons in Hb as [Hb _].
        rewrite Hsplit in Hx. apply Forall_cons in Hx as [Hxb _].
        unfold TimeLe in Hxb. lra. }
      subst before. simpl in Hsplit. subst after.
      exists [], (x :: rest). simpl. repeat split; try constructor; try assumption.
      assert (Hno : Qle_bool (time x) (time e) = false).
      { apply not_true_iff_false. rewrite Qle_bool_iff. lra. }
      rewrite Hno. f_equal. now apply insertEvent_front.
    + exists (x :: before), after. rewrite Hsplit. simpl.
      repeat split; try assumption; [|now constructor].
      apply insertEvent_front.
      rewrite Hsplit in Hx. apply Forall_app in Hx as [Hxb Hxa].
      apply Forall_app. split; [exact Hxb|]. constructor; [exact Hle | exact Hxa].
Qed.

Lemma addEvent_stable_witness :
  exists before after,
    [mkEvent 0 ALQ 1; mkEvent 5 EL 2; mkEvent 7 EW 3] = before ++ after /\
    pushAndSort (mkEvent 5 EW 4) [mkEvent 0 ALQ 1; mkEvent 5 EL 2; mkEvent 7 EW 3]
    = before ++ mkEvent 5 EW 4 :: after /\
    Forall (fun x => time x <= 5) before /\
    Forall (fun x => 5 < time x) after.
Proof.
  apply (addEvent_stable (mkEvent 5 EW 4)).
  repeat constructor; unfold TimeLe; simpl; discriminate.
Defined.

Example addEvent_tie :
  pushAndSort (mkEvent 5 EW 4) [mkEvent 0 ALQ 1; mkEvent 5 EL 2; mkEvent 7 EW 3]
  = [mkEvent 0 ALQ 1; mkEvent 5 EL 2; mkEvent 5 EW 4; mkEvent 7 EW 3].
Proof. reflexivity. Qed.

(** ** The handlers of arrivals and of the end of weighing *)

Ltac solve_lookup :=
  repeat match goal with
         | Hi : arrayIndex _ = Some _ |- _ => apply arrayIndex_Some in Hi; subst
         end;
  repeat match goal with
         | Ht : _ !! _ = Some _ |- _ =>
             let Hlt := fresh "Hlt" in
             pose proof (lookup_lt_Some _ _ _ Ht) as Hlt;
             rewrite ?length_insert in Hlt; revert Ht
         end;
  intros;
  rewrite ?list_lookup_insert_eq by (rewrite ?length_insert; assumption).

(** X9. In a well-formed state an arrival never throws.  If a loader is
    free the truck starts loading: [L] grows by one, one loading time is
    drawn and the truck's [EL] is scheduled at the clock plus that time;
    otherwise [LQ] grows by one and the truck goes to the tail of the
    loader queue, without any draw or event.  In both cases only the
    arriving truck changes phase, and the scale side is untouched. *)
Theorem handleALQ_effect (random : nat -> Q) (cfg : Config)
    (e : Event) (s : Simulation) :
  tablesNonEmpty cfg ->
  ResourceInv cfg s ->
  validId cfg (truckId e) ->
  exists s' t',
    handleALQ random cfg e s = Some (tt, s') /\
    clock s' = clock s /\
    (W s', WQ s', weigherQueue s') = (W s, WQ s, weigherQueue s) /\
    trucks s' !! Z.to_nat (truckId e - 1) = Some t' /\
    (forall k, k <> Z.to_nat (truckId e - 1) -> trucks s' !! k = trucks s !! k) /\
    ((L s < numLoaders cfg)%Z ->
     exists tl,
       sampleTable (random (draws s)) (cumProbs cfg loading) = Some tl /\
       state t' = LOADING /\
       L s' = (L s + 1)%Z /\ LQ s' = LQ s /\ loaderQueue s' = loaderQueue s /\
       FEL s' = pushAndSort (mkEvent (clock s + tl) EL (truckId e)) (FEL s) /\
       draws s' = S (draws s)) /\
    ((numLoaders cfg <= L s)%Z ->
     state t' = IN_LQ /\
     L s' = L s /\ LQ s' = (LQ s + 1)%Z /\
     loaderQueue s' = loaderQueue s ++ [truckId e] /\
     FEL s' = FEL s /\ draws s' = draws s).
Proof.
  intros Htab HR Hid.
  destruct (handleALQ random cfg e s) as [[[] s']|] eqn:H;
    [| exfalso; now apply (handleALQ_progress random cfg e s)].
  unfold handleALQ in H. inv_run H; bool_to_prop; simpl in *.
  all: solve_lookup.
  all: eexists; eexists; split; [reflexivity|]; simpl.
  all: split; [reflexivity|]; split; [reflexivity|].
  all: rewrite ?list_lookup_insert_eq by (rewrite ?length_insert; assumption).
  all: split; [reflexivity|].
  all: split; [intros k Hk; now rewrite ?list_lookup_insert_ne by congruence|].
  all: split; intros Hc; try lia.
  - eexists. repeat split. eassumption.
  - repeat split.
Qed.

Lemma demoState_resource (n : nat) :
  stateAfter demoRandom demoConfig n <> None ->
  ResourceInv demoConfig (demoState n).
Proof.
  intros H. apply (Reachable_inv demoRandom demoConfig (demoState n) (demoLast n));
    [simpl; lia | simpl; lia | now apply demoState_Reachable].
Qed.

Lemma demoConfig_tables : tablesNonEmpty demoConfig.
Proof. intros ty. destruct ty; discriminate. Qed.

Lemma handleALQ_effect_witness :
  exists s' t',
    handleALQ demoRandom demoConfig (mkEvent 0 ALQ 2) (demoState 1) = Some (tt, s') /\
    clock s' = clock (demoState 1) /\
    (W s', WQ s', weigherQueue s')
    = (W (demoState 1), WQ (demoState 1), weigherQueue (demoState 1)) /\
    trucks s' !! Z.to_nat (2 - 1) = Some t' /\
    (forall k, k <> Z.to_nat (2 - 1) -> trucks s' !! k = trucks (demoState 1) !! k) /\
    ((L (demoState 1) < numLoaders demoConfig)%Z ->
     exists tl,
       sampleTable (demoRandom (draws (demoState 1))) (cumProbs demoConfig loading)
       = Some tl /\
       state t' = LOADING /\
       L s' = (L (demoState 1) + 1)%Z /\ LQ s' = LQ (demoState 1) /\
       loaderQueue s' = loaderQueue (demoState 1) /\
       FEL s' = pushAndSort (mkEvent (clock (demoState 1) + tl) EL 2)
                  (FEL (demoState 1)) /\
       draws s' = S (draws (demoState 1))) /\
    ((numLoaders demoConfig <= L (demoState 1))%Z ->
     state t' = IN_LQ /\
     L s' = L (demoState 1) /\ LQ s' = (LQ (demoState 1) + 1)%Z /\
     loaderQueue s' = loaderQueue (demoState 1) ++ [2%Z] /\
     FEL s' = FEL (demoState 1) /\ draws s' = draws (demoState 1)).
Proof.
  apply (handleALQ_effect demoRandom demoConfig (mkEvent 0 ALQ 2) (demoState 1)).
  - exact demoConfig_tables.
  - apply demoState_resource. vm_compute. discriminate.
  - unfold validId. simpl. lia.
Defined.

(** X10. In a well-formed state the end of a weighing never throws.  The
    truck always starts to travel: one travel time is drawn and its next
    arrival is scheduled at the clock plus that time.  If the scale queue
    is empty the scale is released ([W] drops by one); otherwise its head
    is dequeued and starts weighing within the same call ([W] unchanged,
    [WQ] one less, a weighing time drawn and its [EW] scheduled).  The
    loader side is untouched. *)
Theorem handleEW_effect (random : nat -> Q) (cfg : Config)
    (e : Event) (s : Simulation) :
  tablesNonEmpty cfg ->
  ResourceInv cfg s ->
  validId cfg (truckId e) ->
  exists s' tv,
    handleEW random cfg e s = Some (tt, s') /\
    sampleTable (random (draws s)) (cumProbs cfg travel) = Some tv /\
    clock s' = clock s /\
    (L s', LQ s', loaderQueue s') = (L s, LQ s, loaderQueue s) /\
    ((WQ s <= 0)%Z ->
     W s' = (W s - 1)%Z /\ WQ s' = WQ s /\ weigherQueue s' = weigherQueue s /\
     FEL s' = pushAndSort (mkEvent (clock s + tv) ALQ (truckId e)) (FEL s) /\
     draws s' = S (draws s) /\
     (exists t', trucks s' !! Z.to_nat (truckId e - 1) = Some t' /\
                 state t' = TRAVELING) /\
     (forall k, k <> Z.to_nat (truckId e - 1) -> trucks s' !! k = trucks s !! k)) /\
    ((0 < WQ s)%Z ->
     exists next rest tw,
       weigherQueue s = next :: rest /\
       weigherQueue s' = rest /\
       WQ s' = (WQ s - 1)%Z /\ W s' = W s /\
       sampleTable (random (S (draws s))) (cumProbs cfg weighing) = Some tw /\
       FEL s' = pushAndSort (mkEvent (clock s + tw) EW next)
                  (pushAndSort (mkEvent (clock s + tv) ALQ (truckId e)) (FEL s)) /\
       draws s' = S (S (draws s)) /\
       (exists t', trucks s' !! Z.to_nat (next - 1) = Some t' /\
                   state t' = WEIGHING) /\
       (next <> truckId e ->
        exists t', trucks s' !! Z.to_nat (truckId e - 1) = Some t' /\
                   state t' = TRAVELING) /\
       (forall k, k <> Z.to_nat (truckId e - 1) -> k <> Z.to_nat (next - 1) ->
                  trucks s' !! k = trucks s !! k)).
Proof.
  intros Htab HR Hid.
  destruct (handleEW random cfg e s) as [[[] s']|] eqn:H;
    [| exfalso; now apply (handleEW_progress random cfg e s)].
  pose proof HR as [_ _ _ _ _ _ Hlen _ Hwq].
  unfold handleEW in H. inv_run H; bool_to_prop; simpl in *.
  all: solve_lookup.
  all: eexists; eexists; split; [reflexivity|]; simpl.
  all: split; [eassumption|]; split; [reflexivity|]; split; [reflexivity|].
  all: split; intros Hc; try lia.
  - (* the head of the scale queue takes the scale *)
    match goal with Hq : weigherQueue _ = ?next :: ?rest |- _ =>
      exists next, rest; rewrite Hq in Hwq; apply Forall_cons in Hwq as [Hnext _]
    end.
    eexists. split; [eassumption|]. split; [reflexivity|].
    split; [reflexivity|]. split; [lia|]. split; [eassumption|].
    split; [reflexivity|]. split; [reflexivity|].
    rewrite ?list_lookup_insert_eq by (rewrite ?length_insert; assumption).
    split; [eexists; split; reflexivity|].
    split.
    + intros Hne. rewrite list_lookup_insert_ne.
      * rewrite list_lookup_insert_eq by assumption. eexists; split; reflexivity.
      * unfold validId in *. lia.
    + intros k Hk1 Hk2. now rewrite !list_lookup_insert_ne by congruence.
  - (* the scale is released *)
    repeat split; try lia.
    + rewrite list_lookup_insert_eq by assumption. eexists; split; reflexivity.
    + intros k Hk. now rewrite list_lookup_insert_ne by congruence.
Qed.

Lemma handleEW_effect_witness :
  exists s' tv,
    handleEW demoRandom demoConfig (mkEvent 17 EW 1) (demoState 4) = Some (tt, s') /\
    sampleTable (demoRandom (draws (demoState 4))) (cumProbs demoConfig travel)
    = Some tv /\
    clock s' = clock (demoState 4) /\
    (L s', LQ s', loaderQueue s')
    = (L (demoState 4), LQ (demoState 4), loaderQueue (demoState 4)) /\
    ((WQ (demoState 4) <= 0)%Z ->
     W s' = (W (demoState 4) - 1)%Z /\ WQ s' = WQ (demoState 4) /\
     weigherQueue s' = weigherQueue (demoState 4) /\
     FEL s' = pushAndSort (mkEvent (clock (demoState 4) + tv) ALQ 1)
                (FEL (demoState 4)) /\
     draws s' = S (draws (demoState 4)) /\
     (exists t', trucks s' !! Z.to_nat (1 - 1) = Some t' /\ state t' = TRAVELING) /\
     (forall k, k <> Z.to_nat (1 - 1) -> trucks s' !! k = trucks (demoState 4) !! k)) /\
    ((0 < WQ (demoState 4))%Z ->
     exists next rest tw,
       weigherQueue (demoState 4) = next :: rest /\
       weigherQueue s' = rest /\
       WQ s' = (WQ (demoState 4) - 1)%Z /\ W s' = W (demoState 4) /\
       sampleTable (demoRandom (S (draws (demoState 4)))) (cumProbs demoConfig weighing)
       = Some tw /\
       FEL s' = pushAndSort (mkEvent (clock (demoState 4) + tw) EW next)
                  (pushAndSort (mkEvent (clock (demoState 4) + tv) ALQ 1)
                     (FEL (demoState 4))) /\
       draws s' = S (S (draws (demoState 4))) /\
       (exists t', trucks s' !! Z.to_nat (next - 1) = Some t' /\ state t' = WEIGHING) /\
       (next <> 1%Z ->
        exists t', trucks s' !! Z.to_nat (1 - 1) = Some t' /\ state t' = TRAVELING) /\
       (forall k, k <> Z.to_nat (1 - 1) -> k <> Z.to_nat (next - 1) ->
                  trucks s' !! k = trucks (demoState 4) !! k)).
Proof.
  apply (handleEW_effect demoRandom demoConfig (mkEvent 17 EW 1) (demoState 4)).
  - exact demoConfig_tables.
  - apply demoState_resource. vm_compute. discriminate.
  - unfold validId. simpl. lia.
Defined.

Example demoState_4 :
  (W (demoState 4), WQ (demoState 4), weigherQueue (demoState 4)) = (1, 1, [2])%Z.
Proof. vm_compute. reflexivity. Qed.

(** ** Initialisation *)

(** X11. The constructor throws when the truck count is negative or
    exceeds [2^32 - 1], the largest array length.  Otherwise,
    unless the configuration is the problem-specific one, initialisation
    draws no random number and leaves the clock, the counters and the
    queues at zero and every truck [IDLE]: it only schedules one arrival
    per truck at time 0, in the order of the identifiers [1 .. numTrucks]
    (none when [numTrucks] is 0). *)
Theorem init_general (random : nat -> Q) (cfg : Config) :
  ((numTrucks cfg < 0 \/ 4294967295 < numTrucks cfg)%Z ->
   initialState random cfg = None) /\
  ((0 <= numTrucks cfg <= 4294967295)%Z -> isProblemSpecific cfg = false ->
   initialState random cfg
   = Some (mkSim 0 (map (mkEvent 0 ALQ) (truckIds cfg)) 0 0 0 0 [] []
                 (newTrucks (Z.to_nat (numTrucks cfg))) 0 0 0) /\
   length (truckIds cfg) = Z.to_nat (numTrucks cfg) /\
   (forall k, (k < Z.to_nat (numTrucks cfg))%nat ->
              truckIds cfg !! k = Some (Z.of_nat k + 1)%Z /\
              newTrucks (Z.to_nat (numTrucks cfg)) !! k
              = Some (mkTruck (Z.of_nat k + 1) IDLE))).
Proof.
  split.
  - intros Hout. unfold initialState.
    now rewrite (newSimulation_None cfg Hout).
  - intros Hn Hsp. split; [exact (initialState_general random cfg Hsp Hn)|].
    split; [apply truckIds_length|].
    intros k Hk. unfold truckIds, newTrucks.
    split.
    + change (map ?f ?l) with (f <$> l). rewrite list_lookup_fmap.
      now rewrite lookup_seq_lt by exact Hk.
    + change (map ?f ?l) with (f <$> l). rewrite list_lookup_fmap.
      now rewrite lookup_seq_lt by exact Hk.
Qed.

Lemma init_general_witness :
  initialState demoRandom demoConfig
  = Some (mkSim 0 (map (mkEvent 0 ALQ) (truckIds demoConfig)) 0 0 0 0 [] []
                (newTrucks (Z.to_nat (numTrucks demoConfig))) 0 0 0) /\
  length (truckIds demoConfig) = Z.to_nat (numTrucks demoConfig) /\
  (forall k, (k < Z.to_nat (numTrucks demoConfig))%nat ->
             truckIds demoConfig !! k = Some (Z.of_nat k + 1)%Z /\
             newTrucks (Z.to_nat (numTrucks demoConfig)) !! k
             = Some (mkTruck (Z.of_nat k + 1) IDLE)).
Proof.
  apply (proj2 (init_general demoRandom demoConfig)); [simpl; lia | reflexivity].
Defined.

(** X12. For six trucks, two loaders and one scale, with non-empty
    tables, initialisation does not throw and makes exactly three draws:
    two loading times for trucks 1 and 2, which take the two loaders, and
    one weighing time for truck 6, which takes the scale; trucks 3, 4 and
    5 wait in the loader queue in that order, and the three completions
    are scheduled at the sampled times. *)
Theorem init_specific (random : nat -> Q) (cfg : Config) :
  isProblemSpecific cfg = true ->
  tablesNonEmpty cfg ->
  exists t1 t2 t3,
    sampleTable (random 0%nat) (cumProbs cfg loading) = Some t1 /\
    sampleTable (random 1%nat) (cumProbs cfg loading) = Some t2 /\
    sampleTable (random 2%nat) (cumProbs cfg weighing) = Some t3 /\
    initialState random cfg
    = Some (mkSim 0
              (pushAndSort (mkEvent (0 + t3) EW 6)
                 (pushAndSort (mkEvent (0 + t2) EL 2)
                    (pushAndSort (mkEvent (0 + t1) EL 1) [])))
              3 2 0 1 [3; 4; 5]%Z []
              [mkTruck 1 LOADING; mkTruck 2 LOADING; mkTruck 3 IN_LQ;
               mkTruck 4 IN_LQ; mkTruck 5 IN_LQ; mkTruck 6 WEIGHING]
              0 0 3).
Proof.
  intros Hsp Htab.
  destruct (isProblemSpecific_true cfg Hsp) as (Hn & _ & _).
  destruct (initialState random cfg) as [s|] eqn:H.
  - destruct (initialState_specific random cfg s Hsp H)
      as (t1 & t2 & t3 & H1 & H2 & H3 & ->).
    now exists t1, t2, t3.
  - exfalso. apply (initialState_progress random cfg Htab) in H;
      [exact H | unfold maxArrayLength; lia].
Qed.

Lemma init_specific_witness :
  exists t1 t2 t3,
    sampleTable (demoRandom 0%nat) (cumProbs problemConfig loading) = Some t1 /\
    sampleTable (demoRandom 1%nat) (cumProbs problemConfig loading) = Some t2 /\
    sampleTable (demoRandom 2%nat) (cumProbs problemConfig weighing) = Some t3 /\
    initialState demoRandom problemConfig
    = Some (mkSim 0
              (pushAndSort (mkEvent (0 + t3) EW 6)
                 (pushAndSort (mkEvent (0 + t2) EL 2)
                    (pushAndSort (mkEvent (0 + t1) EL 1) [])))
              3 2 0 1 [3; 4; 5]%Z []
              [mkTruck 1 LOADING; mkTruck 2 LOADING; mkTruck 3 IN_LQ;
               mkTruck 4 IN_LQ; mkTruck 5 IN_LQ; mkTruck 6 WEIGHING]
              0 0 3).
Proof.
  apply (init_specific demoRandom problemConfig); [reflexivity|].
  intros ty. destruct ty; discriminate.
Defined.

(** ** The run and its caller *)

Lemma loop_never_throws (random : nat -> Q) (cfg : Config) (fuel : nat)
    (s : Simulation) (last : Q) :
  tablesNonEmpty cfg ->
  ResourceInv cfg s -> EventInv cfg s ->
  loop random cfg fuel s last <> Threw.
Proof.
  intros Htab. revert s last. induction fuel as [|fuel IH]; intros s last HR HE;
    simpl; [discriminate|].
  pose proof (loopBody_progress random cfg s last Htab HR HE) as Hp.
  destruct (loopBody random cfg s last) as [[s' last'|s' last']|] eqn:E;
    [ | discriminate | contradiction ].
  destruct (loopBody_inv random cfg s last s' last' HR HE E) as [HR' HE'].
  now apply IH.
Qed.

(** X13. With non-empty tables and capacities that are not negative,
    [new Simulation(...).run()] throws exactly when the constructor does,
    that is when the truck count is negative or exceeds [2^32 - 1]: for
    every other truck count no handler throws, however long the run is
    left to run; it returns statistics or is still looping. *)
Theorem run_never_throws (random : nat -> Q) (cfg : Config) (fuel : nat) :
  tablesNonEmpty cfg ->
  (0 <= numLoaders cfg)%Z -> (0 <= numScales cfg)%Z ->
  run random cfg fuel = Threw
  <-> (numTrucks cfg < 0 \/ 4294967295 < numTrucks cfg)%Z.
Proof.
  intros Htab Hl Hs. unfold run. split.
  - intros Hthrew.
    destruct (Z_lt_ge_dec (numTrucks cfg) 0) as [Hlo|Hlo]; [now left|].
    destruct (Z_lt_ge_dec 4294967295 (numTrucks cfg)) as [Hhi|Hhi]; [now right|].
    exfalso.
    assert (Hn : (0 <= numTrucks cfg <= maxArrayLength)%Z)
      by (unfold maxArrayLength; lia).
    pose proof (initialState_progress random cfg Htab Hn) as Hp.
    destruct (initialState random cfg) as [s|] eqn:Hinit; [|contradiction].
    destruct (initialState_inv random cfg s Hl Hs Hinit) as [HR HE].
    pose proof (loop_never_throws random cfg fuel s 0 Htab HR HE) as Hloop.
    destruct (loop random cfg fuel s 0) as [[s' last']| |];
      [discriminate | contradiction | discriminate].
  - intros Hout. unfold initialState.
    now rewrite (newSimulation_None cfg Hout).
Qed.

Lemma run_never_throws_witness :
  run demoRandom demoConfig 5 = Threw
  <-> (numTrucks demoConfig < 0 \/ 4294967295 < numTrucks demoConfig)%Z.
Proof.
  apply (run_never_throws demoRandom demoConfig 5);
    [exact demoConfig_tables | simpl; lia | simpl; lia].
Defined.

(** With one truck more than an array can hold, the constructor throws
    before anything is simulated. *)
Example run_too_many_trucks :
  run demoRandom (mkConfig 4294967296 1 1 100 (constantTables 5 12 40)) 5 = Threw.
Proof. reflexivity. Qed.

(** Without trucks the loop is not entered; with an empty loading table
    the first arrival throws. *)
Example run_no_truck :
  run demoRandom (mkConfig 0 1 1 100 (constantTables 5 12 40)) 1
  = Finished (mkStats 0 0 0).
Proof. vm_compute. reflexivity. Qed.

Example run_empty_table :
  run demoRandom (mkConfig 2 1 1 100 (tablesOf [] [Cum.mk 12 1] [Cum.mk 40 1])) 1
  = Threw.
Proof. vm_compute. reflexivity. Qed.

Lemma createCumulativeTable_nonempty (dist : list Dist.item) (tbl : list Cum.entry) :
  createCumulativeTable dist = Ok tbl -> tbl <> [].
Proof.
  intros H. destruct (createCumulativeTable_last dist tbl H) as (e & He & _).
  intros ->. discriminate.
Qed.

(** X14. Validation makes the handlers safe: whatever the three texts,
    with a truck count from 0 to [2^32 - 1] and capacities that are not
    negative, [runSimulation] never catches an exception of the engine.
    It shows statistics, shows one of the three validation errors, or is
    still running.  (A truck count outside that range makes the
    constructor throw, which [runSimulation] catches and shows.) *)
Theorem runSimulation_no_engine_exception (random : nat -> Q)
    (numTrucks numLoaders numScales : Z) (maxSimTime : Q)
    (loadingText weighingText travelText : list Line) (fuel : nat) :
  (0 <= numTrucks <= 4294967295)%Z -> (0 <= numLoaders)%Z -> (0 <= numScales)%Z ->
  runSimulation random numTrucks numLoaders numScales maxSimTime
    loadingText weighingText travelText fuel <> ShowException.
Proof.
  intros Hn Hl Hs. unfold runSimulation.
  destruct (parseDistribution loadingText) as [dl|]; [|discriminate].
  destruct (parseDistribution weighingText) as [dw|]; [|discriminate].
  destruct (parseDistribution travelText) as [dt|]; [|discriminate].
  destruct (createCumulativeTable dl) as [tl|] eqn:El; [|discriminate].
  destruct (createCumulativeTable dw) as [tw|] eqn:Ew; [|discriminate].
  destruct (createCumulativeTable dt) as [tt'|] eqn:Et; [|discriminate].
  set (c := mkConfig numTrucks numLoaders numScales maxSimTime (tablesOf tl tw tt')).
  assert (Htab : tablesNonEmpty c).
  { intros ty. destruct ty; simpl; eapply createCumulativeTable_nonempty; eassumption. }
  unfold run.
  pose proof (initialState_progress random c Htab Hn) as Hp.
  destruct (initialState random c) as [s|] eqn:Hinit; [|contradiction].
  destruct (initialState_inv random c s Hl Hs Hinit) as [HR HE].
  pose proof (loop_never_throws random c fuel s 0 Htab HR HE) as Hloop.
  destruct (loop random c fuel s 0) as [[s' last']| |];
    [discriminate | contradiction | discriminate].
Qed.

Lemma runSimulation_no_engine_exception_witness :
  runSimulation demoRandom 6 2 1 100 loadingLines weighingLines travelLines 50
  <> ShowException.
Proof.
  apply (runSimulation_no_engine_exception demoRandom 6 2 1 100); lia.
Defined.

Example runSimulation_too_many_trucks :
  runSimulation demoRandom 4294967296 2 1 100
    loadingLines weighingLines travelLines 50 = ShowException.
Proof. vm_compute. reflexivity. Qed.

(** The three texts are parsed before any table is built: the malformed
    line of the travel text is reported although the loading text, which
    comes first, sums to 0.95. *)
Example runSimulation_parses_first :
  loadDistribution shortLoadingLines = Err InvalidDistribution /\
  runSimulation demoRandom 6 2 1 100 shortLoadingLines weighingLines brokenTravelLines 50
  = ShowError MalformedDistributionLine.
Proof. split; reflexivity. Qed.

(** ** Trucks, events and queues *)

(** X15. At the head of the loop every truck is accounted for exactly
    once by the counters and the pending events: the busy loaders are the
    pending [EL] events, the busy scales the pending [EW] events, the
    queue counters are the lengths of the two queues, and these four
    numbers plus the number of pending arrivals make [numTrucks].  The
    event list is sorted by time. *)
Theorem trucks_accounted_for (random : nat -> Q) (cfg : Config)
    (s : Simulation) (last : Q) :
  (0 <= numLoaders cfg)%Z -> (0 <= numScales cfg)%Z ->
  Reachable random cfg s last ->
  L s = countType EL (FEL s) /\
  W s = countType EW (FEL s) /\
  LQ s = Z.of_nat (length (loaderQueue s)) /\
  WQ s = Z.of_nat (length (weigherQueue s)) /\
  (L s + LQ s + W s + WQ s + countType ALQ (FEL s) = numTrucks cfg)%Z /\
  StronglySorted TimeLe (FEL s).
Proof.
  intros Hl Hs Hr.
  destruct (Reachable_inv random cfg s last Hl Hs Hr)
    as [[_ _ _ _ HLQ HWQ _ _ _] [_ Hsorted HL HW Htok]].
  pose proof (countType_total (FEL s)) as Htot.
  repeat split; try assumption. lia.
Qed.

Lemma trucks_accounted_for_witness :
  L (demoState 4) = countType EL (FEL (demoState 4)) /\
  W (demoState 4) = countType EW (FEL (demoState 4)) /\
  LQ (demoState 4) = Z.of_nat (length (loaderQueue (demoState 4))) /\
  WQ (demoState 4) = Z.of_nat (length (weigherQueue (demoState 4))) /\
  (L (demoState 4) + LQ (demoState 4) + W (demoState 4) + WQ (demoState 4)
   + countType ALQ (FEL (demoState 4)) = numTrucks demoConfig)%Z /\
  StronglySorted TimeLe (FEL (demoState 4)).
Proof.
  apply (trucks_accounted_for demoRandom demoConfig (demoState 4) (demoLast 4));
    [simpl; lia | simpl; lia |].
  apply demoState_Reachable. vm_compute. discriminate.
Defined.

(** X16. In a valid configuration the event list is never empty at the
    head of the loop, so the loop can only be left through the horizon
    test: every run that returns reports the horizon as total time. *)
Theorem run_ends_at_horizon (random : nat -> Q) (cfg : Config) :
  validConfig cfg ->
  (forall s last, Reachable random cfg s last -> FEL s <> []) /\
  (forall fuel stats,
     run random cfg fuel = Finished stats -> totalTime stats = maxSimTime cfg).
Proof.
  intros Hvalid. split.
  - intros s last Hr. pose proof Hvalid as (_ & Hl & Hs).
    destruct (Reachable_inv random cfg s last) as [HR HE]; [lia | lia | exact Hr |].
    now apply (FEL_nonempty cfg).
  - intros fuel stats. now apply run_totalTime.
Qed.

Lemma run_ends_at_horizon_witness :
  FEL (demoState 4) <> [] /\
  (forall stats, run demoRandom demoConfig 20 = Finished stats ->
                 totalTime stats = maxSimTime demoConfig).
Proof.
  destruct (run_ends_at_horizon demoRandom demoConfig demoConfig_valid) as [Hne Hrun].
  split.
  - apply (Hne (demoState 4) (demoLast 4)).
    apply demoState_Reachable. vm_compute. discriminate.
  - intros stats. apply Hrun.
Defined.

Example demo_run :
  run demoRandom demoConfig 20 = Finished (mkStats 100 (2000 # 100) (4800 # 100)).
Proof. vm_compute. reflexivity. Qed.

(** ** The two copies of the engine *)

Lemma getFinalStats_compat (cfg : Config) (s s' : Simulation) :
  clock s' = clock s ->
  loaderBusyTime s' == loaderBusyTime s ->
  scaleBusyTime s' == scaleBusyTime s ->
  totalTime (getFinalStats cfg s') = totalTime (getFinalStats cfg s) /\
  loaderUtilization (getFinalStats cfg s') == loaderUtilization (getFinalStats cfg s) /\
  scaleUtilization (getFinalStats cfg s') == scaleUtilization (getFinalStats cfg s).
Proof.
  intros Hc Hl Hs. unfold getFinalStats. simpl. rewrite Hc.
  split; [reflexivity|]. split.
  - destruct (Qgtb _ _); [now rewrite Hl | reflexivity].
  - destruct (Qgtb (inject_Z (numScales cfg) * clock s) 0); [now rewrite Hs | reflexivity].
Qed.

(** X18. For a horizon that is not negative the earlier copy of [run],
    whose final update of the accumulators is not guarded, ends as the
    later copy does on the same tables and, when it returns, reports the
    same total time and equal utilizations. *)
Theorem run_copies_agree (random : nat -> Q) (cfg : Config) (fuel : nat) :
  0 <= maxSimTime cfg ->
  sameOutcome (runUnguarded random cfg fuel) (run random cfg fuel).
Proof.
  intros Hh. unfold runUnguarded, run.
  destruct (initialState random cfg) as [s0|] eqn:Hinit; [|exact I].
  destruct (loop random cfg fuel s0 0) as [[s last]| |] eqn:Hloop; try exact I.
  destruct (loop_Finished random cfg fuel s0 0 s last) as (sN & lastN & Hr & Hd);
    [now apply reach_init | exact Hloop |].
  pose proof (final_interval_nonneg random cfg sN lastN s last Hh Hr Hd) as Hint.
  destruct (finalUpdateUnguarded_agrees s last Hint) as [Hl Hs].
  apply getFinalStats_compat; try assumption.
  destruct (finalUpdate_frame s last) as (_&_&_&_&_&_&_&->&_). reflexivity.
Qed.

Lemma run_copies_agree_witness :
  sameOutcome (runEarlier demoRandom 6 2 1 100 40)
              (run demoRandom (mkConfig 6 2 1 100 CUM_PROBS) 40).
Proof.
  apply (run_copies_agree demoRandom (mkConfig 6 2 1 100 CUM_PROBS) 40). discriminate.
Defined.

Example runEarlier_problem :
  runEarlier demoRandom 6 2 1 100 40
  = Finished (mkStats 100 (7000 # 200) (10000 # 100)).
Proof. vm_compute. reflexivity. Qed.

(** ** Termination *)

Lemma Qsmaller_le_l (a b : Q) : Qsmaller a b <= a.
Proof.
  unfold Qsmaller. destruct (Qle_bool a b) eqn:E; [apply Qle_refl|].
  apply Qlt_le_weak, Qnot_le_lt. rewrite <- Qle_bool_iff, E. discriminate.
Qed.

Lemma Qsmaller_le_r (a b : Q) : Qsmaller a b <= b.
Proof.
  unfold Qsmaller. destruct (Qle_bool a b) eqn:E; [now apply Qle_bool_iff | apply Qle_refl].
Qed.

Lemma Qsmaller_pos (a b : Q) : 0 < a -> 0 < b -> 0 < Qsmaller a b.
Proof. intros Ha Hb. unfold Qsmaller. now destruct (Qle_bool a b). Qed.

Lemma tableMin_spec (d : Q) (table : list Cum.entry) :
  tableMin d table <= d /\
  Forall (fun entry => tableMin d table <= Cum.time entry) table /\
  (0 < d -> Forall (fun entry => 0 < Cum.time entry) table -> 0 < tableMin d table).
Proof.
  induction table as [|x rest (IH1 & IH2 & IH3)]; simpl.
  - repeat split; [apply Qle_refl | constructor | auto].
  - repeat split.
    + apply Qle_trans with (tableMin d rest); [apply Qsmaller_le_r | exact IH1].
    + constructor; [apply Qsmaller_le_l|].
      eapply Forall_impl; [exact IH2|]. intros e He. simpl in He.
      apply Qle_trans with (tableMin d rest); [apply Qsmaller_le_r | exact He].
    + intros Hd Hall. apply Forall_cons in Hall as [Hx Hall].
      apply Qsmaller_pos; [exact Hx | now apply IH3].
Qed.

Lemma minDuration_spec (cfg : Config) :
  posDurations cfg ->
  0 < minDuration cfg /\ durationsAtLeast (minDuration cfg) cfg.
Proof.
  intros Hpos. unfold minDuration.
  set (m1 := tableMin 1 (cumProbs cfg loading)).
  set (m2 := tableMin m1 (cumProbs cfg weighing)).
  set (m3 := tableMin m2 (cumProbs cfg travel)).
  destruct (tableMin_spec 1 (cumProbs cfg loading)) as (A1 & A2 & A3).
  destruct (tableMin_spec m1 (cumProbs cfg weighing)) as (B1 & B2 & B3).
  destruct (tableMin_spec m2 (cumProbs cfg travel)) as (C1 & C2 & C3).
  fold m1 in A1, A2, A3, B1, B2, B3. fold m2 in B1, B2, B3, C1, C2, C3.
  fold m3 in C1, C2, C3.
  split.
  - apply C3; [apply B3; [apply A3; [reflexivity|] |] |]; apply Hpos.
  - intros ty. destruct ty.
    + eapply Forall_impl; [exact A2|]. intros e He. simpl in He.
      apply Qle_trans with m1; [|exact He].
      apply Qle_trans with m2; assumption.
    + eapply Forall_impl; [exact B2|]. intros e He. simpl in He.
      apply Qle_trans with m2; assumption.
    + exact C2.
Qed.

Lemma level_pos (h d t : Q) : 0 < d -> t <= h -> (1 <= level h d t)%nat.
Proof.
  intros Hd Hle. unfold level.
  assert (H0 : 0 <= (h - t) / d).
  { apply Qle_shift_div_l; [exact Hd | lra]. }
  apply Qfloor_resp_le in H0. change (Qfloor 0) with 0%Z in H0. lia.
Qed.

Lemma Qfloor_minus_one (x : Q) : (Qfloor (x - 1) <= Qfloor x - 1)%Z.
Proof.
  pose proof (Qfloor_le (x - 1)) as H1.
  pose proof (Qlt_floor x) as H2.
  assert (H3 : inject_Z (Qfloor (x - 1)) < inject_Z (Qfloor x)).
  { rewrite inject_Z_plus in H2. change (inject_Z 1) with 1 in H2. lra. }
  rewrite <- Zlt_Qlt in H3. lia.
Qed.

Lemma level_drop (h d t t' : Q) :
  0 < d -> t + d <= t' -> (level h d t' <= level h d t - 1)%nat.
Proof.
  intros Hd Hstep. unfold level.
  assert (Hq : (h - t') / d <= (h - t) / d - 1).
  { apply Qle_shift_div_r; [exact Hd|].
    assert (Heq : ((h - t) / d - 1) * d == h - t - d) by (field; lra).
    rewrite Heq. lra. }
  apply Qfloor_resp_le in Hq.
  pose proof (Qfloor_minus_one ((h - t) / d)) as Hm. lia.
Qed.

Lemma potential_perm (h d : Q) (l l' : list Event) :
  Permutation l l' -> potential h d l = potential h d l'.
Proof. induction 1; simpl; lia. Qed.

Lemma potential_pushAndSort (h d : Q) (e : Event) (fel : list Event) :
  potential h d (pushAndSort e fel)
  = (3 ^ level h d (time e) + potential h d fel)%nat.
Proof. now rewrite (potential_perm h d _ _ (pushAndSort_perm e fel)). Qed.

Lemma sample_atLeast (cfg : Config) (d : Q) (ty : TimeType) (r t : Q) :
  durationsAtLeast d cfg ->
  sampleTable r (cumProbs cfg ty) = Some t -> d <= t.
Proof.
  intros Hd Hs. apply sampleTable_In, in_map_iff in Hs as (e & <- & He).
  specialize (Hd ty). rewrite Forall_forall in Hd.
  apply Hd. now apply list_elem_of_In.
Qed.

Lemma weight_drop (h d c a : Q) :
  0 < d -> d <= a ->
  (3 ^ level h d (c + a) <= 3 ^ (level h d c - 1))%nat.
Proof.
  intros Hd Ha. apply Nat.pow_le_mono_r; [lia|].
  apply level_drop; [exact Hd | lra].
Qed.

(** Handling an event adds at most two events, each at least [d] after
    the clock. *)
Lemma dispatch_potential (random : nat -> Q) (cfg : Config) (d : Q)
    (e : Event) (s s' : Simulation) :
  0 < d -> durationsAtLeast d cfg ->
  dispatch random cfg e s = Some (tt, s') ->
  (potential (maxSimTime cfg) d (FEL s')
   <= potential (maxSimTime cfg) d (FEL s)
      + 2 * 3 ^ (level (maxSimTime cfg) d (clock s) - 1))%nat.
Proof.
  intros Hd Hdur H. unfold dispatch in H.
  destruct (type e); [unfold handleALQ in H | unfold handleEL in H | unfold handleEW in H];
    inv_run H; simpl in *.
  all: repeat match goal with
              | Hs : sampleTable _ (cumProbs _ _) = Some ?a |- _ =>
                  apply (sample_atLeast _ _ _ _ _ Hdur) in Hs;
                  apply (weight_drop (maxSimTime cfg) d (clock s) a Hd) in Hs
              end.
  all: rewrite ?potential_pushAndSort; simpl; lia.
Qed.

Lemma loop_fuel_mono (random : nat -> Q) (cfg : Config) (fuel fuel' : nat)
    (s : Simulation) (last : Q) (r : Simulation * Q) :
  loop random cfg fuel s last = Finished r ->
  (fuel <= fuel')%nat ->
  loop random cfg fuel' s last = Finished r.
Proof.
  revert fuel' s last. induction fuel as [|fuel IH]; intros fuel' s last; simpl;
    [discriminate|].
  intros H Hle. destruct fuel' as [|fuel']; [lia|]. simpl.
  destruct (loopBody random cfg s last) as [[s1 last1|s1 last1]|];
    [ | exact H | discriminate ].
  apply IH; [exact H | lia].
Qed.

Lemma loop_terminates_potential (random : nat -> Q) (cfg : Config) (d : Q)
    (fuel : nat) (s : Simulation) (last : Q) :
  tablesNonEmpty cfg -> 0 < d -> durationsAtLeast d cfg ->
  ResourceInv cfg s -> EventInv cfg s ->
  (potential (maxSimTime cfg) d (FEL s) < fuel)%nat ->
  exists r, loop random cfg fuel s last = Finished r.
Proof.
  intros Htab Hd Hdur. revert s last.
  induction fuel as [|fuel IH]; intros s last HR HE Hlt; [lia|]. simpl.
  pose proof (loopBody_progress random cfg s last Htab HR HE) as Hprog.
  destruct (loopBody random cfg s last) as [[s1 last1|s1 last1]|] eqn:E;
    [ | eexists; reflexivity | contradiction ].
  destruct (loopBody_inv random cfg s last s1 last1 HR HE E) as [HR1 HE1].
  apply loopBody_Continue in E as (e & rest & Hfel & Hle & _ & Hdisp).
  apply (dispatch_potential random cfg d e _ s1 Hd Hdur) in Hdisp. simpl in Hdisp.
  rewrite Hfel in Hlt. simpl in Hlt.
  pose proof (level_pos (maxSimTime cfg) d (time e) Hd Hle) as Hlev.
  assert (Hpow : (3 ^ level (maxSimTime cfg) d (time e)
                  = 3 * 3 ^ (level (maxSimTime cfg) d (time e) - 1))%nat).
  { destruct (level (maxSimTime cfg) d (time e)) as [|k]; [lia|].
    simpl. replace (k - 0)%nat with k by lia. lia. }
  assert (Hone : (1 <= 3 ^ (level (maxSimTime cfg) d (time e) - 1))%nat).
  { apply Nat.neq_0_lt_0, Nat.pow_nonzero. discriminate. }
  apply IH; try assumption. lia.
Qed.

(** *** Integers up to [2^53] are added exactly in binary64 *)

Lemma Qred_inject_Z (z : Z) : Qred (inject_Z z) = inject_Z z.
Proof.
  unfold Qred, inject_Z.
  pose proof (Z.ggcd_gcd z 1) as Hg.
  pose proof (Z.ggcd_correct_divisors z 1) as Hd.
  destruct (Z.ggcd z 1) as [g [aa bb]]. simpl in Hg, Hd.
  rewrite Z.gcd_1_r in Hg. subst g. destruct Hd as [Ha Hb].
  assert (Haa : aa = z) by lia. assert (Hbb : bb = 1%Z) by lia.
  rewrite Haa, Hbb. reflexivity.
Qed.

Lemma nearestEven_one (n : Z) : nearestEven n 1 = n.
Proof.
  unfold nearestEven. rewrite Z.mod_1_r, Z.div_1_r. reflexivity.
Qed.

Lemma not_infinite_small (z : Z) :
  (Z.abs z <= 2 ^ 53)%Z -> Qle_bool infinity (Qabs (inject_Z z)) = false.
Proof.
  intros Hz. destruct (Qle_bool infinity (Qabs (inject_Z z))) eqn:E; [|reflexivity].
  apply Qle_bool_iff in E. unfold Qle, infinity in E. simpl in E.
  rewrite !Z.mul_1_r in E.
  assert (H : (2 ^ 53 < 2 ^ 1024)%Z) by (apply Z.pow_lt_mono_r; lia).
  lia.
Qed.

Lemma roundPos_int (n : positive) :
  (Zpos n <= 2 ^ 53)%Z -> roundPos n 1 = inject_Z (Zpos n).
Proof.
  intros Hn. unfold roundPos, ilog2.
  change (Z.log2 1) with 0%Z. rewrite Z.sub_0_r.
  set (k := Z.log2 (Zpos n)).
  assert (Hk0 : (0 <= k)%Z) by apply Z.log2_nonneg.
  destruct (Z.log2_spec (Zpos n)) as [Hlo Hhi]; [lia|]. fold k in Hlo, Hhi.
  assert (Hk53 : (k <= 53)%Z).
  { unfold k. rewrite <- (Z.log2_pow2 53) by lia. now apply Z.log2_le_mono. }
  destruct (0 <=? k)%Z eqn:E0; [|apply Z.leb_gt in E0; lia].
  destruct (2 ^ k * 1 <=? Zpos n)%Z eqn:E1; [|apply Z.leb_gt in E1; lia].
  rewrite Z.max_l by lia.
  assert (Hfin : forall r, r = inject_Z (Zpos n) ->
                 (if Qle_bool infinity r then infinity else r) = inject_Z (Zpos n)).
  { intros r ->.
    change (inject_Z (Zpos n)) with (Qabs (inject_Z (Zpos n))) at 1.
    now rewrite (not_infinite_small (Zpos n)) by (simpl; lia). }
  apply Hfin.
  destruct (0 <=? k - 52)%Z eqn:Ex.
  - apply Z.leb_le in Ex.
    assert (Hcase : k = 52%Z \/ k = 53%Z) by lia.
    destruct Hcase as [Hc | Hc]; rewrite Hc in *.
    + change (52 - 52)%Z with 0%Z. change (2 ^ 0)%Z with 1%Z.
      change (1 * 1)%Z with 1%Z.
      rewrite nearestEven_one, Z.mul_1_r. reflexivity.
    + assert (Hn' : Zpos n = (2 ^ 53)%Z) by lia.
      rewrite Hn'. vm_compute. reflexivity.
  - apply Z.leb_gt in Ex.
    rewrite nearestEven_one.
    assert (Hp : (0 < 2 ^ (- (k - 52)))%Z) by (apply Z.pow_pos_nonneg; lia).
    rewrite <- (Qred_inject_Z (Zpos n)).
    apply Qred_complete. unfold Qeq, inject_Z. cbn [Qnum Qden].
    rewrite Z2Pos.id by exact Hp. ring.
Qed.

Lemma round64_integer (q : Q) (z : Z) :
  q == inject_Z z -> (Z.abs z <= 2 ^ 53)%Z -> round64 q = inject_Z z.
Proof.
  intros Hq Hz. unfold round64.
  rewrite (Qred_complete _ _ Hq), Qred_inject_Z. simpl Qnum. simpl Qden.
  destruct z as [|n|n]; [reflexivity | |].
  - apply roundPos_int. lia.
  - rewrite roundPos_int by lia. reflexivity.
Qed.

Lemma fadd_integers (a b : Q) (za zb : Z) :
  a == inject_Z za -> b == inject_Z zb ->
  (Z.abs za <= 2 ^ 53)%Z -> (Z.abs (za + zb) <= 2 ^ 53)%Z ->
  Exact64 a b.
Proof.
  intros Ha Hb Hza Hzab. unfold Exact64, fadd, isInfinite.
  assert (Hinf : Qle_bool infinity (Qabs a) = false).
  { rewrite <- (not_infinite_small za Hza).
    destruct (Qle_bool infinity (Qabs a)) eqn:E1;
      destruct (Qle_bool infinity (Qabs (inject_Z za))) eqn:E2; try reflexivity.
    - apply Qle_bool_iff in E1. rewrite Ha in E1. apply Qle_bool_iff in E1. congruence.
    - apply Qle_bool_iff in E2. rewrite <- Ha in E2. apply Qle_bool_iff in E2. congruence. }
  rewrite Hinf.
  assert (Hsum : a + b == inject_Z (za + zb)).
  { rewrite Ha, Hb, inject_Z_plus. reflexivity. }
  rewrite (round64_integer _ _ Hsum Hzab). symmetry. exact Hsum.
Qed.

(** Some values of the binary64 operations: the doubles of 0.1 and of
    0.001, the sum [0.1 + 0.2], ties going to the even significand, a
    small addend absorbed by a large clock, the subnormal numbers and the
    overflow to infinity. *)
Example double_values :
  double 0.1 = 3602879701896397 # 36028797018963968 /\
  tolerance = 1152921504606847 # 1152921504606846976 /\
  fadd (double 0.1) (double 0.2) = double 0.30000000000000004 /\
  double 0.3 < fadd (double 0.1) (double 0.2).
Proof. vm_compute. repeat split; reflexivity. Qed.

Example round64_ties :
  round64 (inject_Z (2 ^ 53 + 1)) = inject_Z (2 ^ 53) /\
  round64 (inject_Z (2 ^ 53 + 3)) = inject_Z (2 ^ 53 + 4) /\
  fadd (inject_Z (10 ^ 17)) 1 = inject_Z (10 ^ 17) /\
  fadd (inject_Z (2 ^ 60)) 80 = inject_Z (2 ^ 60).
Proof. vm_compute. repeat split; reflexivity. Qed.

Example round64_range :
  round64 (1 # 2 ^ 1074) = 1 # 2 ^ 1074 /\
  round64 (1 # 2 ^ 1075) = 0 /\
  round64 (3 # 2 ^ 1075) = 1 # 2 ^ 1073 /\
  round64 (inject_Z (2 ^ 1024 - 2 ^ 971)) = inject_Z (2 ^ 1024 - 2 ^ 971) /\
  round64 (inject_Z (2 ^ 1024 - 2 ^ 970)) = infinity /\
  fadd (fadd (inject_Z (2 ^ 1023)) (inject_Z (2 ^ 1023))) (- inject_Z (2 ^ 1023))
  = infinity.
Proof. vm_compute. repeat split; reflexivity. Qed.

Lemma isInteger_plus (a b : Q) : isInteger a -> isInteger b -> isInteger (a + b).
Proof.
  intros [za Ha] [zb Hb]. exists (za + zb)%Z. rewrite Ha, Hb, inject_Z_plus. reflexivity.
Qed.

Lemma sample_integer (cfg : Config) (d : Z) (ty : TimeType) (r t : Q) :
  intDurations d cfg ->
  sampleTable r (cumProbs cfg ty) = Some t -> isInteger t.
Proof.
  intros Hd Hs. apply sampleTable_In, in_map_iff in Hs as (e & <- & He).
  specialize (Hd ty). rewrite Forall_forall in Hd.
  destruct (Hd e) as (z & Hz & _); [now apply list_elem_of_In|]. now exists z.
Qed.

Lemma intDurations_pos (d : Z) (cfg : Config) : intDurations d cfg -> posDurations cfg.
Proof.
  intros Hd ty. eapply Forall_impl; [exact (Hd ty)|].
  intros e (z & Hz & Hlo & _). simpl. rewrite Hz.
  change 0 with (inject_Z 0). rewrite <- Zlt_Qlt. lia.
Qed.

Lemma posDurations_nonNeg (cfg : Config) : posDurations cfg -> nonNegDurations cfg.
Proof.
  intros Hp ty. eapply Forall_impl; [exact (Hp ty)|].
  intros e He. simpl in *. now apply Qlt_le_weak.
Qed.

Lemma dispatch_integer (random : nat -> Q) (cfg : Config) (d : Z) (e : Event)
    (s s' : Simulation) :
  intDurations d cfg ->
  IntInv s ->
  dispatch random cfg e s = Some (tt, s') ->
  IntInv s'.
Proof.
  intros Hd [Hclock Hev] H. unfold dispatch in H.
  destruct (type e); [unfold handleALQ in H | unfold handleEL in H | unfold handleEW in H];
    inv_run H; simpl in *.
  all: repeat match goal with
              | Hs : sampleTable _ (cumProbs _ _) = Some _ |- _ =>
                  apply (sample_integer _ _ _ _ _ Hd) in Hs
              end.
  all: constructor; simpl; rewrite ?pushAndSort_Forall; simpl;
    repeat match goal with
           | |- _ /\ _ => split
           | |- isInteger (_ + _) => apply isInteger_plus
           end; assumption.
Qed.

Lemma Reachable_integer (random : nat -> Q) (cfg : Config) (d : Z)
    (s : Simulation) (last : Q) :
  intDurations d cfg ->
  Reachable random cfg s last -> IntInv s.
Proof.
  intros Hd. induction 1 as [s H | s last s' last' _ IH Hstep].
  - pose proof (initialState_numTrucks random cfg s H) as Hn.
    assert (H0 : isInteger 0) by (exists 0%Z; reflexivity).
    destruct (isProblemSpecific cfg) eqn:Hsp.
    + destruct (initialState_specific random cfg s Hsp H)
        as (t1 & t2 & t3 & H1 & H2 & H3 & ->).
      apply (sample_integer _ _ _ _ _ Hd) in H1, H2, H3.
      constructor; simpl; [exact H0|].
      rewrite !pushAndSort_Forall. simpl.
      repeat split; try (now apply isInteger_plus). apply Forall_nil_2.
    + rewrite (initialState_general random cfg Hsp Hn) in H. injection H as <-.
      constructor; simpl; [exact H0|].
      apply Forall_forall. intros x Hx.
      change (map ?f ?l) with (f <$> l) in Hx.
      apply list_elem_of_fmap in Hx as (j & -> & _). exact H0.
  - destruct IH as [Hclock Hev].
    apply loopBody_Continue in Hstep as (e & rest & Hfel & _ & _ & Hdisp).
    rewrite Hfel in Hev. apply Forall_cons in Hev as [He Hrest].
    refine (dispatch_integer random cfg d e _ s' Hd _ Hdisp).
    constructor; simpl; assumption.
Qed.

(** In a run with integer durations that stays below [2^53], adding a
    duration to the clock of a loop-head state is exact in binary64. *)
Lemma Reachable_exact (random : nat -> Q) (cfg : Config) (d : Z)
    (s : Simulation) (last : Q) (ty : TimeType) (entry : Cum.entry) :
  intDurations d cfg ->
  0 <= maxSimTime cfg -> maxSimTime cfg + inject_Z d <= inject_Z (2 ^ 53) ->
  Reachable random cfg s last -> In entry (cumProbs cfg ty) ->
  Exact64 (clock s) (Cum.time entry).
Proof.
  intros Hd Hh Hbound Hr Hin.
  destruct (Reachable_integer random cfg d s last Hd Hr) as [[zc Hzc] _].
  destruct (Reachable_last random cfg s last Hh Hr) as [Hcl Hle].
  destruct (Reachable_times random cfg s last
              (posDurations_nonNeg cfg (intDurations_pos d cfg Hd)) Hr) as [_ H0].
  pose proof (Hd ty) as Hty. rewrite Forall_forall in Hty.
  destruct (Hty entry) as (zd & Hzd & Hlo & Hhi); [now apply list_elem_of_In|].
  assert (Hzc0 : (0 <= zc)%Z).
  { rewrite Hzc in H0. change 0 with (inject_Z 0) in H0. rewrite Zle_Qle. exact H0. }
  assert (Hsum : (zc + d <= 2 ^ 53)%Z).
  { rewrite Zle_Qle, inject_Z_plus, <- Hzc, Hcl.
    apply Qle_trans with (maxSimTime cfg + inject_Z d); [|exact Hbound].
    apply Qplus_le_l. exact Hle. }
  apply (fadd_integers _ _ zc zd Hzc Hzd); lia.
Qed.

(** X19. When every duration of the tables is a positive integer and the
    horizon is not negative and low enough for all event times to stay
    within [2^53] (tables not empty, truck count from 0 to [2^32 - 1],
    capacities not negative), [run] terminates without exception: from
    some number of evaluations of the loop onwards it returns statistics,
    always the same.  Every addition of a duration to the clock is exact
    in binary64 in such a run, so the event times of the source are the
    ones of this run. *)
Theorem run_terminates (random : nat -> Q) (cfg : Config) (d : Z) :
  tablesNonEmpty cfg -> intDurations d cfg ->
  0 <= maxSimTime cfg -> maxSimTime cfg + inject_Z d <= inject_Z (2 ^ 53) ->
  (0 <= numTrucks cfg <= 4294967295)%Z ->
  (0 <= numLoaders cfg)%Z -> (0 <= numScales cfg)%Z ->
  (exists n stats,
     forall fuel, (n <= fuel)%nat -> run random cfg fuel = Finished stats) /\
  (forall s last ty entry,
     Reachable random cfg s last -> In entry (cumProbs cfg ty) ->
     Exact64 (clock s) (Cum.time entry)).
Proof.
  intros Htab Hint Hh Hbound Hn Hl Hs. split.
  - destruct (minDuration_spec cfg (intDurations_pos d cfg Hint)) as [Hd Hdur].
    pose proof (initialState_progress random cfg Htab Hn) as Hp.
    destruct (initialState random cfg) as [s0|] eqn:Hinit; [|contradiction].
    destruct (initialState_inv random cfg s0 Hl Hs Hinit) as [HR HE].
    set (n := S (potential (maxSimTime cfg) (minDuration cfg) (FEL s0))).
    destruct (loop_terminates_potential random cfg (minDuration cfg) n s0 0
                Htab Hd Hdur HR HE) as [[s last] Hloop]; [unfold n; lia|].
    exists n, (getFinalStats cfg (finalUpdate s last)).
    intros fuel Hfuel. unfold run. rewrite Hinit.
    now rewrite (loop_fuel_mono random cfg n fuel s0 0 (s, last) Hloop Hfuel).
  - intros s last ty entry Hr Hin.
    now apply (Reachable_exact random cfg d s last ty entry).
Qed.

Lemma demoConfig_int : intDurations 40 demoConfig.
Proof.
  intros ty. destruct ty; simpl; repeat constructor.
  - exists 5%Z. split; [reflexivity | lia].
  - exists 12%Z. split; [reflexivity | lia].
  - exists 40%Z. split; [reflexivity | lia].
Qed.

Lemma run_terminates_witness :
  (exists n stats,
     forall fuel, (n <= fuel)%nat -> run demoRandom demoConfig fuel = Finished stats) /\
  (forall s last ty entry,
     Reachable demoRandom demoConfig s last -> In entry (cumProbs demoConfig ty) ->
     Exact64 (clock s) (Cum.time entry)).
Proof.
  apply (run_terminates demoRandom demoConfig 40);
    [exact demoConfig_tables | exact demoConfig_int | discriminate | discriminate
    | simpl; lia | simpl; lia | simpl; lia].
Defined.

(** ** Every truck is in exactly one place *)

Lemma countId_app (j : Z) (l l' : list Z) :
  countId j (l ++ l') = (countId j l + countId j l')%nat.
Proof. induction l as [|x l IH]; simpl; [reflexivity | rewrite IH; lia]. Qed.

Lemma countId_perm (j : Z) (l l' : list Z) :
  Permutation l l' -> countId j l = countId j l'.
Proof. induction 1; simpl; lia. Qed.

Lemma countId_push (j : Z) (e : Event) (fel : list Event) :
  countId j (map truckId (pushAndSort e fel))
  = ((if (truckId e =? j)%Z then 1 else 0) + countId j (map truckId fel))%nat.
Proof.
  rewrite (countId_perm j _ (map truckId (e :: fel))); [reflexivity|].
  apply Permutation_map, pushAndSort_perm.
Qed.

Lemma countId_count_occ (j : Z) (l : list Z) :
  countId j l = count_occ Z.eq_dec l j.
Proof.
  induction l as [|x l IH]; simpl; [reflexivity|].
  destruct (Z.eq_dec x j) as [->|Hne].
  - rewrite Z.eqb_refl, IH. reflexivity.
  - apply Z.eqb_neq in Hne. rewrite Hne, IH. reflexivity.
Qed.

Lemma countId_Permutation (l l' : list Z) :
  (forall j, countId j l = countId j l') -> Permutation l l'.
Proof.
  intros H. apply (Permutation_count_occ Z.eq_dec). intros j.
  rewrite <- !countId_count_occ. apply H.
Qed.

(** Handling an event puts its truck back in exactly one place, and
    moves no other truck out of the places. *)
Lemma dispatch_places (random : nat -> Q) (cfg : Config) (e : Event)
    (s s' : Simulation) (j : Z) :
  dispatch random cfg e s = Some (tt, s') ->
  countId j (places s')
  = ((if (truckId e =? j)%Z then 1 else 0) + countId j (places s))%nat.
Proof.
  intros H. unfold dispatch in H.
  destruct (type e); [unfold handleALQ in H | unfold handleEL in H | unfold handleEW in H];
    inv_run H; unfold places; simpl in *.
  all: repeat match goal with
              | Hq : loaderQueue _ = _ :: _ |- _ => rewrite Hq; clear Hq
              | Hq : weigherQueue _ = _ :: _ |- _ => rewrite Hq; clear Hq
              end.
  all: rewrite ?countId_app, ?countId_push; simpl; rewrite ?countId_app; simpl; lia.
Qed.

Lemma truckIds_NoDup (cfg : Config) : List.NoDup (truckIds cfg).
Proof.
  unfold truckIds. apply NoDup_ListNoDup.
  change (map ?f ?l) with (f <$> l).
  apply NoDup_fmap_2; [intros a b Hab; lia | apply NoDup_seq].
Qed.

Lemma Reachable_places (random : nat -> Q) (cfg : Config)
    (s : Simulation) (last : Q) :
  Reachable random cfg s last -> Permutation (places s) (truckIds cfg).
Proof.
  intros Hr. apply countId_Permutation. intros j.
  induction Hr as [s H | s last s' last' Hr IH Hstep].
  - pose proof (initialState_numTrucks random cfg s H) as Hn.
    destruct (isProblemSpecific cfg) eqn:Hsp.
    + destruct (initialState_specific random cfg s Hsp H)
        as (t1 & t2 & t3 & _ & _ & _ & ->).
      destruct (isProblemSpecific_true cfg Hsp) as (H6 & _ & _).
      unfold truckIds. rewrite H6.
      change (map _ (seq 0 (Z.to_nat 6))) with [1; 2; 3; 4; 5; 6]%Z.
      unfold places, specificStart. simpl FEL.
      rewrite !countId_app, !countId_push. simpl. lia.
    + rewrite (initialState_general random cfg Hsp Hn) in H. injection H as <-.
      unfold places, generalStart. simpl. rewrite !app_nil_r, map_map. simpl.
      now rewrite map_id.
  - apply loopBody_Continue in Hstep as (e & rest & Hfel & _ & _ & Hd).
    rewrite (dispatch_places _ _ _ _ _ j Hd). rewrite <- IH.
    unfold places. simpl. rewrite Hfel. simpl. reflexivity.
Qed.

(** X20. At the head of the loop the identifiers of the pending events
    and of the two queues are, together, exactly the trucks
    [1 .. numTrucks], each once: no truck is pending twice, in two queues,
    or both queued and in service, and none is missing. *)
Theorem every_truck_once (random : nat -> Q) (cfg : Config)
    (s : Simulation) (last : Q) :
  Reachable random cfg s last ->
  Permutation (map truckId (FEL s) ++ loaderQueue s ++ weigherQueue s) (truckIds cfg) /\
  List.NoDup (map truckId (FEL s) ++ loaderQueue s ++ weigherQueue s).
Proof.
  intros Hr.
  pose proof (Reachable_places random cfg s last Hr) as Hperm.
  split; [exact Hperm|].
  apply (Permutation_NoDup (l := truckIds cfg)); [now symmetry|].
  apply truckIds_NoDup.
Qed.

Lemma every_truck_once_witness :
  Permutation (map truckId (FEL (demoState 4)) ++ loaderQueue (demoState 4)
               ++ weigherQueue (demoState 4)) (truckIds demoConfig) /\
  List.NoDup (map truckId (FEL (demoState 4)) ++ loaderQueue (demoState 4)
              ++ weigherQueue (demoState 4)).
Proof.
  apply (every_truck_once demoRandom demoConfig (demoState 4) (demoLast 4)).
  apply demoState_Reachable. vm_compute. discriminate.
Defined.

(** ** The phases agree with the places *)

Lemma phaseIn_insert (l : list Truck) (j a : Z) (k : nat) (idv : Z)
    (st : TruckState) (t0 : Truck) :
  arrayIndex (a - 1) = Some k -> l !! k = Some t0 ->
  phaseIn (<[k := mkTruck idv st]> l) j
  = if (a =? j)%Z then Some st else phaseIn l j.
Proof.
  intros Ha Ht. unfold phaseIn.
  destruct (Z.eqb_spec a j) as [<-|Hne].
  - rewrite Ha. rewrite list_lookup_insert_eq by (eapply lookup_lt_Some, Ht).
    reflexivity.
  - destruct (arrayIndex (j - 1)) as [k'|] eqn:Hj; [|reflexivity].
    unfold arrayIndex in Ha, Hj.
    destruct (0 <=? a - 1)%Z eqn:Ea; [|discriminate].
    destruct (0 <=? j - 1)%Z eqn:Ej; [|discriminate].
    injection Ha as <-. injection Hj as <-.
    apply Z.leb_le in Ea, Ej.
    rewrite list_lookup_insert_ne by lia. reflexivity.
Qed.

Lemma countId_In (j : Z) (l : list Z) : j ∈ l -> (1 <= countId j l)%nat.
Proof.
  induction 1 as [j l | j x l _ IH]; simpl.
  - rewrite Z.eqb_refl. lia.
  - lia.
Qed.

Lemma countId_In_event (x : Event) (l : list Event) :
  x ∈ l -> (1 <= countId (truckId x) (map truckId l))%nat.
Proof. intros Hx. apply countId_In. now apply (list_elem_of_fmap_2 truckId). Qed.

Ltac rewrite_phase :=
  repeat match goal with
         | Hi : arrayIndex (?a - 1) = Some ?k, Ht : ?l !! ?k = Some ?t0
           |- context [phaseIn (<[?k := mkTruck ?idv ?st]> ?l) ?j] =>
             rewrite (phaseIn_insert l j a k idv st t0 Hi Ht)
         end.

Ltac use_once Hc j :=
  let Hj := fresh "Hj" in
  pose proof (Hc j) as Hj; unfold places in Hj; simpl in Hj;
  repeat match goal with
         | Hq : loaderQueue _ = _ :: _ |- _ => rewrite Hq in Hj
         | Hq : weigherQueue _ = _ :: _ |- _ => rewrite Hq in Hj
         end;
  rewrite ?countId_app in Hj; simpl in Hj; rewrite ?Z.eqb_refl in Hj.

Ltac split_eqb :=
  rewrite ?Z.eqb_refl;
  repeat match goal with
         | H : context [(_ =? _)%Z] |- _ => revert H
         end;
  repeat match goal with
         | |- context [(?a =? ?b)%Z] => destruct (a =? b)%Z
         end;
  simpl; intros; try lia; try assumption; try reflexivity; try tauto.

Ltac old_fact H j Hj :=
  first [ pose proof (proj1 (Forall_forall _ _) H j Hj)
        | pose proof (proj1 (Forall_forall _ _) (proj2 (proj1 (Forall_cons _ _ _) H)) j Hj)
        | idtac ].

Ltac close_phase Hc Hev Hlq Hwq :=
  lazymatch goal with
  | |- eventPhase _ (mkEvent _ _ ?j) =>
      unfold eventPhase; simpl; rewrite_phase; use_once Hc j; split_eqb
  | |- Forall (eventPhase _) _ =>
      let x := fresh "x" in
      let Hx := fresh "Hx" in
      apply Forall_forall; intros x Hx;
      pose proof (proj1 (Forall_forall _ _) Hev x Hx);
      pose proof (countId_In_event x _ Hx);
      use_once Hc (truckId x);
      unfold eventPhase in *; rewrite_phase; destruct (type x); split_eqb
  | |- Forall _ _ =>
      let j := fresh "j" in
      let Hj := fresh "Hj" in
      apply Forall_forall; intros j Hj;
      old_fact Hlq j Hj; old_fact Hwq j Hj;
      pose proof (countId_In j _ Hj);
      use_once Hc j; rewrite_phase; split_eqb
  | |- phaseIn _ ?j = _ =>
      rewrite_phase; use_once Hc j; split_eqb
  end.

(** Handling the event of a truck that is in no other place keeps the
    phases in agreement with the places. *)
Lemma dispatch_phase (random : nat -> Q) (cfg : Config) (e : Event)
    (s s' : Simulation) :
  (forall j, (countId j (truckId e :: places s) <= 1)%nat) ->
  PhaseInv s ->
  dispatch random cfg e s = Some (tt, s') ->
  PhaseInv s'.
Proof.
  intros Hc [Hev Hlq Hwq] H. unfold dispatch in H.
  destruct (type e) eqn:Hty;
    [unfold handleALQ in H | unfold handleEL in H | unfold handleEW in H];
    inv_run H; simpl in *.
  all: repeat match goal with
              | Hq : loaderQueue _ = _ :: _ |- _ => rewrite Hq in Hlq
              | Hq : weigherQueue _ = _ :: _ |- _ => rewrite Hq in Hwq
              end.
  all: constructor; simpl;
    rewrite ?pushAndSort_Forall, ?Forall_app, ?Forall_cons.
  all: repeat split; try apply Forall_nil_2.
  all: close_phase Hc Hev Hlq Hwq.
Qed.

Lemma countId_truckIds (cfg : Config) (j : Z) : (countId j (truckIds cfg) <= 1)%nat.
Proof.
  rewrite countId_count_occ. apply NoDup_count_occ, truckIds_NoDup.
Qed.

Lemma phaseIn_lookup (l : list Truck) (k : nat) (t : Truck) :
  l !! k = Some t -> phaseIn l (Z.of_nat k + 1) = Some (state t).
Proof.
  intros Hk. unfold phaseIn, arrayIndex.
  destruct (0 <=? Z.of_nat k + 1 - 1)%Z eqn:E; [|apply Z.leb_gt in E; lia].
  replace (Z.to_nat (Z.of_nat k + 1 - 1)) with k by lia.
  rewrite Hk. reflexivity.
Qed.

Lemma truckIds_elem (cfg : Config) (j : Z) :
  j ∈ truckIds cfg <-> exists k, j = (Z.of_nat k + 1)%Z /\ (k < Z.to_nat (numTrucks cfg))%nat.
Proof.
  unfold truckIds. change (map ?f ?l) with (f <$> l).
  rewrite list_elem_of_fmap. split.
  - intros (k & -> & Hk). apply elem_of_seq in Hk. exists k. split; [reflexivity | lia].
  - intros (k & -> & Hk). exists k. split; [reflexivity|]. apply elem_of_seq. lia.
Qed.

Lemma generalStart_phase (cfg : Config) : PhaseInv (generalStart cfg).
Proof.
  constructor; simpl; [|apply Forall_nil_2 | apply Forall_nil_2].
  apply Forall_forall. intros x Hx.
  change (map ?f ?l) with (f <$> l) in Hx.
  apply list_elem_of_fmap in Hx as (j & -> & Hj).
  apply truckIds_elem in Hj as (k & -> & Hk).
  unfold eventPhase. simpl. left.
  assert (Ht : newTrucks (Z.to_nat (numTrucks cfg)) !! k
               = Some (mkTruck (Z.of_nat k + 1) IDLE)).
  { unfold newTrucks. change (map ?f ?l) with (f <$> l).
    rewrite list_lookup_fmap, lookup_seq_lt by exact Hk. reflexivity. }
  apply (phaseIn_lookup _ _ _ Ht).
Qed.

Lemma specificStart_phase (t1 t2 t3 : Q) : PhaseInv (specificStart t1 t2 t3).
Proof.
  constructor; simpl.
  - rewrite !pushAndSort_Forall. repeat split; try reflexivity. apply Forall_nil_2.
  - repeat constructor.
  - apply Forall_nil_2.
Qed.

Lemma Reachable_phase (random : nat -> Q) (cfg : Config)
    (s : Simulation) (last : Q) :
  Reachable random cfg s last -> PhaseInv s.
Proof.
  intros Hr.
  induction Hr as [s H | s last s' last' Hr IH Hstep].
  - pose proof (initialState_numTrucks random cfg s H) as Hn.
    destruct (isProblemSpecific cfg) eqn:Hsp.
    + destruct (initialState_specific random cfg s Hsp H)
        as (t1 & t2 & t3 & _ & _ & _ & ->).
      apply specificStart_phase.
    + rewrite (initialState_general random cfg Hsp Hn) in H. injection H as <-.
      apply generalStart_phase.
  - pose proof (Reachable_places random cfg s last Hr) as Hperm.
    apply loopBody_Continue in Hstep as (e & rest & Hfel & _ & _ & Hd).
    destruct IH as [Hev Hlq Hwq]. rewrite Hfel in Hev.
    apply Forall_cons in Hev as [_ Hev].
    refine (dispatch_phase random cfg e _ s' _ _ Hd).
    + intros j. rewrite <- (countId_truckIds cfg j).
      rewrite <- (countId_perm j _ _ Hperm).
      unfold places. simpl. rewrite Hfel. simpl. reflexivity.
    + constructor; assumption.
Qed.

Lemma Reachable_trucks_length (random : nat -> Q) (cfg : Config)
    (s : Simulation) (last : Q) :
  Reachable random cfg s last -> length (trucks s) = Z.to_nat (numTrucks cfg).
Proof.
  intros Hr.
  induction Hr as [s H | s last s' last' Hr IH Hstep].
  - pose proof (initialState_numTrucks random cfg s H) as Hn.
    destruct (isProblemSpecific cfg) eqn:Hsp.
    + destruct (initialState_specific random cfg s Hsp H)
        as (t1 & t2 & t3 & _ & _ & _ & ->).
      destruct (isProblemSpecific_true cfg Hsp) as (H6 & _ & _).
      rewrite H6. reflexivity.
    + rewrite (initialState_general random cfg Hsp Hn) in H. injection H as <-.
      simpl. apply newTrucks_length.
  - destruct (loopBody_trucks random cfg s last s' last'
                (Reachable_trucks random cfg s last Hr) Hstep) as [_ Hadv].
    rewrite <- IH. symmetry. apply (Forall2_length _ _ _ Hadv).
Qed.

(** X21. At the head of the loop the phase recorded for a truck agrees
    with the place it is in: a truck with a pending [EL] is [LOADING], one
    with a pending [EW] is [WEIGHING], one with a pending [ALQ] is [IDLE] or
    [TRAVELING], and the trucks of the loader queue and of the weigher
    queue are [IN_LQ] and [IN_WQ]. *)
Theorem phases_match_places (random : nat -> Q) (cfg : Config)
    (s : Simulation) (last : Q) :
  Reachable random cfg s last ->
  (forall x, In x (FEL s) -> eventPhase (trucks s) x) /\
  (forall i, In i (loaderQueue s) -> phaseIn (trucks s) i = Some IN_LQ) /\
  (forall i, In i (weigherQueue s) -> phaseIn (trucks s) i = Some IN_WQ).
Proof.
  intros Hr. destruct (Reachable_phase random cfg s last Hr) as [Hev Hlq Hwq].
  rewrite Forall_forall in Hev. rewrite Forall_forall in Hlq.
  rewrite Forall_forall in Hwq.
  repeat split; intros x Hx; apply list_elem_of_In in Hx; auto.
Qed.

Lemma phases_match_places_witness :
  (forall x, In x (FEL (demoState 4)) -> eventPhase (trucks (demoState 4)) x) /\
  (forall i, In i (loaderQueue (demoState 4)) ->
             phaseIn (trucks (demoState 4)) i = Some IN_LQ) /\
  (forall i, In i (weigherQueue (demoState 4)) ->
             phaseIn (trucks (demoState 4)) i = Some IN_WQ).
Proof.
  apply (phases_match_places demoRandom demoConfig (demoState 4) (demoLast 4)).
  apply demoState_Reachable. vm_compute. discriminate.
Defined.

(** X22. Conversely, at the head of the loop the phase of every truck
    tells where the truck is: a [LOADING] truck has a pending [EL], a
    [WEIGHING] truck a pending [EW], an [IDLE] or [TRAVELING] truck a
    pending [ALQ], an [IN_LQ] truck is in the loader queue and an [IN_WQ]
    truck in the weigher queue. *)
Theorem phase_determines_place (random : nat -> Q) (cfg : Config)
    (s : Simulation) (last : Q) (k : nat) (t : Truck) :
  Reachable random cfg s last ->
  trucks s !! k = Some t ->
  placeOfPhase s (Z.of_nat k + 1) (state t).
Proof.
  intros Hr Hk.
  pose proof (Reachable_places random cfg s last Hr) as Hperm.
  pose proof (Reachable_trucks_length random cfg s last Hr) as Hlen.
  destruct (Reachable_phase random cfg s last Hr) as [Hev Hlq Hwq].
  rewrite Forall_forall in Hev. rewrite Forall_forall in Hlq.
  rewrite Forall_forall in Hwq.
  pose proof (phaseIn_lookup _ _ _ Hk) as Hph.
  assert (Hin : (Z.of_nat k + 1)%Z ∈ places s).
  { rewrite Hperm. apply truckIds_elem. exists k. split; [reflexivity|].
    rewrite <- Hlen. eapply lookup_lt_Some, Hk. }
  unfold places in Hin. change (map ?f ?l) with (f <$> l) in Hin.
  rewrite !elem_of_app, list_elem_of_fmap in Hin.
  destruct Hin as [(x & Hid & Hx) | [Hin | Hin]].
  - specialize (Hev x Hx). unfold eventPhase in Hev. rewrite <- Hid, Hph in Hev.
    apply list_elem_of_In in Hx.
    destruct (type x) eqn:Hty.
    + destruct Hev as [[= ->] | [= ->]]; exists x; auto.
    + injection Hev as ->. exists x; auto.
    + injection Hev as ->. exists x; auto.
  - specialize (Hlq _ Hin). rewrite Hph in Hlq. injection Hlq as ->.
    simpl. now apply list_elem_of_In.
  - specialize (Hwq _ Hin). rewrite Hph in Hwq. injection Hwq as ->.
    simpl. now apply list_elem_of_In.
Qed.

Lemma phase_determines_place_witness :
  trucks (demoState 4) !! 0%nat = Some (mkTruck 1 WEIGHING) /\
  placeOfPhase (demoState 4) 1 WEIGHING.
Proof.
  assert (Hk : trucks (demoState 4) !! 0%nat = Some (mkTruck 1 WEIGHING))
    by (vm_compute; reflexivity).
  split; [exact Hk|].
  apply (phase_determines_place demoRandom demoConfig (demoState 4) (demoLast 4)
           0%nat (mkTruck 1 WEIGHING)); [|exact Hk].
  apply demoState_Reachable. vm_compute. discriminate.
Defined.

(** ** The earlier copy terminates *)

Lemma CUM_PROBS_int (n l sc : Z) (h : Q) :
  intDurations 80 (mkConfig n l sc h CUM_PROBS).
Proof.
  intros ty. destruct ty; simpl; repeat constructor.
  - exists 5%Z. split; [reflexivity | lia].
  - exists 10%Z. split; [reflexivity | lia].
  - exists 15%Z. split; [reflexivity | lia].
  - exists 12%Z. split; [reflexivity | lia].
  - exists 14%Z. split; [reflexivity | lia].
  - exists 16%Z. split; [reflexivity | lia].
  - exists 40%Z. split; [reflexivity | lia].
  - exists 60%Z. split; [reflexivity | lia].
  - exists 80%Z. split; [reflexivity | lia].
Qed.

Lemma CUM_PROBS_nonempty (n l sc : Z) (h : Q) :
  tablesNonEmpty (mkConfig n l sc h CUM_PROBS).
Proof. intros ty. destruct ty; discriminate. Qed.

(** X23. The earlier copy, whose tables are the hard-coded [CUM_PROBS]
    with durations from 5 to 80, terminates without exception for every
    stream of random numbers when the horizon is between 0 and
    [2^53 - 80], the truck count between 0 and [2^32 - 1] and the
    capacities are not negative: from some number of evaluations of the
    loop onwards it returns statistics, always the same.  Every addition
    of a duration to the clock is exact in binary64 in such a run. *)
Theorem runEarlier_terminates (random : nat -> Q) (n l sc : Z) (h : Q) :
  (0 <= n <= 4294967295)%Z -> (0 <= l)%Z -> (0 <= sc)%Z ->
  0 <= h -> h <= inject_Z (2 ^ 53 - 80) ->
  (exists N stats,
     forall fuel, (N <= fuel)%nat ->
                  runEarlier random n l sc h fuel = Finished stats) /\
  (forall s last ty entry,
     Reachable random (mkConfig n l sc h CUM_PROBS) s last ->
     In entry (CUM_PROBS ty) ->
     Exact64 (clock s) (Cum.time entry)).
Proof.
  intros Hn Hl Hs Hh0 Hh. unfold runEarlier, runUnguarded.
  set (cfg := mkConfig n l sc h CUM_PROBS).
  pose proof (CUM_PROBS_nonempty n l sc h) as Htab. fold cfg in Htab.
  pose proof (CUM_PROBS_int n l sc h) as Hint. fold cfg in Hint.
  split.
  - destruct (minDuration_spec cfg (intDurations_pos 80 cfg Hint)) as [Hd Hdur].
    pose proof (initialState_progress random cfg Htab Hn) as Hp.
    destruct (initialState random cfg) as [s0|] eqn:Hinit; [|contradiction].
    destruct (initialState_inv random cfg s0 Hl Hs Hinit) as [HR HE].
    set (N := S (potential (maxSimTime cfg) (minDuration cfg) (FEL s0))).
    destruct (loop_terminates_potential random cfg (minDuration cfg) N s0 0
                Htab Hd Hdur HR HE) as [[s last] Hloop]; [unfold N; lia|].
    exists N, (getFinalStats cfg (finalUpdateUnguarded s last)).
    intros fuel Hfuel.
    now rewrite (loop_fuel_mono random cfg N fuel s0 0 (s, last) Hloop Hfuel).
  - intros s last ty entry Hr Hin.
    apply (Reachable_exact random cfg 80 s last ty entry Hint); try assumption.
    simpl maxSimTime.
    apply Qle_trans with (inject_Z (2 ^ 53 - 80) + inject_Z 80).
    + apply Qplus_le_l. exact Hh.
    + rewrite <- inject_Z_plus. apply Qle_refl.
Qed.

Lemma runEarlier_terminates_witness :
  (exists N stats,
     forall fuel, (N <= fuel)%nat ->
                  runEarlier demoRandom 6 2 1 100 fuel = Finished stats) /\
  (forall s last ty entry,
     Reachable demoRandom (mkConfig 6 2 1 100 CUM_PROBS) s last ->
     In entry (CUM_PROBS ty) ->
     Exact64 (clock s) (Cum.time entry)).
Proof.
  apply (runEarlier_terminates demoRandom 6 2 1 100); try lia; discriminate.
Defined.

(** ** The accumulators along a run *)

Lemma initialState_zero (random : nat -> Q) (cfg : Config) (s : Simulation) :
  initialState random cfg = Some s ->
  clock s = 0 /\ loaderBusyTime s = 0 /\ scaleBusyTime s = 0.
Proof.
  intros H. pose proof (initialState_numTrucks random cfg s H) as Hn.
  destruct (isProblemSpecific cfg) eqn:Hsp.
  - destruct (initialState_specific random cfg s Hsp H)
      as (t1 & t2 & t3 & _ & _ & _ & ->). now repeat split.
  - rewrite (initialState_general random cfg Hsp Hn) in H. injection H as <-.
    now repeat split.
Qed.

Lemma stateAfter_S (random : nat -> Q) (cfg : Config) (n : nat)
    (s' : Simulation) (last' : Q) :
  stateAfter random cfg (S n) = Some (s', last') <->
  exists s last,
    stateAfter random cfg n = Some (s, last) /\
    loopBody random cfg s last = Some (Continue s' last').
Proof.
  simpl. split.
  - destruct (stateAfter random cfg n) as [[s last]|]; [|discriminate].
    destruct (loopBody random cfg s last) as [[s1 last1|s1 last1]|] eqn:E;
      try discriminate.
    intros [= <- <-]. now exists s, last.
  - intros (s & last & -> & ->). reflexivity.
Qed.

Lemma stateAfter_None (random : nat -> Q) (cfg : Config) (n m : nat) :
  stateAfter random cfg n = None -> (n <= m)%nat -> stateAfter random cfg m = None.
Proof.
  intros Hn Hle. induction Hle as [|m Hle IH]; [exact Hn|].
  simpl. now rewrite IH.
Qed.

(** At the head of the loop [lastEventTime] is the clock, and each
    accumulator is the integral of its busy count. *)
Lemma stateAfter_integrals (random : nat -> Q) (cfg : Config) (n : nat)
    (s : Simulation) (last : Q) :
  stateAfter random cfg n = Some (s, last) ->
  last = clock s /\
  loaderBusyTime s = busyIntegral L random cfg n /\
  scaleBusyTime s = busyIntegral W random cfg n.
Proof.
  revert s last. induction n as [|n IH]; intros s' last' H.
  - simpl in H. destruct (initialState random cfg) as [s0|] eqn:E; [|discriminate].
    injection H as <- <-.
    destruct (initialState_zero random cfg s0 E) as (Hc & Hl & Hs).
    now rewrite Hc, Hl, Hs.
  - pose proof H as H'. apply stateAfter_S in H' as (s & last & Hn & Hstep).
    destruct (IH s last Hn) as (Hlast & Hl & Hs).
    apply loopBody_Continue in Hstep as (e & rest & _ & _ & -> & Hd).
    apply dispatch_frame in Hd as (Hc' & Hl' & Hs'). simpl in Hc', Hl', Hs'.
    split; [now rewrite Hc'|].
    cbn [busyIntegral]. unfold stateOf. rewrite H, Hn.
    rewrite Hl', Hs', Hc', Hl, Hs, Hlast. now split.
Qed.

(** The loop returns exactly when some later loop-head state leaves the
    loop within the evaluations it is given. *)
Lemma loop_stateAfter (random : nat -> Q) (cfg : Config) (fuel n : nat)
    (s : Simulation) (last : Q) (s' : Simulation) (last' : Q) :
  stateAfter random cfg n = Some (s, last) ->
  loop random cfg fuel s last = Finished (s', last') <->
  exists m sM lastM,
    (n <= m < n + fuel)%nat /\
    stateAfter random cfg m = Some (sM, lastM) /\
    loopBody random cfg sM lastM = Some (Done s' last').
Proof.
  revert n s last. induction fuel as [|fuel IH]; intros n s last Hn.
  - simpl. split; [discriminate|]. intros (m & _ & _ & Hm & _). lia.
  - simpl. destruct (loopBody random cfg s last) as [[s1 last1|s1 last1]|] eqn:E.
    + assert (Hn1 : stateAfter random cfg (S n) = Some (s1, last1))
        by (apply stateAfter_S; now exists s, last).
      rewrite (IH (S n) s1 last1 Hn1). split.
      * intros (m & sM & lastM & Hm & HM & Hd). exists m, sM, lastM.
        split; [lia | now split].
      * intros (m & sM & lastM & Hm & HM & Hd). exists m, sM, lastM.
        split; [|now split].
        destruct (Nat.eq_dec m n) as [->|Hne]; [|lia].
        rewrite Hn in HM. injection HM as <- <-. congruence.
    + assert (Hn1 : stateAfter random cfg (S n) = None)
        by (simpl; now rewrite Hn, E).
      split.
      * intros [= <- <-]. exists n, s, last. split; [lia | now split].
      * intros (m & sM & lastM & Hm & HM & Hd).
        destruct (Nat.eq_dec m n) as [->|Hne].
        -- rewrite Hn in HM. injection HM as <- <-. congruence.
        -- rewrite (stateAfter_None random cfg (S n) m Hn1) in HM by lia.
           discriminate.
    + assert (Hn1 : stateAfter random cfg (S n) = None)
        by (simpl; now rewrite Hn, E).
      split; [discriminate|].
      intros (m & sM & lastM & Hm & HM & Hd).
      destruct (Nat.eq_dec m n) as [->|Hne].
      * rewrite Hn in HM. injection HM as <- <-. congruence.
      * rewrite (stateAfter_None random cfg (S n) m Hn1) in HM by lia.
        discriminate.
Qed.

(** X24. The accumulators of [run] are the time-weighted integrals of the
    busy counts.  The loop body processes the first pending event exactly
    when it is not past the horizon, updating the accumulators and the
    clock before it calls the handler.  Such an evaluation
    is one iteration of the loop and adds [L * elapsed] and [W * elapsed]
    with the counts of the state before the handler and [elapsed] the
    event time minus [lastEventTime]; the evaluation that leaves the loop
    adds nothing.  Hence at the head of the loop, after [n] events,
    [lastEventTime] is the clock and the accumulators are the sums, over
    the events processed, of the count before the event times the time
    since the previous event.  [run] returns exactly when one of the
    first [fuel] evaluations leaves the loop, and what it returns are the
    statistics of the state left, after one more update over the interval
    from the last event to the final clock with the counts at loop exit,
    which the later copy skips when the interval is not positive and the
    earlier copy always performs.  With a horizon that is not negative
    that interval is never negative. *)
Theorem accumulators_are_integrals (random : nat -> Q) (cfg : Config) :
  (forall s last s' last',
     loopBody random cfg s last = Some (Continue s' last') <->
     exists e rest,
       FEL s = e :: rest /\ time e <= maxSimTime cfg /\ last' = time e /\
       dispatch random cfg e
         (set_clock (time e)
            (set_scaleBusyTime (scaleBusyTime s + inject_Z (W s) * (time e - last))
               (set_loaderBusyTime (loaderBusyTime s + inject_Z (L s) * (time e - last))
                  (set_FEL rest s))))
       = Some (tt, s')) /\
  (forall fuel s last s' last',
     loopBody random cfg s last = Some (Continue s' last') ->
     loop random cfg (S fuel) s last = loop random cfg fuel s' last' /\
     exists e rest,
       FEL s = e :: rest /\
       loaderBusyTime s' = loaderBusyTime s + inject_Z (L s) * (time e - last) /\
       scaleBusyTime s' = scaleBusyTime s + inject_Z (W s) * (time e - last) /\
       clock s' = time e /\ last' = time e) /\
  (forall fuel s last s' last',
     loopBody random cfg s last = Some (Done s' last') ->
     loop random cfg (S fuel) s last = Finished (s', last') /\
     last' = last /\ L s' = L s /\ W s' = W s /\
     loaderBusyTime s' = loaderBusyTime s /\ scaleBusyTime s' = scaleBusyTime s) /\
  (forall n s last,
     stateAfter random cfg n = Some (s, last) ->
     last = clock s /\
     loaderBusyTime s = busyIntegral L random cfg n /\
     scaleBusyTime s = busyIntegral W random cfg n) /\
  (forall fuel stats,
     run random cfg fuel = Finished stats <->
     exists n sN s,
       (n < fuel)%nat /\
       stateAfter random cfg n = Some (sN, clock sN) /\
       loopBody random cfg sN (clock sN) = Some (Done s (clock sN)) /\
       stats = getFinalStats cfg (finalUpdate s (clock sN))) /\
  (forall fuel stats,
     runUnguarded random cfg fuel = Finished stats <->
     exists n sN s,
       (n < fuel)%nat /\
       stateAfter random cfg n = Some (sN, clock sN) /\
       loopBody random cfg sN (clock sN) = Some (Done s (clock sN)) /\
       stats = getFinalStats cfg (finalUpdateUnguarded s (clock sN))) /\
  (forall s last,
     (0 < clock s - last ->
      loaderBusyTime (finalUpdate s last)
      = loaderBusyTime s + inject_Z (L s) * (clock s - last) /\
      scaleBusyTime (finalUpdate s last)
      = scaleBusyTime s + inject_Z (W s) * (clock s - last)) /\
     (clock s - last <= 0 -> finalUpdate s last = s) /\
     loaderBusyTime (finalUpdateUnguarded s last)
     = loaderBusyTime s + inject_Z (L s) * (clock s - last) /\
     scaleBusyTime (finalUpdateUnguarded s last)
     = scaleBusyTime s + inject_Z (W s) * (clock s - last)) /\
  (0 <= maxSimTime cfg ->
   forall n sN s,
     stateAfter random cfg n = Some (sN, clock sN) ->
     loopBody random cfg sN (clock sN) = Some (Done s (clock sN)) ->
     0 <= clock s - clock sN).
Proof.
  assert (Hrun : forall (final : Simulation -> Q -> Simulation) fuel stats,
    match initialState random cfg with
    | Some s0 =>
        match loop random cfg fuel s0 0 with
        | Finished (s', last') => Finished (getFinalStats cfg (final s' last'))
        | Threw => Threw
        | OutOfFuel => OutOfFuel
        end
    | None => Threw
    end = Finished stats <->
    exists n sN s,
      (n < fuel)%nat /\
      stateAfter random cfg n = Some (sN, clock sN) /\
      loopBody random cfg sN (clock sN) = Some (Done s (clock sN)) /\
      stats = getFinalStats cfg (final s (clock sN))).
  { intros final fuel stats.
    destruct (initialState random cfg) as [s0|] eqn:Hinit.
    - assert (H0 : stateAfter random cfg 0 = Some (s0, 0)) by (simpl; now rewrite Hinit).
      split.
      + destruct (loop random cfg fuel s0 0) as [[s last]| |] eqn:Hloop; try discriminate.
        intros [= <-].
        apply (loop_stateAfter random cfg fuel 0 s0 0 s last H0) in Hloop
          as (m & sM & lastM & Hm & HM & Hd).
        destruct (stateAfter_integrals random cfg m sM lastM HM) as (-> & _).
        pose proof (loopBody_Done random cfg sM (clock sM) s last Hd) as (-> & _).
        exists m, sM, s. split; [lia | now repeat split].
      + intros (n & sN & s & Hn & HN & Hd & ->).
        assert (Hloop : loop random cfg fuel s0 0 = Finished (s, clock sN)).
        { apply (loop_stateAfter random cfg fuel 0 s0 0 s (clock sN) H0).
          exists n, sN, (clock sN). split; [lia | now split]. }
        now rewrite Hloop.
    - split; [discriminate|].
      intros (n & sN & s & _ & HN & _).
      assert (H0 : stateAfter random cfg 0 = None) by (simpl; now rewrite Hinit).
      rewrite (stateAfter_None random cfg 0 n H0) in HN by lia. discriminate. }
  split.
  { intros s last s' last'. split; [apply loopBody_Continue|].
    intros (e & rest & Hfel & Hle & -> & Hd).
    unfold loopBody. rewrite Hfel.
    destruct (Qgtb (time e) (maxSimTime cfg)) eqn:Hh;
      [apply Qgtb_true in Hh; exfalso; apply (Qlt_not_le _ _ Hh Hle)|].
    cbv zeta.
    match goal with |- match ?d with _ => _ end = _ =>
      change d with
        (dispatch random cfg e
           (set_clock (time e)
              (set_scaleBusyTime (scaleBusyTime s + inject_Z (W s) * (time e - last))
                 (set_loaderBusyTime
                    (loaderBusyTime s + inject_Z (L s) * (time e - last))
                    (set_FEL rest s)))))
    end.
    rewrite Hd. reflexivity. }
  split.
  { intros fuel s last s' last' H.
    split; [simpl; now rewrite H|].
    apply loopBody_Continue in H as (e & rest & Hfel & _ & -> & Hd).
    apply dispatch_frame in Hd as (Hc & Hl & Hs). simpl in *.
    exists e, rest. now repeat split. }
  split.
  { intros fuel s last s' last' H.
    split; [simpl; now rewrite H|].
    apply loopBody_Done in H as (-> & [(_ & ->) | (e & rest & _ & _ & ->)]);
      now repeat split. }
  split; [exact (stateAfter_integrals random cfg)|].
  split; [exact (Hrun finalUpdate)|].
  split; [exact (Hrun finalUpdateUnguarded)|].
  split.
  { intros s last. split; [|split; [|now split]].
    - intros H. unfold finalUpdate. apply Qgtb_true in H. now rewrite H.
    - intros H. unfold finalUpdate. apply Qgtb_false in H. now rewrite H. }
  intros Hh n sN s HN Hd.
  apply (final_interval_nonneg random cfg sN (clock sN) s (clock sN) Hh);
    [now apply (stateAfter_Reachable random cfg n) | exact Hd].
Qed.

Lemma accumulators_are_integrals_witness :
  exists stats,
    run demoRandom shortConfig 5 = Finished stats /\
    totalTime stats == 3 /\ loaderUtilization stats == 100 /\
    scaleUtilization stats == 0.
Proof.
  eexists. split.
  - apply (proj1 (proj2 (proj2 (proj2 (proj2
             (accumulators_are_integrals demoRandom shortConfig))))) 5%nat).
    exists 2%nat, (stateOf demoRandom shortConfig 2).
    eexists. split; [lia|].
    split; [vm_compute; reflexivity|].
    split; [vm_compute; reflexivity | reflexivity].
  - vm_compute. repeat split; reflexivity.
Defined.
